(** * SpeechStatistics: the prefix tree and the uniqueness-point search

    A shallow embedding of [prefix_tree.py] (class [PrefixTree]) and of
    [segment_surprisal_tree.py] (class [SegmentSurprisalTree]), with the
    properties of the specification stated and proved over it.

    Modelling conventions.
    - A node is the Python dict with keys ['id'], ['labels'], ['freq'],
      ['prob'] and ['children'].  The key ['prob'] is absent until
      [calculate_probs] writes it: [prob : option Q].
    - The ['children'] dict is an association list from the child's key
      (the whole prefix, a tuple of symbols) to the child, in the order the
      keys were first added; [setdefault] adds a new key last.  The order
      shows in the order of the list [get_continuations] returns and
      nowhere else.
    - Symbols, labels and words are strings.
    - Frequencies and probabilities are exact rationals ([Q], compared with
      [==]); entropies and surprisals are real numbers, [np.log2] being the
      real logarithm in base 2.  For the frequencies this is the arithmetic
      of the program when the weights are Python ints, which are added
      without rounding; with floats among the weights every [+] of [insert]
      rounds.  The theorems that compare sums taken in different orders are
      therefore stated for calls with int weights ([int_insertion]).  The
      ['prob'] of a node is the exact quotient of two frequencies, which the
      float division of the program rounds; [float(n)] raises
      [OverflowError] for an int beyond [float_max], which the model leaves
      out, so the theorems on the probabilities bound the sum of the
      weights by [float_max].
    - A Python exception is the [Raise] branch of [result]; a method that
      mutates [self] before it raises returns the mutated object next to
      the exception. *)

From Stdlib Require Import QArith Reals Lra Lia.
From stdpp Require Import gmap strings list fin_maps pretty sorting.

(** ** Exceptions *)

Inductive exn : Set :=
| KeyError
| IndexError
| ZeroDivisionError
| UnboundLocalError
| NotImplementedError
| ValueError.

Inductive result (A : Type) : Type :=
| Ok (a : A)
| Raise (e : exn).
Arguments Ok {A} a.
Arguments Raise {A} e.

Definition is_ok {A} (r : result A) : bool :=
  match r with Ok _ => true | Raise _ => false end.

(** ** Nodes *)

#[local] Unset Elimination Schemes.
Inductive node : Type := Node {
  id : list string;
  labels : list string;
  freq : Q;
  prob : option Q;
  children : list (list string * node)
}.
#[local] Set Elimination Schemes.

Definition set_freq (f : Q) (x : node) : node :=
  Node (id x) (labels x) f (prob x) (children x).
Definition set_prob (p : Q) (x : node) : node :=
  Node (id x) (labels x) (freq x) (Some p) (children x).
Definition set_children (cs : list (list string * node)) (x : node) : node :=
  Node (id x) (labels x) (freq x) (prob x) cs.
Definition append_label (l : string) (x : node) : node :=
  Node (id x) (labels x ++ [l]) (freq x) (prob x) (children x).

(** [d[k]], [None] standing for the [KeyError]. *)
Fixpoint dict_get {V : Type} (k : list string) (d : list (list string * V))
  : option V :=
  match d with
  | [] => None
  | (k', v) :: d' => if decide (k = k') then Some v else dict_get k d'
  end.

(** [x = d.setdefault(k, dflt)] followed by the in-place update [f] of [x]:
    an existing key keeps its place, a new key is added last. *)
Fixpoint dict_setdefault_update {V : Type} (k : list string) (dflt : V)
    (f : V -> V) (d : list (list string * V)) : list (list string * V) :=
  match d with
  | [] => [(k, f dflt)]
  | (k', v) :: d' =>
      if decide (k = k') then (k', f v) :: d'
      else (k', v) :: dict_setdefault_update k dflt f d'
  end.

Module PrefixTree.

(** The memoized statistics of a node: the dict with keys ['n'] and
    ['entropy']. *)
Record stats : Type := Stats { stats_n : nat; stats_entropy : R }.

Record t : Type := Make {
  tree : node;
  _cache : gmap (list string) stats
}.

(** [__init__] *)
Definition init : t :=
  Make (Node [] ["root"%string] 0 None []) ∅.

Definition new_node (k : list string) : node := Node k [] 0 None [].

(** The loop of [insert], from iteration [i] on, with [rest] iterations
    to go, [pointer] being the children dict the loop stands at.  The last
    iteration is the one whose node receives the label after the loop. *)
Fixpoint insert_loop (vector : list string) (w : Q) (label : string)
    (i rest : nat) (pointer : list (list string * node))
  : list (list string * node) :=
  match rest with
  | O => pointer
  | S rest' =>
      dict_setdefault_update (take (S i) vector)
        (new_node (take (S i) vector))
        (fun x =>
           let x1 := set_freq (freq x + w) x in
           let x2 :=
             set_children
               (insert_loop vector w label (S i) rest' (children x1)) x1 in
           match rest' with
           | O => append_label label x2
           | S _ => x2
           end)
        pointer
  end.

(** [insert(vector, freq, label)]: the root's frequency is raised first;
    with an empty [vector] the loop body never binds [node], and the
    statement after the loop raises. *)
Definition insert_node (root : node) (vector : list string) (w : Q)
    (label : string) : node * result unit :=
  let root1 := set_freq (freq root + w) root in
  match vector with
  | [] => (root1, Raise UnboundLocalError)
  | _ :: _ =>
      (set_children
         (insert_loop vector w label 0 (length vector) (children root1))
         root1,
       Ok tt)
  end.

Definition insert (self : t) (vector : list string) (w : Q)
    (label : string) : t * result unit :=
  let '(root', r) := insert_node (tree self) vector w label in
  (Make root' (_cache self), r).

(** [get_node] *)
Fixpoint get_node_loop (vector : list string) (i rest : nat)
    (pointer : node) : result node :=
  match rest with
  | O => Ok pointer
  | S rest' =>
      match dict_get (take (S i) vector) (children pointer) with
      | None => Raise KeyError
      | Some c => get_node_loop vector (S i) rest' c
      end
  end.

Definition get_node (self : t) (vector : list string) : result node :=
  get_node_loop vector 0 (length vector) (tree self).

(** [get_prefixes]; [prefixes] is returned in the order of the appends. *)
Fixpoint get_prefixes_loop (vector : list string) (i rest : nat)
    (pointer : node) (prefixes : list (string * node))
  : result (list (string * node)) :=
  match rest with
  | O => Ok prefixes
  | S rest' =>
      match dict_get (take (S i) vector) (children pointer) with
      | None => Raise KeyError
      | Some c =>
          match vector !! i with
          | None => Raise IndexError
          | Some x =>
              get_prefixes_loop vector (S i) rest' c (prefixes ++ [(x, c)])
          end
      end
  end.

Definition get_prefixes (self : t) (vector : list string)
  : result (list (string * node)) :=
  get_prefixes_loop vector 0 (length vector) (tree self) [].

(** [calculate_probs(node)]: the children are visited in order; the
    division raises when the parent's frequency is zero, and what was
    written before stays written.  The recursive call neither reads nor
    writes the child's own ['prob'], so the model sets it on the way
    back.  The quotient is the exact one, which the program rounds to a
    float; the [OverflowError] of [float(child['freq'])] and of the division
    on an int beyond the floats is left out. *)
Fixpoint calculate_probs_node (x : node) : node * result unit :=
  let '(cs, r) :=
    (fix loop (cs : list (list string * node))
       : list (list string * node) * result unit :=
       match cs with
       | [] => ([], Ok tt)
       | (k, child) :: cs' =>
           if Qeq_bool (freq x) 0 then (cs, Raise ZeroDivisionError)
           else
             let p := (freq child / freq x)%Q in
             let '(child', r) := calculate_probs_node child in
             match r with
             | Raise e => ((k, set_prob p child') :: cs', Raise e)
             | Ok _ =>
                 let '(cs'', r') := loop cs' in
                 ((k, set_prob p child') :: cs'', r')
             end
       end) (children x) in
  (set_children cs x, r).

Definition calculate_probs (self : t) : t * result unit :=
  let '(root', r) := calculate_probs_node (tree self) in
  (Make root' (_cache self), r).

(** [get_continuations(node)] *)
Fixpoint get_continuations (x : node) : list (list string * Q) :=
  match children x with
  | [] => [(labels x, freq x)]
  | _ :: _ =>
      concat (map (fun kc => get_continuations (snd kc)) (children x))
  end.

(** [np.log2] on a positive number, and [np.sum]. *)
Definition log2 (x : R) : R := (ln x / ln 2)%R.

Definition Rsum (v : list R) : R := foldr Rplus 0%R v.

(** [_entropy(v)]: frequencies in, entropy in bits out. *)
Definition _entropy (v : list Q) : R :=
  let v0 := map Q2R v in
  let v1 := map (fun x => (x + 1)%R) v0 in
  let v2 := map (fun x => (x / Rsum v1)%R) v1 in
  (- Rsum (map (fun x => (x * log2 x)%R) v2))%R.

(** [get_node_stats(node)] *)
Definition get_node_stats (self : t) (x : node) : t * stats :=
  match _cache self !! id x with
  | Some s => (self, s)
  | None =>
      let cont_freqs := map snd (get_continuations x) in
      let s := Stats (length cont_freqs) (_entropy cont_freqs) in
      (Make (tree self) (<[id x := s]> (_cache self)), s)
  end.

(** The list comprehension [[g(x, y) for x, y in l]] with a [g] that may
    raise. *)
Fixpoint comprehension {A B : Type} (g : A -> result B) (l : list A)
  : result (list B) :=
  match l with
  | [] => Ok []
  | a :: l' =>
      match g a with
      | Raise e => Raise e
      | Ok b =>
          match comprehension g l' with
          | Raise e => Raise e
          | Ok bs => Ok (b :: bs)
          end
      end
  end.

(** [y['prob']] *)
Definition get_prob (y : node) : result Q :=
  match prob y with
  | None => Raise KeyError
  | Some p => Ok p
  end.

(** [prefix_surprisals], [prefix_probabilities], [prefix_frequencies] *)
Definition prefix_surprisals (self : t) (vector : list string)
  : result (list (string * R)) :=
  match get_prefixes self vector with
  | Raise e => Raise e
  | Ok ps =>
      comprehension
        (fun xy : string * node =>
           match get_prob (snd xy) with
           | Raise e => Raise e
           | Ok p => Ok (fst xy, (- log2 (Q2R p))%R)
           end) ps
  end.

Definition prefix_probabilities (self : t) (vector : list string)
  : result (list (string * Q)) :=
  match get_prefixes self vector with
  | Raise e => Raise e
  | Ok ps =>
      comprehension
        (fun xy : string * node =>
           match get_prob (snd xy) with
           | Raise e => Raise e
           | Ok p => Ok (fst xy, p)
           end) ps
  end.

Definition prefix_frequencies (self : t) (vector : list string)
  : result (list (string * Q)) :=
  match get_prefixes self vector with
  | Raise e => Raise e
  | Ok ps => Ok (map (fun xy : string * node => (fst xy, freq (snd xy))) ps)
  end.

(** [iterate_by_depth(node, depth, only_terminal)]: the nodes the
    generator yields, in order.  [depth] is a Python integer: below zero the
    test [depth == 0] never holds again. *)
Fixpoint iterate_by_depth (x : node) (depth : Z) (only_terminal : bool)
  : list node :=
  if bool_decide (depth = 0%Z)
     && (negb only_terminal
         || match children x with [] => true | _ :: _ => false end)
  then [x]
  else
    concat
      (map (fun kc => iterate_by_depth (snd kc) (depth - 1)%Z only_terminal)
           (children x)).

(** The list comprehension of [prefix_entropies]: [get_node_stats] is
    called on the nodes in order, each call on the cache the one before
    left. *)
Fixpoint entropies_loop (self : t) (ps : list (string * node))
  : t * list (string * R) :=
  match ps with
  | [] => (self, [])
  | xy :: ps' =>
      let '(self1, s) := get_node_stats self (snd xy) in
      let '(self2, l) := entropies_loop self1 ps' in
      (self2, (fst xy, stats_entropy s) :: l)
  end.

(** [prefix_entropies] *)
Definition prefix_entropies (self : t) (vector : list string)
  : t * result (list (string * R)) :=
  match get_prefixes self vector with
  | Raise e => (self, Raise e)
  | Ok ps =>
      let '(self', l) := entropies_loop self ps in
      (self', Ok l)
  end.

End PrefixTree.

Module ELP2CMU.

Import Stdlib.Strings.Ascii.

(** The dict literals [single] and [double], as written: of two entries
    with one key (['I'] in [single]) the later one stands. *)
Definition single : list (string * string) :=
  [("S", "SH"); ("O", "AO"); ("I", "AH"); ("U", "UH"); ("h", "HH");
   ("V", "AH"); ("j", "Y"); ("o", "OW"); ("4", "D"); ("T", "TH");
   ("Z", "ZH");
   ("u", "UW"); ("E", "EH"); ("i", "IY"); ("D", "DH"); ("A", "AA");
   ("I", "IH"); ("N", "NG"); ("a", "AE"); ("e", "EY"); ("@", "AH")]%string.

Definition double : list (string * string) :=
  [("hw", "W"); ("OI", "OY"); ("aI", "AY"); ("dZ", "JH");
   ("aU", "AW"); ("3`", "ER"); ("tS", "CH"); ("@`", "ER")]%string.

(** [d.get(k)] on a dict literal: the last entry with the key. *)
Fixpoint literal_get {K V : Type} `{EqDecision K} (k : K) (d : list (K * V))
  : option V :=
  match d with
  | [] => None
  | (k', v) :: d' =>
      match literal_get k d' with
      | Some v' => Some v'
      | None => if decide (k = k') then Some v else None
      end
  end.

(** [c.upper()] on one character of a [str]: the letters [a] to [z] are
    raised, every other byte is kept. *)
Definition upper (c : Ascii.ascii) : Ascii.ascii :=
  let n := Ascii.nat_of_ascii c in
  if bool_decide (97 <= n <= 122) then Ascii.ascii_of_nat (n - 32) else c.

(** [c in ...] for the three characters the loop skips: the dot, the double
    quote (the byte 34) and the percent sign. *)
Definition skipped (c : Ascii.ascii) : bool :=
  bool_decide (c = "."%char \/ c = "034"%char \/ c = "%"%char).

(** The last three branches of the loop of [translate], the ones that read
    one character: what they leave in [res]. *)
Definition one_character (c : Ascii.ascii) (res : list string) : list string :=
  match literal_get (String c EmptyString) single with
  | Some p => res ++ [p]
  | None =>
      if bool_decide (c = "r"%char)
         && bool_decide (0 < length res)
         && bool_decide (last res = Some "ER"%string)
      then res
      else res ++ [String (upper c) EmptyString]
  end.

(** The loop of [translate] on [s[i:]]. *)
Fixpoint translate_loop (s : string) (res : list string) : list string :=
  match s with
  | EmptyString => res
  | String c s1 =>
      if skipped c then translate_loop s1 res
      else
        match s1 with
        | String c2 s2 =>
            match literal_get (String c (String c2 EmptyString)) double with
            | Some p => translate_loop s2 (res ++ [p])
            | None =>
                if bool_decide (c2 = "="%char)
                then translate_loop s2
                       (res ++ ["AH"%string; String (upper c) EmptyString])
                else translate_loop s1 (one_character c res)
            end
        | EmptyString => translate_loop s1 (one_character c res)
        end
  end.

(** [translate(s)] *)
Definition translate (s : string) : list string := translate_loop s [].

End ELP2CMU.

Module SegmentSurprisalTree.

Record t : Type := Make {
  tree : PrefixTree.t;
  pronunciations : gmap string (list string)
}.

(** ['%s_%s' % (phoneme_count, phoneme_iter)] *)
Definition key (phoneme_count : nat) (phoneme_iter : string) : string :=
  pretty phoneme_count +:+ "_" +:+ phoneme_iter.

(** The body of the loop of [get_word_continuations]: the state is the
    dict with the counter. *)
Definition loop_body (st : gmap string (list Q) * nat) (xy : string * node)
  : gmap string (list Q) * nat :=
  let '(continuation_dict, phoneme_count) := st in
  let cont_freqs := map snd (PrefixTree.get_continuations (snd xy)) in
  (<[key phoneme_count (fst xy) := cont_freqs]> continuation_dict,
   S phoneme_count).

(** [get_word_continuations(word)] *)
Definition get_word_continuations (self : t) (word : string)
  : result (gmap string (list Q)) :=
  match pronunciations self !! word with
  | None => Raise NotImplementedError
  | Some word_pron =>
      let word_tuple := word_pron ++ ["#"%string] in
      match PrefixTree.get_prefixes (tree self) word_tuple with
      | Raise e => Raise e
      | Ok ps => Ok (fst (foldl loop_body (∅, O) ps))
      end
  end.

(** The order of [str] values: byte by byte. *)
Definition str_le (s1 s2 : string) : Prop := String.leb s1 s2 = true.

#[global] Instance str_le_dec s1 s2 : Decision (str_le s1 s2).
Proof. unfold str_le. apply _. Defined.

(** [l.sort()] on a list of strings. *)
Definition sort (l : list string) : list string := merge_sort str_le l.

(** The scan of [get_uniqueness_point]: [enumerate(phoneme_list)] from
    index [n] on. *)
Fixpoint scan (continuation_dict : gmap string (list Q)) (n : nat)
    (phoneme_list : list string) : result (nat * string) :=
  match phoneme_list with
  | [] => Raise ValueError
  | phoneme :: rest =>
      match continuation_dict !! phoneme with
      | None => Raise KeyError
      | Some conts =>
          if decide (length conts = 1) then Ok (n, phoneme)
          else scan continuation_dict (S n) rest
      end
  end.

(** [get_uniqueness_point(word)] *)
Definition get_uniqueness_point (self : t) (word : string)
  : result (nat * string) :=
  match get_word_continuations self word with
  | Raise e => Raise e
  | Ok continuation_dict =>
      let phoneme_list := sort (map fst (map_to_list continuation_dict)) in
      scan continuation_dict 0 phoneme_list
  end.

(** [tuple(pron + ['#'] if with_end else [])]: the conditional
    expression binds weaker than [+]. *)
Definition word_vector (pron : list string) (with_end : bool) : list string :=
  if with_end then pron ++ ["#"%string] else [].

(** [surprisals], [probabilities], [frequencies], [node_frequencies] and
    [entropies]; [self.pronunciations[word]] raises [KeyError]. *)
Definition surprisals (self : t) (word : string) (with_end : bool)
  : result (list (string * R)) :=
  match pronunciations self !! word with
  | None => Raise KeyError
  | Some pron => PrefixTree.prefix_surprisals (tree self) (word_vector pron with_end)
  end.

Definition probabilities (self : t) (word : string) (with_end : bool)
  : result (list (string * Q)) :=
  match pronunciations self !! word with
  | None => Raise KeyError
  | Some pron =>
      PrefixTree.prefix_probabilities (tree self) (word_vector pron with_end)
  end.

Definition frequencies (self : t) (word : string) (with_end : bool)
  : result (list (string * Q)) :=
  match pronunciations self !! word with
  | None => Raise KeyError
  | Some pron =>
      PrefixTree.prefix_frequencies (tree self) (word_vector pron with_end)
  end.

Definition node_frequencies (self : t) (word : string) (with_end : bool)
  : result (list (string * Q)) :=
  match pronunciations self !! word with
  | None => Raise KeyError
  | Some pron =>
      PrefixTree.prefix_frequencies (tree self) (word_vector pron with_end)
  end.

Definition entropies (self : t) (word : string) (with_end : bool)
  : t * result (list (string * R)) :=
  match pronunciations self !! word with
  | None => (self, Raise KeyError)
  | Some pron =>
      let '(tree', r) :=
        PrefixTree.prefix_entropies (tree self) (word_vector pron with_end) in
      (Make tree' (pronunciations self), r)
  end.

(** One row of the table of the lexicon, as [csv.DictReader] yields it:
    the columns [read_elp] reads. *)
Record row : Type := Row {
  Word : string;
  Pron : string;
  SUBTLWF : string
}.

Section read_elp.

(** [float] on the text of a frequency field: the number, or the
    [ValueError]. *)
Variable float : string -> result Q.

(** The body of the loop of [read_elp] on one row; the state is the tree
    with the dict of the pronunciations.  The arguments of [insert] are
    evaluated before the call, the sequence given to it is never empty. *)
Definition read_elp_row (st : PrefixTree.t * gmap string (list string))
    (x : row) : (PrefixTree.t * gmap string (list string)) * result unit :=
  let pron := ELP2CMU.translate (Pron x) in
  if bool_decide (SUBTLWF x ∉ ["0"; "NULL"]%string)
  then
    match float (SUBTLWF x) with
    | Raise e => (st, Raise e)
    | Ok w =>
        ((fst (PrefixTree.insert (fst st) (pron ++ ["#"%string]) w (Word x)),
          <[Word x := pron]> (snd st)),
         Ok tt)
    end
  else ((fst st, <[Word x := pron]> (snd st)), Ok tt).

Fixpoint read_elp_loop (st : PrefixTree.t * gmap string (list string))
    (words : list row)
  : (PrefixTree.t * gmap string (list string)) * result unit :=
  match words with
  | [] => (st, Ok tt)
  | x :: words' =>
      match read_elp_row st x with
      | (st', Raise e) => (st', Raise e)
      | (st', Ok _) => read_elp_loop st' words'
      end
  end.

(** [read_elp()] on the rows of the file: a new tree and a new dict, the
    loop, then [calculate_probs]. *)
Definition read_elp (words : list row) : t * result unit :=
  match read_elp_loop (PrefixTree.init, ∅) words with
  | (st, Raise e) => (Make (fst st) (snd st), Raise e)
  | (st, Ok _) =>
      let '(tree', r) := PrefixTree.calculate_probs (fst st) in
      (Make tree' (snd st), r)
  end.

End read_elp.

End SegmentSurprisalTree.

(** ** Histories of calls *)

(** One call [insert(vector, freq, label)]. *)
Record insertion : Type := Insertion {
  ins_vector : list string;
  ins_weight : Q;
  ins_label : string
}.

(** The tree after the calls [ops], made in that order on [self]; a call
    that raises is caught and the next one is made. *)
Definition build_from (self : PrefixTree.t) (ops : list insertion)
  : PrefixTree.t :=
  foldl
    (fun p c =>
       fst (PrefixTree.insert p (ins_vector c) (ins_weight c) (ins_label c)))
    self ops.

Definition build (ops : list insertion) : PrefixTree.t :=
  build_from PrefixTree.init ops.

(** The calls a client can make on a tree between two queries. *)
Inductive call : Type :=
| CallInsert (vector : list string) (w : Q) (label : string)
| CallCalculateProbs
| CallGetNodeStats (x : node).

Definition step (self : PrefixTree.t) (c : call) : PrefixTree.t :=
  match c with
  | CallInsert vector w label => fst (PrefixTree.insert self vector w label)
  | CallCalculateProbs => fst (PrefixTree.calculate_probs self)
  | CallGetNodeStats x => fst (PrefixTree.get_node_stats self x)
  end.

Definition run (self : PrefixTree.t) (cs : list call) : PrefixTree.t :=
  foldl step self cs.

(** ** Notions of the specification *)

(** The node and all the nodes below it, parents first. *)
Fixpoint subnodes (x : node) : list node :=
  x :: concat (map (fun kc => subnodes (snd kc)) (children x)).

Definition terminal (x : node) : bool :=
  match children x with
  | [] => true
  | _ :: _ => false
  end.

(** The terminal nodes at or below [x]. *)
Definition terminal_descendants (x : node) : list node :=
  List.filter terminal (subnodes x).

(** [sum(frequency(child) for child in children)] *)
Definition sum_freq (cs : list (list string * node)) : Q :=
  foldr (fun kc a => (freq (snd kc) + a)%Q) 0%Q cs.

(** [sum(probability(child) for child in children)], [None] when a child
    has no probability yet. *)
Definition sum_prob (cs : list (list string * node)) : option Q :=
  foldr
    (fun kc a =>
       match prob (snd kc), a with
       | Some p, Some s => Some (p + s)%Q
       | _, _ => None
       end)
    (Some 0%Q) cs.

(** The total weight of the calls whose sequence is exactly [v]. *)
Definition term_weight (ops : list insertion) (v : list string) : Q :=
  foldr
    (fun c a => if decide (ins_vector c = v) then (ins_weight c + a)%Q else a)
    0%Q ops.

(** The total weight of the calls whose sequence starts with [v]. *)
Definition prefix_weight (ops : list insertion) (v : list string) : Q :=
  foldr
    (fun c a =>
       if decide (v `prefix_of` ins_vector c) then (ins_weight c + a)%Q
       else a)
    0%Q ops.

(** Some call went through the prefix [p]. *)
Definition inserted (ops : list insertion) (p : list string) : Prop :=
  exists c, c ∈ ops /\ p `prefix_of` ins_vector c.



(** The uniqueness point by the numeric order of the positions: the first
    position of the terminated sequence, counted from 0, whose node has one
    continuation, with the key of that position. *)
Fixpoint first_unique (n : nat) (ps : list (string * node))
  : result (nat * string) :=
  match ps with
  | [] => Raise ValueError
  | (x, y) :: ps' =>
      if decide (length (PrefixTree.get_continuations y) = 1)
      then Ok (n, SegmentSurprisalTree.key n x)
      else first_unique (S n) ps'
  end.

Definition uniqueness_point_by_position (self : SegmentSurprisalTree.t)
    (word : string) : result (nat * string) :=
  match SegmentSurprisalTree.pronunciations self !! word with
  | None => Raise NotImplementedError
  | Some word_pron =>
      match PrefixTree.get_prefixes (SegmentSurprisalTree.tree self)
              (word_pron ++ ["#"%string]) with
      | Raise e => Raise e
      | Ok ps => first_unique 0 ps
      end
  end.

(** What [calculate_probs] writes when no division raises. *)
Fixpoint with_probs (x : node) : node :=
  set_children
    (map (fun kc =>
            (fst kc, set_prob (freq (snd kc) / freq x) (with_probs (snd kc))))
         (children x))
    x.

(** The invariant of a tree built by the calls [ops]: a node's frequency is
    the weight of the calls that start with its id; it is the sum over its
    children plus the weight of the calls that end at it; the keys of its
    children are distinct, are the children's ids, extend its id by one
    symbol, and are the one-symbol extensions some call went through. *)
#[local] Unset Elimination Schemes.
Inductive good (ops : list insertion) : node -> Prop :=
| good_intro (x : node) :
    (freq x == prefix_weight ops (id x))%Q ->
    (freq x == sum_freq (children x) + term_weight ops (id x))%Q ->
    NoDup (map fst (children x)) ->
    (forall k, k ∈ map fst (children x) <->
               (exists s, k = id x ++ [s]) /\ inserted ops k) ->
    Forall (fun kc => fst kc = id (snd kc) /\ good ops (snd kc))
           (children x) ->
    good ops x.
#[local] Set Elimination Schemes.

(** The loop of [calculate_probs] over the children of a node of frequency
    [fx], as a function of its own. *)
Definition calc_loop (fx : Q) :=
  fix loop (cs : list (list string * node))
    : list (list string * node) * result unit :=
    match cs with
    | [] => ([], Ok tt)
    | (k, child) :: cs' =>
        if Qeq_bool fx 0 then (cs, Raise ZeroDivisionError)
        else
          let p := (freq child / fx)%Q in
          let '(child', r) := PrefixTree.calculate_probs_node child in
          match r with
          | Raise e => ((k, set_prob p child') :: cs', Raise e)
          | Ok _ =>
              let '(cs'', r') := loop cs' in
              ((k, set_prob p child') :: cs'', r')
          end
    end.

(** A tree queried, then grown: [insert(('a','b'), 3)], the statistics of
    the node of [('a',)], then [insert(('a','c'), 3)]. *)
Definition tree_ab : PrefixTree.t := build [Insertion ["a"; "b"] 3 "ab"].

Definition node_a_before : node :=
  Node ["a"] [] 3 None [(["a"; "b"], Node ["a"; "b"] ["ab"] 3 None [])].

Definition tree_ab_ac : PrefixTree.t :=
  run tree_ab [CallGetNodeStats node_a_before; CallInsert ["a"; "c"] 3 "ac"].

Definition node_a_after : node :=
  Node ["a"] [] 6 None
    [(["a"; "b"], Node ["a"; "b"] ["ab"] 3 None []);
     (["a"; "c"], Node ["a"; "c"] ["ac"] 3 None [])].

(** The surprisal of a probability, position by position. *)
Definition surprisal_of (xp : string * Q) : string * R :=
  (fst xp, (- PrefixTree.log2 (Q2R (snd xp)))%R).

(** What [insert] does to the node [x] that the loop enters at iteration
    [i] with [rest] iterations to go: its frequency is raised and the loop
    goes on in its children. *)
Definition descend (vector : list string) (w : Q) (label : string)
    (i rest : nat) (x : node) : node :=
  set_children
    (PrefixTree.insert_loop vector w label i rest
       (children (set_freq (freq x + w) x)))
    (set_freq (freq x + w) x).

(** [insert(('a',), 1)] then [insert(('a','b'), 1)]: the first sequence
    ends at a node the second one goes through. *)
Definition ops_a_ab : list insertion :=
  [Insertion ["a"] 1 "a"; Insertion ["a"; "b"] 1 "ab"].

Definition node_a_of_a_ab : node :=
  Node ["a"] ["a"] 2 None [(["a"; "b"], Node ["a"; "b"] ["ab"] 1 None [])].

(** The children [with_probs] gives a node of frequency [fx]. *)
Definition probs_of (fx : Q) (cs : list (list string * node))
  : list (list string * node) :=
  map (fun kc =>
         (fst kc, set_prob (freq (snd kc) / fx) (with_probs (snd kc))))
      cs.

(** The node of [('a',)] in the tree of [ops_a_ab] after
    [calculate_probs]. *)
Definition node_a_of_a_ab_probs : node :=
  Node ["a"] ["a"] 2 (Some (2 # 2))
    [(["a"; "b"], Node ["a"; "b"] ["ab"] 1 (Some (1 # 2)) [])].

(** A lexicon of three words; [understanding] has eleven phonemes, so its
    terminated sequence has the positions 0 to 11. *)
Definition pron_understand : list string :=
  ["AH"; "N"; "D"; "ER"; "S"; "T"; "AE"; "N"; "D"].
Definition pron_understanding : list string :=
  ["AH"; "N"; "D"; "ER"; "S"; "T"; "AE"; "N"; "D"; "IH"; "NG"].
Definition pron_understood : list string :=
  ["AH"; "N"; "D"; "ER"; "S"; "T"; "UH"; "D"].

Definition lexicon : SegmentSurprisalTree.t :=
  SegmentSurprisalTree.Make
    (fst (PrefixTree.calculate_probs
            (build
               [Insertion (pron_understand ++ ["#"]) 20 "understand";
                Insertion (pron_understanding ++ ["#"]) 10 "understanding";
                Insertion (pron_understood ++ ["#"]) 5 "understood"])))
    (list_to_map
       [("understand", pron_understand);
        ("understanding", pron_understanding);
        ("understood", pron_understood)]%string).

(** The keys [get_word_continuations] writes for the pairs [ps], the
    counter starting at [n], in the order of the positions. *)
Fixpoint keys_from (n : nat) (ps : list (string * node)) : list string :=
  match ps with
  | [] => []
  | xy :: ps' => SegmentSurprisalTree.key n (fst xy) :: keys_from (S n) ps'
  end.

(** The two trees of the docstring of [PrefixTree], after
    [calculate_probs], and a lexicon of two words. *)
Definition tree_124_125 : PrefixTree.t :=
  fst (PrefixTree.calculate_probs
         (build [Insertion ["1"; "2"; "4"] 3 ""; Insertion ["1"; "2"; "5"] 3 ""])).

Definition tree_kill_cat : PrefixTree.t :=
  fst (PrefixTree.calculate_probs
         (build [Insertion ["K"; "IH"; "L"] 3 "kill";
                 Insertion ["K"; "AE"; "T"] 6 "cat"])).

Definition lexicon_ab_ac : SegmentSurprisalTree.t :=
  SegmentSurprisalTree.Make
    (fst (PrefixTree.calculate_probs
            (build [Insertion ["A"; "B"; "#"] 1 "ab";
                    Insertion ["A"; "C"; "#"] 1 "ac"])))
    (list_to_map [("ab", ["A"; "B"]); ("ac", ["A"; "C"])]%string).

(** What [insert] does to a node it reaches through a dict, [rest]
    iterations being left below it: as [descend], and the label when the
    sequence ends there. *)
Definition touch (vector : list string) (w : Q) (label : string)
    (i rest : nat) (y : node) : node :=
  match rest with
  | O => append_label label (descend vector w label i rest y)
  | S _ => descend vector w label i rest y
  end.

(** The node the loop of [get_node] reaches in the old tree, or the new
    node the insertion of [v] makes for the key. *)
Definition reached (u v : list string) (i n : nat) (x : node) : node :=
  match PrefixTree.get_node_loop u i n x with
  | Ok y => y
  | Raise _ => PrefixTree.new_node (take (i + n) v)
  end.

(** The node with every ['prob'] taken away, below it as well. *)
Fixpoint forget_probs (x : node) : node :=
  Node (id x) (labels x) (freq x) None
    (map (fun kc => (fst kc, forget_probs (snd kc))) (children x)).

(** Two nodes that differ in the ['prob'] fields at most. *)
Definition same_but_probs (x y : node) : Prop :=
  forget_probs x = forget_probs y.

(** Along a path [ps] below a node of frequency [f]: the nodes
    [calculate_probs] leaves, and the probabilities it writes in them. *)
Fixpoint probs_path (f : Q) (ps : list (string * node))
  : list (string * node) :=
  match ps with
  | [] => []
  | sc :: ps' =>
      (fst sc, set_prob (freq (snd sc) / f) (with_probs (snd sc)))
        :: probs_path (freq (snd sc)) ps'
  end.

Fixpoint ratios (f : Q) (ps : list (string * node)) : list (string * Q) :=
  match ps with
  | [] => []
  | sc :: ps' => (fst sc, (freq (snd sc) / f)%Q) :: ratios (freq (snd sc)) ps'
  end.

(** The product of a list of rationals. *)
Definition Qprod (l : list Q) : Q := foldr Qmult 1%Q l.

(** The sum of a list of rationals. *)
Definition Qsum (l : list Q) : Q := foldr Qplus 0%Q l.

(** No sequence of the calls is a proper prefix of another one. *)
Definition prefix_free (ops : list insertion) : Prop :=
  forall c c',
    c ∈ ops -> c' ∈ ops ->
    ins_vector c `prefix_of` ins_vector c' -> ins_vector c = ins_vector c'.

(** A string without the underscore. *)
Fixpoint no_underscore (s : string) : Prop :=
  match s with
  | EmptyString => True
  | String c s' => c <> Ascii.ascii_of_nat 95 /\ no_underscore s'
  end.

(** The characters of a string, the lower-case letters, and the phonemes
    the loop of [translate] can append for a string: a value of [double] or
    of [single], ['AH'], or a character of the string that the loop does
    not skip, raised. *)
Definition chars (s : string) : list Ascii.ascii := String.list_ascii_of_string s.

Definition lower_case (c : Ascii.ascii) : Prop :=
  97 <= Ascii.nat_of_ascii c <= 122.

Definition phoneme_of (s : string) (p : string) : Prop :=
  p ∈ map snd ELP2CMU.double \/ p ∈ map snd ELP2CMU.single \/
  p = "AH"%string \/
  exists c, c ∈ chars s /\ ELP2CMU.skipped c = false /\
            p = String (ELP2CMU.upper c) EmptyString.

(** The end marker of the lexicon, as a character. *)
Definition marker : Ascii.ascii := Ascii.ascii_of_nat 35.

(** What [read_elp] makes of the rows: the rows it inserts, the call of
    [insert] it makes for a row, and the dict of the pronunciations. *)
Definition inserted_rows (words : list SegmentSurprisalTree.row)
  : list SegmentSurprisalTree.row :=
  filter (fun x => SegmentSurprisalTree.SUBTLWF x ∉ ["0"; "NULL"]%string)
         words.

Definition row_insertion (float : string -> result Q)
    (x : SegmentSurprisalTree.row) : insertion :=
  Insertion
    (ELP2CMU.translate (SegmentSurprisalTree.Pron x) ++ ["#"%string])
    (match float (SegmentSurprisalTree.SUBTLWF x) with
     | Ok w => w
     | Raise _ => 0%Q
     end)
    (SegmentSurprisalTree.Word x).

Definition ops_of (float : string -> result Q)
    (words : list SegmentSurprisalTree.row) : list insertion :=
  map (row_insertion float) (inserted_rows words).

Definition prons_of (words : list SegmentSurprisalTree.row)
    (pr : gmap string (list string)) : gmap string (list string) :=
  foldl
    (fun pr x =>
       <[SegmentSurprisalTree.Word x
         := ELP2CMU.translate (SegmentSurprisalTree.Pron x)]> pr)
    pr words.

(** The frequency field of every row to insert is the text of a positive
    number. *)
Definition parses_positive (float : string -> result Q)
    (words : list SegmentSurprisalTree.row) : Prop :=
  forall x,
    x ∈ words ->
    SegmentSurprisalTree.SUBTLWF x ∉ ["0"; "NULL"]%string ->
    exists w, float (SegmentSurprisalTree.SUBTLWF x) = Ok w /\ (0 < w)%Q.

(** A float of the examples: the three texts it knows. *)
Definition float_example (s : string) : result Q :=
  if decide (s = "20.5"%string) then Ok (41 # 2)
  else if decide (s = "3"%string) then Ok 3%Q
  else Raise ValueError.

Definition rows_example : list SegmentSurprisalTree.row :=
  [SegmentSurprisalTree.Row "cat" "k{t" "20.5";
   SegmentSurprisalTree.Row "cab" "k{b" "3";
   SegmentSurprisalTree.Row "cad" "k{d" "0"].

(** ** Calls with integer weights *)

(** A call [insert(vector, freq, label)] whose [freq] is a Python int.
    Python adds ints without rounding, whatever their size: on such calls
    the rationals of the model are the frequencies of the program.  With a
    float among the weights every [+] of [insert] rounds, and two sums of
    the same weights taken in different orders may differ. *)
Record int_insertion : Type := IntInsertion {
  int_vector : list string;
  int_weight : Z;
  int_label : string
}.

Definition of_int (c : int_insertion) : insertion :=
  Insertion (int_vector c) (inject_Z (int_weight c)) (int_label c).

Definition of_ints (iops : list int_insertion) : list insertion :=
  map of_int iops.

(** The sum of the weights of the calls. *)
Definition int_total (iops : list int_insertion) : Z :=
  foldr (fun c a => (int_weight c + a)%Z) 0%Z iops.

(** [sys.float_info.max], the largest float.  [float(n)], and a division
    of a float by [n], raise [OverflowError] for an int [n] that rounds
    beyond it; for an int up to it they do not. *)
Definition float_max : Z := ((2 ^ 53 - 1) * 2 ^ 971)%Z.

(** [ops_a_ab], the weights as ints, and two sequences ended by a
    marker. *)
Definition iops_a_ab : list int_insertion :=
  [IntInsertion ["a"] 1 "a"; IntInsertion ["a"; "b"] 1 "ab"].

Definition iops_marked : list int_insertion :=
  [IntInsertion ["A"; "B"; "#"] 1 "ab"; IntInsertion ["A"; "C"; "#"] 2 "ac"].



(** The calls of [insert] among the calls [cs], in order. *)
Fixpoint insertions (cs : list call) : list insertion :=
  match cs with
  | [] => []
  | CallInsert vector w label :: cs' =>
      Insertion vector w label :: insertions cs'
  | _ :: cs' => insertions cs'
  end.

(** The calls of the second example of the docstring, [pprint] calling
    [calculate_probs] first. *)
Definition calls_kill_cat : list call :=
  [CallInsert ["K"; "IH"; "L"] 3 "kill"; CallInsert ["K"; "AE"; "T"] 6 "cat";
   CallCalculateProbs].

(** The calls of the first example of the docstring, [pprint] calling
    [calculate_probs] first, the weights as ints. *)
Definition calls_124_125 : list call :=
  [CallInsert ["1"; "2"; "4"] 3 ""; CallInsert ["1"; "2"; "5"] 3 "";
   CallCalculateProbs].

Definition iops_124_125 : list int_insertion :=
  [IntInsertion ["1"; "2"; "4"] 3 ""; IntInsertion ["1"; "2"; "5"] 3 ""].

(** The calls of [iops_a_ab], and those of [iops_marked] followed by
    [calculate_probs]. *)
Definition calls_a_ab : list call :=
  [CallInsert ["a"] 1 "a"; CallInsert ["a"; "b"] 1 "ab"].

Definition calls_marked : list call :=
  [CallInsert ["A"; "B"; "#"] 1 "ab"; CallInsert ["A"; "C"; "#"] 2 "ac";
   CallCalculateProbs].

(** * Proofs *)

(** ** Induction on nodes *)

Lemma node_ind (P : node -> Prop) :
  (forall i l f p cs, Forall (fun kc => P (snd kc)) cs -> P (Node i l f p cs)) ->
  forall x, P x.
Proof.
  intros H.
  refine (fix IH (x : node) : P x :=
            match x with
            | Node i l f p cs =>
                H i l f p cs
                  ((fix go (cs : list (list string * node))
                      : Forall (fun kc => P (snd kc)) cs :=
                      match cs as cs0
                            return Forall (fun kc => P (snd kc)) cs0 with
                      | [] => List.Forall_nil _
                      | kc :: cs1 => List.Forall_cons _ _ _ (IH (snd kc)) (go cs1)
                      end) cs)
            end).
Qed.

(** ** The examples of the docstring *)

Example docstring_124_125 :
  PrefixTree.prefix_frequencies tree_124_125 ["1"; "2"; "4"]
  = Ok [("1", 6); ("2", 6); ("4", 3)]%string%Q /\
  PrefixTree.prefix_probabilities tree_124_125 ["1"; "2"; "4"]
  = Ok [("1", 6 # 6); ("2", 6 # 6); ("4", 3 # 6)]%string%Q /\
  PrefixTree.prefix_probabilities tree_124_125 ["1"; "2"; "5"]
  = Ok [("1", 6 # 6); ("2", 6 # 6); ("5", 3 # 6)]%string%Q /\
  freq (PrefixTree.tree tree_124_125) = 6%Q.
Proof. repeat split; vm_compute; reflexivity. Qed.

Example docstring_kill_cat :
  PrefixTree.prefix_probabilities tree_kill_cat ["K"; "AE"; "T"]
  = Ok [("K", 9 # 9); ("AE", 6 # 9); ("T", 6 # 6)]%string%Q /\
  PrefixTree.prefix_probabilities tree_kill_cat ["K"; "IH"; "L"]
  = Ok [("K", 9 # 9); ("IH", 3 # 9); ("L", 3 # 3)]%string%Q /\
  (exists x,
      PrefixTree.get_node tree_kill_cat ["K"] = Ok x /\
      PrefixTree.get_continuations x
      = [(["kill"], 3); (["cat"], 6)]%string%Q) /\
  PrefixTree.get_node tree_kill_cat ["K"; "AE"; "L"] = Raise KeyError.
Proof.
  split; [vm_compute; reflexivity|]. split; [vm_compute; reflexivity|].
  split; [|vm_compute; reflexivity].
  eexists. split; vm_compute; reflexivity.
Qed.

Example uniqueness_point_ab :
  SegmentSurprisalTree.get_uniqueness_point lexicon_ab_ac "ab"
  = Ok (1, "1_B"%string) /\
  SegmentSurprisalTree.get_uniqueness_point lexicon_ab_ac "ad"
  = Raise NotImplementedError.
Proof. split; vm_compute; reflexivity. Qed.

(** ** The empty sequence (C10) *)

(** C10: [insert] called with the empty sequence raises
    [UnboundLocalError], and the tree it leaves is the tree it was given
    with the root's frequency raised by the weight: the failed call is not
    undone.  The cache, the root's other fields and its children are as
    before. *)
Theorem insert_empty_raises_after_root_update
    (self : PrefixTree.t) (w : Q) (label : string) :
  snd (PrefixTree.insert self [] w label) = Raise UnboundLocalError /\
  PrefixTree.tree (fst (PrefixTree.insert self [] w label))
    = set_freq (freq (PrefixTree.tree self) + w) (PrefixTree.tree self) /\
  freq (PrefixTree.tree (fst (PrefixTree.insert self [] w label)))
    = (freq (PrefixTree.tree self) + w)%Q /\
  PrefixTree._cache (fst (PrefixTree.insert self [] w label))
    = PrefixTree._cache self.
Proof. repeat split. Qed.

(** A non-empty sequence never raises. *)
Lemma insert_nonempty_ok (self : PrefixTree.t) (v : list string) (w : Q)
    (label : string) :
  v <> [] -> snd (PrefixTree.insert self v w label) = Ok tt.
Proof. destruct v; [congruence | reflexivity]. Qed.

(** ** Continuations (C4) *)

Lemma get_continuations_unfold (x : node) :
  PrefixTree.get_continuations x =
  match children x with
  | [] => [(labels x, freq x)]
  | _ :: _ =>
      concat (map (fun kc => PrefixTree.get_continuations (snd kc))
                  (children x))
  end.
Proof. destruct x; reflexivity. Qed.

Lemma subnodes_unfold (x : node) :
  subnodes x = x :: concat (map (fun kc => subnodes (snd kc)) (children x)).
Proof. destruct x; reflexivity. Qed.

Lemma filter_concat_map {A B C : Type} (f : A -> bool) (g : A -> B)
    (h : C -> list A) (l : list C) :
  map g (List.filter f (concat (map h l)))
  = concat (map (fun c => map g (List.filter f (h c))) l).
Proof.
  induction l as [|c l IH]; simpl; [reflexivity|].
  rewrite List.filter_app, List.map_app, IH. reflexivity.
Qed.

(** C4: [get_continuations(node)] is the list of the (labels, frequency)
    pairs of the terminal nodes at or below [node], in the order of the
    traversal; for a node without children it is the one-element list of
    the node's own pair. *)
Theorem get_continuations_terminal_descendants :
  (forall x : node,
      PrefixTree.get_continuations x
      = map (fun y => (labels y, freq y)) (terminal_descendants x)) /\
  (forall i l f p,
      PrefixTree.get_continuations (Node i l f p []) = [(l, f)]).
Proof.
  split; [|reflexivity].
  induction x as [i l f p cs IH] using node_ind.
  rewrite get_continuations_unfold. unfold terminal_descendants.
  rewrite subnodes_unfold. cbn [children labels freq].
  destruct cs as [|kc cs]; [reflexivity|].
  cbn [List.filter terminal children].
  rewrite filter_concat_map. f_equal.
  apply map_ext_Forall. eapply Forall_impl; [exact IH|].
  intros kc' ->. reflexivity.
Qed.

(** ** Idempotence of [calculate_probs] (C7) *)

Lemma calculate_probs_node_unfold (x : node) :
  PrefixTree.calculate_probs_node x
  = (set_children (fst (calc_loop (freq x) (children x))) x,
     snd (calc_loop (freq x) (children x))).
Proof.
  destruct x as [i l f p cs].
  transitivity
    (let '(cs0, r) := calc_loop f cs in
     (set_children cs0 (Node i l f p cs), r)); [reflexivity|].
  cbn [freq children]. destruct (calc_loop f cs); reflexivity.
Qed.

Lemma calculate_probs_node_set_prob (p : Q) (x : node) :
  PrefixTree.calculate_probs_node (set_prob p x)
  = (set_prob p (fst (PrefixTree.calculate_probs_node x)),
     snd (PrefixTree.calculate_probs_node x)).
Proof. rewrite !calculate_probs_node_unfold. reflexivity. Qed.

Lemma calculate_probs_node_freq (x : node) :
  freq (fst (PrefixTree.calculate_probs_node x)) = freq x.
Proof. rewrite calculate_probs_node_unfold. reflexivity. Qed.

Lemma calc_loop_idem (fx : Q) (cs : list (list string * node)) :
  Forall (fun kc =>
            PrefixTree.calculate_probs_node
              (fst (PrefixTree.calculate_probs_node (snd kc)))
            = PrefixTree.calculate_probs_node (snd kc)) cs ->
  calc_loop fx (fst (calc_loop fx cs)) = calc_loop fx cs.
Proof.
  induction 1 as [|[k c] cs Hc _ IH]; [reflexivity|].
  cbn [calc_loop snd] in *. fold (calc_loop fx) in *.
  destruct (Qeq_bool fx 0) eqn:Hz.
  { cbn [fst calc_loop]. rewrite Hz. reflexivity. }
  pose proof (calculate_probs_node_freq c) as Hf.
  destruct (PrefixTree.calculate_probs_node c) as [c' r] eqn:Hcalc.
  cbn [fst snd] in *.
  destruct r as [[]|e].
  - destruct (calc_loop fx cs) as [cs'' r'] eqn:Hloop. cbn [fst] in *.
    cbn [calc_loop]. fold (calc_loop fx). rewrite Hz.
    rewrite calculate_probs_node_set_prob, Hc. cbn [fst snd].
    rewrite IH. cbn [freq set_prob]. rewrite Hf. reflexivity.
  - cbn [fst calc_loop]. fold (calc_loop fx). rewrite Hz.
    rewrite calculate_probs_node_set_prob, Hc. cbn [fst snd].
    cbn [freq set_prob]. rewrite Hf. reflexivity.
Qed.

Lemma calculate_probs_node_idem (x : node) :
  PrefixTree.calculate_probs_node (fst (PrefixTree.calculate_probs_node x))
  = PrefixTree.calculate_probs_node x.
Proof.
  induction x as [i l f p cs IH] using node_ind.
  rewrite (calculate_probs_node_unfold (Node i l f p cs)).
  cbn [fst freq children].
  rewrite calculate_probs_node_unfold.
  cbn [freq children set_children].
  rewrite (calc_loop_idem f cs IH). reflexivity.
Qed.

(** C7: a second [calculate_probs], with nothing in between, changes
    nothing: it leaves the tree (so every ['prob']) and the cache as the
    first call left them, and ends as the first call ended. *)
Theorem calculate_probs_idempotent (self : PrefixTree.t) :
  PrefixTree.calculate_probs (fst (PrefixTree.calculate_probs self))
  = PrefixTree.calculate_probs self.
Proof.
  unfold PrefixTree.calculate_probs.
  pose proof (calculate_probs_node_idem (PrefixTree.tree self)) as H.
  destruct (PrefixTree.calculate_probs_node (PrefixTree.tree self))
    as [root' r] eqn:E.
  cbn [fst PrefixTree.tree PrefixTree._cache] in *. rewrite H. reflexivity.
Qed.

(** ** The cache of [get_node_stats] (C9, C5) *)

Lemma insert_cache (self : PrefixTree.t) v w l :
  PrefixTree._cache (fst (PrefixTree.insert self v w l))
  = PrefixTree._cache self.
Proof.
  unfold PrefixTree.insert.
  destruct (PrefixTree.insert_node _ _ _ _); reflexivity.
Qed.

Lemma insert_tree (self : PrefixTree.t) v w l :
  PrefixTree.tree (fst (PrefixTree.insert self v w l))
  = fst (PrefixTree.insert_node (PrefixTree.tree self) v w l).
Proof.
  unfold PrefixTree.insert.
  destruct (PrefixTree.insert_node _ _ _ _); reflexivity.
Qed.

Lemma calculate_probs_cache (self : PrefixTree.t) :
  PrefixTree._cache (fst (PrefixTree.calculate_probs self))
  = PrefixTree._cache self.
Proof.
  unfold PrefixTree.calculate_probs.
  destruct (PrefixTree.calculate_probs_node _); reflexivity.
Qed.

Lemma get_node_stats_hit (self : PrefixTree.t) (x : node) s :
  PrefixTree._cache self !! id x = Some s ->
  PrefixTree.get_node_stats self x = (self, s).
Proof. intros H. unfold PrefixTree.get_node_stats. rewrite H. reflexivity. Qed.

Lemma get_node_stats_cached (self : PrefixTree.t) (x : node) :
  PrefixTree._cache (fst (PrefixTree.get_node_stats self x)) !! id x
  = Some (snd (PrefixTree.get_node_stats self x)).
Proof.
  unfold PrefixTree.get_node_stats.
  destruct (PrefixTree._cache self !! id x) eqn:E; cbn [fst snd]; [exact E|].
  cbn [PrefixTree._cache]. apply lookup_insert_eq.
Qed.

Lemma step_cache_kept (self : PrefixTree.t) (c : call) k s :
  PrefixTree._cache self !! k = Some s ->
  PrefixTree._cache (step self c) !! k = Some s.
Proof.
  intros H. destruct c as [v w l| |x]; cbn [step].
  - rewrite insert_cache. exact H.
  - rewrite calculate_probs_cache. exact H.
  - unfold PrefixTree.get_node_stats.
    destruct (PrefixTree._cache self !! id x) eqn:E; cbn [fst]; [exact H|].
    cbn [PrefixTree._cache]. rewrite lookup_insert_ne; [exact H|].
    intros Heq. rewrite Heq in E. congruence.
Qed.

Lemma run_cache_kept (cs : list call) (self : PrefixTree.t) k s :
  PrefixTree._cache self !! k = Some s ->
  PrefixTree._cache (run self cs) !! k = Some s.
Proof.
  revert self. induction cs as [|c cs IH]; intros self H; [exact H|].
  cbn [run foldl]. apply IH, step_cache_kept, H.
Qed.

(** C9: once [get_node_stats] has been called for a node, every later
    call for a node with the same id returns what was memoized then and
    leaves the object as it is, whatever calls of [insert],
    [calculate_probs] and [get_node_stats] were made in between and
    whatever the node now holds. *)
Theorem get_node_stats_stale (self : PrefixTree.t) (x : node)
    (cs : list call) (y : node) :
  id y = id x ->
  PrefixTree.get_node_stats
    (run (fst (PrefixTree.get_node_stats self x)) cs) y
  = (run (fst (PrefixTree.get_node_stats self x)) cs,
     snd (PrefixTree.get_node_stats self x)).
Proof.
  intros Hid. apply get_node_stats_hit. rewrite Hid.
  apply run_cache_kept, get_node_stats_cached.
Qed.

(** The instance of C9 on [tree_ab_ac]: the node of [('a',)] has two
    continuations after the second insertion, and the statistics returned
    for it are those of the one continuation it had before. *)
Lemma get_node_stats_stale_witness :
  id node_a_after = id node_a_before /\
  PrefixTree.get_node_stats tree_ab_ac node_a_after
  = (tree_ab_ac, snd (PrefixTree.get_node_stats tree_ab node_a_before)).
Proof.
  split; [reflexivity|].
  exact (get_node_stats_stale tree_ab node_a_before
           [CallInsert ["a"; "c"] 3 "ac"] node_a_after eq_refl).
Defined.





(** ** Prefix queries: surprisal and probability (C6) *)

(** The symbols [get_prefixes] returns are those of the sequence, in
    order. *)
Lemma get_prefixes_loop_symbols (v : list string) :
  forall rest i x acc ps,
    PrefixTree.get_prefixes_loop v i rest x acc = Ok ps ->
    map fst ps = map fst acc ++ take rest (drop i v).
Proof.
  induction rest as [|rest IH]; intros i x acc ps H; cbn in H.
  - injection H as <-. rewrite take_0, app_nil_r. reflexivity.
  - destruct (dict_get _ _) as [c|]; [|discriminate].
    destruct (v !! i) as [s|] eqn:Hs; [|discriminate].
    apply IH in H. rewrite H, map_app. cbn [map fst].
    rewrite (drop_S _ _ _ Hs). cbn [take]. rewrite <- app_assoc.
    reflexivity.
Qed.

Lemma get_prefixes_symbols (self : PrefixTree.t) (v : list string) ps :
  PrefixTree.get_prefixes self v = Ok ps -> map fst ps = v.
Proof.
  intros H. apply get_prefixes_loop_symbols in H.
  rewrite H, drop_0, firstn_all. reflexivity.
Qed.

Lemma comprehension_prob_dual (ps : list (string * node)) :
  PrefixTree.comprehension
    (fun xy : string * node =>
       match PrefixTree.get_prob (snd xy) with
       | Raise e => Raise e
       | Ok p => Ok (fst xy, (- PrefixTree.log2 (Q2R p))%R)
       end) ps
  = match
      PrefixTree.comprehension
        (fun xy : string * node =>
           match PrefixTree.get_prob (snd xy) with
           | Raise e => Raise e
           | Ok p => Ok (fst xy, p)
           end) ps
    with
    | Raise e => Raise e
    | Ok l => Ok (map surprisal_of l)
    end.
Proof.
  induction ps as [|[x y] ps IH]; [reflexivity|].
  cbn [PrefixTree.comprehension fst snd].
  destruct (PrefixTree.get_prob y) as [p|e]; [|reflexivity].
  rewrite IH. clear IH.
  destruct (PrefixTree.comprehension _ ps) as [l|e]; reflexivity.
Qed.

Lemma comprehension_prob_total (ps : list (string * node)) :
  Forall (fun xy => is_Some (prob (snd xy))) ps ->
  exists l,
    PrefixTree.comprehension
      (fun xy : string * node =>
         match PrefixTree.get_prob (snd xy) with
         | Raise e => Raise e
         | Ok p => Ok (fst xy, p)
         end) ps = Ok l /\
    Forall2 (fun xy xp => fst xp = fst xy /\ prob (snd xy) = Some (snd xp))
            ps l.
Proof.
  induction 1 as [|[x y] ps [p Hp] _ [l [Hl HF]]].
  - exists []. split; [reflexivity|constructor].
  - exists ((x, p) :: l). cbn [PrefixTree.comprehension fst snd] in *.
    rewrite Hl. unfold PrefixTree.get_prob. rewrite Hp.
    split; [reflexivity|]. constructor; [split; [reflexivity|exact Hp]|exact HF].
Qed.

(** C6: [prefix_surprisals] is [prefix_probabilities] with every
    probability replaced by minus its logarithm in base 2, and raises where
    [prefix_probabilities] raises; when every prefix of the sequence is in
    the tree with its probability written, both return one pair for each
    symbol of the sequence, in the order of the sequence. *)
Theorem prefix_surprisals_dual (self : PrefixTree.t) (v : list string) :
  PrefixTree.prefix_surprisals self v
  = match PrefixTree.prefix_probabilities self v with
    | Raise e => Raise e
    | Ok l => Ok (map surprisal_of l)
    end /\
  (forall ps,
      PrefixTree.get_prefixes self v = Ok ps ->
      Forall (fun xy => is_Some (prob (snd xy))) ps ->
      exists l,
        PrefixTree.prefix_probabilities self v = Ok l /\
        PrefixTree.prefix_surprisals self v = Ok (map surprisal_of l) /\
        map fst l = v /\
        map fst (map surprisal_of l) = v /\
        Forall2 (fun xy xp => fst xp = fst xy /\ prob (snd xy) = Some (snd xp))
                ps l).
Proof.
  assert (Hdual :
    PrefixTree.prefix_surprisals self v
    = match PrefixTree.prefix_probabilities self v with
      | Raise e => Raise e
      | Ok l => Ok (map surprisal_of l)
      end).
  { unfold PrefixTree.prefix_surprisals, PrefixTree.prefix_probabilities.
    destruct (PrefixTree.get_prefixes self v) as [ps|e]; [|reflexivity].
    apply comprehension_prob_dual. }
  split; [exact Hdual|].
  intros ps Hps Hprob.
  destruct (comprehension_prob_total ps Hprob) as [l [Hl HF]].
  assert (Hp : PrefixTree.prefix_probabilities self v = Ok l).
  { unfold PrefixTree.prefix_probabilities. rewrite Hps. exact Hl. }
  assert (Hsym : map fst l = v).
  { rewrite <- (get_prefixes_symbols self v ps Hps).
    clear -HF. induction HF as [|xy xp ps l [H1 _] _ IH]; [reflexivity|].
    cbn [map]. rewrite H1, IH. reflexivity. }
  exists l. rewrite Hdual, Hp. repeat split; try assumption.
  rewrite map_map. exact Hsym.
Qed.

(** The instance of C6 for [('a','b')] in the tree of [ops_a_ab] after
    [calculate_probs]. *)
Lemma prefix_surprisals_dual_witness :
  exists ps,
    PrefixTree.get_prefixes (fst (PrefixTree.calculate_probs (build ops_a_ab)))
      ["a"; "b"] = Ok ps /\
    Forall (fun xy => is_Some (prob (snd xy))) ps /\
    exists l,
      PrefixTree.prefix_probabilities
        (fst (PrefixTree.calculate_probs (build ops_a_ab))) ["a"; "b"] = Ok l /\
      PrefixTree.prefix_surprisals
        (fst (PrefixTree.calculate_probs (build ops_a_ab))) ["a"; "b"]
      = Ok (map surprisal_of l) /\
      map fst l = ["a"; "b"].
Proof.
  eexists. split; [vm_compute; reflexivity|].
  assert (H : Forall (fun xy : string * node => is_Some (prob (snd xy)))
                [("a"%string, node_a_of_a_ab_probs);
                 ("b"%string, Node ["a"; "b"] ["ab"] 1 (Some (1 # 2)) [])]).
  { repeat constructor; eexists; reflexivity. }
  split; [exact H|].
  destruct (proj2 (prefix_surprisals_dual
                     (fst (PrefixTree.calculate_probs (build ops_a_ab)))
                     ["a"; "b"]) _ eq_refl H)
    as [l (Hl & Hs & Hsym & _)].
  exists l. split; [exact Hl|]. split; [exact Hs|exact Hsym].
Defined.

(** ** Prefixes, weights and dictionaries *)

Lemma prefix_take_iff (p v : list string) :
  p `prefix_of` v <-> take (length p) v = p.
Proof.
  split.
  - intros [k ->]. rewrite take_app_length. reflexivity.
  - intros H. exists (drop (length p) v).
    rewrite <- H at 1. symmetry. apply take_drop.
Qed.

Lemma take_prefix (i : nat) (v : list string) : take i v `prefix_of` v.
Proof. exists (drop i v). symmetry. apply take_drop. Qed.

Lemma prefix_snoc_inv (p v : list string) (s : string) :
  (p ++ [s]) `prefix_of` v -> p `prefix_of` v.
Proof. intros [k ->]. exists ([s] ++ k). rewrite <- app_assoc. reflexivity. Qed.

(** A one-symbol extension of [take i v] is a prefix of [v] only if it is
    [take (S i) v]. *)
Lemma prefix_extension (i : nat) (v : list string) (s : string) :
  i <= length v ->
  (take i v ++ [s]) `prefix_of` v -> take i v ++ [s] = take (S i) v.
Proof.
  intros Hi H. apply prefix_take_iff in H.
  rewrite length_app, length_take, Nat.min_l in H by exact Hi.
  cbn [length] in H. rewrite Nat.add_1_r in H. symmetry. exact H.
Qed.

Lemma term_weight_snoc (ops : list insertion) (c : insertion) (u : list string) :
  (term_weight (ops ++ [c]) u
   == term_weight ops u + (if decide (ins_vector c = u) then ins_weight c else 0))%Q.
Proof.
  induction ops as [|o ops IH]; cbn [term_weight foldr app].
  - destruct (decide _); ring.
  - fold (term_weight (ops ++ [c]) u). fold (term_weight ops u).
    destruct (decide (ins_vector o = u)); rewrite IH; ring.
Qed.

Lemma prefix_weight_snoc (ops : list insertion) (c : insertion) (u : list string) :
  (prefix_weight (ops ++ [c]) u
   == prefix_weight ops u
      + (if decide (u `prefix_of` ins_vector c) then ins_weight c else 0))%Q.
Proof.
  induction ops as [|o ops IH]; cbn [prefix_weight foldr app].
  - destruct (decide _); ring.
  - fold (prefix_weight (ops ++ [c]) u). fold (prefix_weight ops u).
    destruct (decide (u `prefix_of` ins_vector o)); rewrite IH; ring.
Qed.

Lemma inserted_snoc (ops : list insertion) (c : insertion) (p : list string) :
  inserted (ops ++ [c]) p <-> inserted ops p \/ p `prefix_of` ins_vector c.
Proof.
  unfold inserted. split.
  - intros [o [Ho Hp]]. apply elem_of_app in Ho as [Ho|Ho].
    + left. exists o. split; assumption.
    + apply list_elem_of_singleton in Ho as ->. right. exact Hp.
  - intros [[o [Ho Hp]]|Hp].
    + exists o. split; [apply elem_of_app; left; exact Ho|exact Hp].
    + exists c. split; [apply elem_of_app; right; constructor|exact Hp].
Qed.

Lemma inserted_snoc_inv (ops : list insertion) (p : list string) (s : string) :
  inserted ops (p ++ [s]) -> inserted ops p.
Proof.
  intros [o [Ho Hp]]. exists o. split; [exact Ho|].
  eapply prefix_snoc_inv, Hp.
Qed.

Lemma term_weight_not_inserted (ops : list insertion) (u : list string) :
  ~ inserted ops u -> term_weight ops u = 0%Q.
Proof.
  induction ops as [|o ops IH]; intros H; [reflexivity|].
  cbn [term_weight foldr]. fold (term_weight ops u).
  destruct (decide (ins_vector o = u)) as [E|E].
  - exfalso. apply H. exists o. split; [constructor|]. rewrite E. reflexivity.
  - apply IH. intros [o' [Ho' Hp]]. apply H. exists o'.
    split; [constructor; exact Ho'|exact Hp].
Qed.

Lemma term_weight_none (ops : list insertion) (u : list string) :
  (forall c, c ∈ ops -> ins_vector c <> u) -> term_weight ops u = 0%Q.
Proof.
  induction ops as [|o ops IH]; intros H; [reflexivity|].
  cbn [term_weight foldr]. fold (term_weight ops u).
  destruct (decide (ins_vector o = u)) as [E|E].
  - exfalso. apply (H o); [constructor|exact E].
  - apply IH. intros c Hc. apply H. constructor. exact Hc.
Qed.

Lemma prefix_weight_not_inserted (ops : list insertion) (u : list string) :
  ~ inserted ops u -> prefix_weight ops u = 0%Q.
Proof.
  induction ops as [|o ops IH]; intros H; [reflexivity|].
  cbn [prefix_weight foldr]. fold (prefix_weight ops u).
  destruct (decide (u `prefix_of` ins_vector o)) as [E|E].
  - exfalso. apply H. exists o. split; [constructor|exact E].
  - apply IH. intros [o' [Ho' Hp]]. apply H. exists o'.
    split; [constructor; exact Ho'|exact Hp].
Qed.

Lemma sum_freq_cons kc (a : list (list string * node)) :
  sum_freq (kc :: a) = (freq (snd kc) + sum_freq a)%Q.
Proof. reflexivity. Qed.

Lemma sum_freq_app (a b : list (list string * node)) :
  (sum_freq (a ++ b) == sum_freq a + sum_freq b)%Q.
Proof.
  induction a as [|kc a IH]; cbn [app].
  - change (sum_freq []) with 0%Q. ring.
  - rewrite !sum_freq_cons, IH. ring.
Qed.

(** [dict_get] and [dict_setdefault_update] on a dict with distinct keys. *)
Lemma dict_get_None {V} (k : list string) (d : list (list string * V)) :
  dict_get k d = None <-> k ∉ map fst d.
Proof.
  induction d as [|[k' v] d IH]; cbn [dict_get map fst].
  - split; [intros _; apply not_elem_of_nil|reflexivity].
  - rewrite not_elem_of_cons. destruct (decide (k = k')).
    + split; [discriminate|intros [? _]; contradiction].
    + rewrite IH. tauto.
Qed.

Lemma dict_get_Some {V} (k : list string) (d : list (list string * V)) y :
  dict_get k d = Some y ->
  exists pre post, d = pre ++ (k, y) :: post /\ (k ∉ map fst pre).
Proof.
  induction d as [|[k' v] d IH]; cbn [dict_get]; [discriminate|].
  destruct (decide (k = k')) as [->|Hne].
  - intros [= ->]. exists [], d. split; [reflexivity|apply not_elem_of_nil].
  - intros H. destruct (IH H) as [pre [post [-> Hpre]]].
    exists ((k', v) :: pre), post. split; [reflexivity|].
    cbn [map fst]. rewrite not_elem_of_cons. split; assumption.
Qed.

Lemma dict_get_app_r {V} (k : list string) (pre post : list (list string * V)) :
  k ∉ map fst pre -> dict_get k (pre ++ post) = dict_get k post.
Proof.
  induction pre as [|[k' v] pre IH]; cbn [map fst app dict_get]; [reflexivity|].
  rewrite not_elem_of_cons. intros [Hne Hpre].
  destruct (decide (k = k')); [contradiction|]. apply IH, Hpre.
Qed.

Lemma dict_get_elem {V} (k : list string) (d : list (list string * V)) y :
  dict_get k d = Some y -> (k, y) ∈ d.
Proof.
  intros H. destruct (dict_get_Some _ _ _ H) as [pre [post [-> _]]].
  apply elem_of_app. right. constructor.
Qed.

Lemma dict_setdefault_update_spec {V} (k : list string) (dflt : V)
    (f : V -> V) (d : list (list string * V)) :
  match dict_get k d with
  | Some y =>
      exists pre post,
        d = pre ++ (k, y) :: post /\ (k ∉ map fst pre) /\
        dict_setdefault_update k dflt f d = pre ++ (k, f y) :: post
  | None => dict_setdefault_update k dflt f d = d ++ [(k, f dflt)]
  end.
Proof.
  induction d as [|[k' v] d IH]; cbn [dict_get dict_setdefault_update];
    [reflexivity|].
  destruct (decide (k = k')) as [->|Hne].
  - exists [], d. repeat split. apply not_elem_of_nil.
  - destruct (dict_get k d) as [y|].
    + destruct IH as [pre [post [-> [Hpre ->]]]].
      exists ((k', v) :: pre), post. repeat split.
      cbn [map fst]. rewrite not_elem_of_cons. split; assumption.
    + rewrite IH. reflexivity.
Qed.

(** ** The invariant of built trees *)

Lemma good_inv (ops : list insertion) (x : node) :
  good ops x ->
  (freq x == prefix_weight ops (id x))%Q /\
  (freq x == sum_freq (children x) + term_weight ops (id x))%Q /\
  NoDup (map fst (children x)) /\
  (forall k, k ∈ map fst (children x) <->
             (exists s, k = id x ++ [s]) /\ inserted ops k) /\
  Forall (fun kc => fst kc = id (snd kc) /\ good ops (snd kc)) (children x).
Proof.
  intros H. destruct H as [x H1 H2 H3 H4 H5].
  exact (conj H1 (conj H2 (conj H3 (conj H4 H5)))).
Qed.

Lemma good_append_label (ops : list insertion) (l : string) (x : node) :
  good ops x -> good ops (append_label l x).
Proof.
  intros H. apply good_inv in H as (Hf & Ha & Hnd & Hk & Hc).
  constructor; assumption.
Qed.

(** A call that does not go through a node leaves the node and what is
    below it as they are, and they stay good. *)
Lemma good_frame (ops : list insertion) (v : list string) (w : Q)
    (l : string) (x : node) :
  good ops x -> ~ id x `prefix_of` v -> good (ops ++ [Insertion v w l]) x.
Proof.
  induction x as [i lb f p cs IH] using node_ind. intros Hg Hn.
  apply good_inv in Hg as (Hf & Ha & Hnd & Hk & Hc).
  cbn [id freq children] in *.
  constructor; cbn [id freq children].
  - rewrite prefix_weight_snoc. cbn [ins_vector ins_weight].
    destruct (decide (i `prefix_of` v)); [contradiction|]. rewrite Hf. ring.
  - rewrite term_weight_snoc. cbn [ins_vector ins_weight].
    destruct (decide (v = i)) as [->|_]; [exfalso; apply Hn; reflexivity|].
    rewrite Ha. ring.
  - exact Hnd.
  - intros k. rewrite Hk, inserted_snoc. cbn [ins_vector].
    split; [tauto|]. intros [[s ->] [Hi|Hp]].
    + split; [exists s; reflexivity|exact Hi].
    + exfalso. apply Hn. eapply prefix_snoc_inv, Hp.
  - rewrite Forall_forall in *. intros kc Hin.
    destruct (Hc kc Hin) as [Hid Hgc]. split; [exact Hid|].
    apply IH; [exact Hin|exact Hgc|].
    intros Hp. apply Hn.
    assert (Hkey : fst kc ∈ map fst cs) by (apply list_elem_of_fmap_2; exact Hin).
    apply Hk in Hkey as [[s Hs] _]. rewrite <- Hid, Hs in Hp.
    eapply prefix_snoc_inv, Hp.
Qed.

Lemma descend_S (v : list string) (w : Q) (l : string) (i r : nat) (x : node) :
  descend v w l i (S r) x
  = set_children
      (dict_setdefault_update (take (S i) v)
         (PrefixTree.new_node (take (S i) v))
         (fun y =>
            match r with
            | O => append_label l (descend v w l (S i) r y)
            | S _ => descend v w l (S i) r y
            end)
         (children x))
      (set_freq (freq x + w) x).
Proof. reflexivity. Qed.

Lemma descend_O (v : list string) (w : Q) (l : string) (i : nat) (x : node) :
  descend v w l i 0 x = set_freq (freq x + w) x.
Proof. reflexivity. Qed.

Lemma good_new_node (ops : list insertion) (k : list string) :
  ~ inserted ops k -> good ops (PrefixTree.new_node k).
Proof.
  intros H. constructor; cbn [id freq children PrefixTree.new_node].
  - rewrite (prefix_weight_not_inserted _ _ H). reflexivity.
  - rewrite (term_weight_not_inserted _ _ H). reflexivity.
  - constructor.
  - intros k'. split.
    + intros Hin. apply elem_of_nil in Hin. contradiction.
    + intros [[s ->] Hi]. exfalso. apply H. eapply inserted_snoc_inv, Hi.
  - constructor.
Qed.

Lemma descend_good (ops : list insertion) (v : list string) (w : Q)
    (l : string) :
  forall rest i x,
    i + rest = length v -> id x = take i v -> good ops x ->
    good (ops ++ [Insertion v w l]) (descend v w l i rest x).
Proof.
  induction rest as [|r IH]; intros i x Hlen Hid Hg.
  - (* the node the sequence ends at *)
    rewrite descend_O.
    assert (Hv : id x = v) by (rewrite Hid; apply firstn_all2; lia).
    apply good_inv in Hg as (Hf & Ha & Hnd & Hk & Hc).
    constructor; cbn [id freq children set_freq].
    + rewrite prefix_weight_snoc. cbn [ins_vector ins_weight].
      destruct (decide (id x `prefix_of` v)) as [_|Hn];
        [|exfalso; apply Hn; rewrite Hv; reflexivity].
      rewrite Hf. ring.
    + rewrite term_weight_snoc. cbn [ins_vector ins_weight].
      destruct (decide (v = id x)) as [_|Hn]; [|congruence].
      rewrite Ha. ring.
    + exact Hnd.
    + intros k. rewrite Hk, inserted_snoc. cbn [ins_vector].
      split; [tauto|]. intros [[s ->] [Hi|Hp]].
      * split; [exists s; reflexivity|exact Hi].
      * exfalso. rewrite Hv in Hp. apply prefix_length in Hp.
        rewrite length_app in Hp. cbn in Hp. lia.
    + rewrite Forall_forall in *. intros kc Hin.
      destruct (Hc kc Hin) as [Hidc Hgc]. split; [exact Hidc|].
      apply good_frame; [exact Hgc|].
      assert (Hkey : fst kc ∈ map fst (children x))
        by (apply list_elem_of_fmap_2; exact Hin).
      apply Hk in Hkey as [[s Hs] _]. rewrite <- Hidc, Hs, Hv.
      intros Hp. apply prefix_length in Hp.
      rewrite length_app in Hp. cbn in Hp. lia.
  - (* a node the sequence goes through *)
    rewrite descend_S.
    assert (Hi : i < length v) by lia.
    destruct (lookup_lt_is_Some_2 v i Hi) as [s0 Hs0].
    pose proof (take_S_r v i s0 Hs0) as Hk0.
    set (k0 := take (S i) v) in *.
    set (f := fun y : node =>
                match r with
                | O => append_label l (descend v w l (S i) r y)
                | S _ => descend v w l (S i) r y
                end).
    assert (Hfid : forall y, id (f y) = id y) by (intros y; unfold f; destruct r; reflexivity).
    assert (Hffreq : forall y, freq (f y) = (freq y + w)%Q)
      by (intros y; unfold f; destruct r; reflexivity).
    assert (Hfgood : forall y, id y = k0 -> good ops y ->
                               good (ops ++ [Insertion v w l]) (f y)).
    { intros y Hy Hgy. unfold f.
      destruct r; [apply good_append_label|]; apply IH; try assumption; lia. }
    assert (Hpre : id x `prefix_of` v) by (rewrite Hid; apply take_prefix).
    assert (Hne : v <> id x).
    { intros E. rewrite Hid in E. apply (f_equal length) in E.
      rewrite length_take in E. lia. }
    assert (Hk0pre : k0 `prefix_of` v) by apply take_prefix.
    assert (Hext : forall s, (id x ++ [s]) `prefix_of` v -> id x ++ [s] = k0).
    { intros s Hs. rewrite Hid in *. apply prefix_extension; [lia|exact Hs]. }
    apply good_inv in Hg as (Hf & Ha & Hnd & Hk & Hc).
    pose proof (dict_setdefault_update_spec k0 (PrefixTree.new_node k0) f
                  (children x)) as Hspec.
    assert (Hframe : forall kc, kc ∈ children x -> fst kc <> k0 ->
               fst kc = id (snd kc) /\ good ops (snd kc) ->
               fst kc = id (snd kc) /\
               good (ops ++ [Insertion v w l]) (snd kc)).
    { intros kc Hin Hnk [Hidc Hgc]. split; [exact Hidc|].
      apply good_frame; [exact Hgc|].
      assert (Hkey : fst kc ∈ map fst (children x))
        by (apply list_elem_of_fmap_2; exact Hin).
      apply Hk in Hkey as [[s Hs] _]. rewrite <- Hidc.
      intros Hp. apply Hnk. rewrite Hs in *. apply Hext, Hp. }
    assert (Hkeys : forall k,
               (exists s, k = id x ++ [s]) /\
               inserted (ops ++ [Insertion v w l]) k
               <-> k ∈ map fst (children x) \/ k = k0).
    { intros k. rewrite Hk, inserted_snoc. cbn [ins_vector]. split.
      - intros [[s ->] [Hin|Hp]]; [left; split; [exists s; reflexivity|exact Hin]|].
        right. apply Hext, Hp.
      - intros [[Hs Hin]| ->]; [split; [exact Hs|left; exact Hin]|].
        split; [exists s0; rewrite Hid; exact Hk0|right; exact Hk0pre]. }
    destruct (dict_get k0 (children x)) as [y|] eqn:Hget.
    + destruct Hspec as [pre [post [Hcs [Hnpre ->]]]].
      rewrite Hcs in *. clear Hcs.
      rewrite map_app in Hnd, Hk, Hkeys. cbn [map fst] in Hnd, Hk, Hkeys.
      apply Forall_app in Hc as [Hcpre Hc]. apply Forall_cons in Hc as [[Hy Hgy] Hcpost].
      cbn [fst snd] in Hy, Hgy.
      apply NoDup_app in Hnd as Hnd'. destruct Hnd' as (_ & _ & Hnd').
      apply NoDup_cons in Hnd' as [Hnpost _].
      constructor; cbn [id freq children set_freq set_children].
      * rewrite prefix_weight_snoc. cbn [ins_vector ins_weight].
        destruct (decide (id x `prefix_of` v)); [|contradiction].
        rewrite Hf. ring.
      * rewrite term_weight_snoc. cbn [ins_vector ins_weight].
        destruct (decide (v = id x)); [contradiction|].
        rewrite Ha, !sum_freq_app, !sum_freq_cons. cbn [snd].
        rewrite Hffreq. ring.
      * rewrite map_app. exact Hnd.
      * intros k. rewrite Hkeys, map_app. cbn [map fst].
        rewrite !elem_of_app, !elem_of_cons. tauto.
      * apply Forall_app. split; [|apply Forall_cons; split].
        -- rewrite Forall_forall in *. intros kc Hin.
           apply Hframe; [apply elem_of_app; left; exact Hin| |apply Hcpre, Hin].
           intros E. apply Hnpre. rewrite <- E.
           apply list_elem_of_fmap_2. exact Hin.
        -- cbn [fst snd]. rewrite Hfid. split; [exact Hy|].
           apply Hfgood; [symmetry; exact Hy|exact Hgy].
        -- rewrite Forall_forall in *. intros kc Hin.
           apply Hframe;
             [apply elem_of_app; right; constructor; exact Hin| |apply Hcpost, Hin].
           intros E. apply Hnpost. rewrite <- E.
           apply list_elem_of_fmap_2. exact Hin.
    + rewrite Hspec. apply dict_get_None in Hget.
      assert (Hnot : ~ inserted ops k0).
      { intros Hin. apply Hget, Hk. split; [|exact Hin].
        exists s0. rewrite Hid. exact Hk0. }
      constructor; cbn [id freq children set_freq set_children].
      * rewrite prefix_weight_snoc. cbn [ins_vector ins_weight].
        destruct (decide (id x `prefix_of` v)); [|contradiction].
        rewrite Hf. ring.
      * rewrite term_weight_snoc. cbn [ins_vector ins_weight].
        destruct (decide (v = id x)); [contradiction|].
        rewrite Ha, !sum_freq_app, !sum_freq_cons. cbn [snd].
        rewrite Hffreq. cbn [freq PrefixTree.new_node].
        change (sum_freq []) with 0%Q. ring.
      * rewrite map_app. cbn [map fst]. apply NoDup_app.
        split; [exact Hnd|]. split; [|apply NoDup_singleton].
        intros k Hin Hin'. apply list_elem_of_singleton in Hin' as ->.
        contradiction.
      * intros k. rewrite Hkeys, map_app. cbn [map fst].
        rewrite elem_of_app, list_elem_of_singleton. tauto.
      * apply Forall_app. split; [|apply Forall_singleton].
        -- rewrite Forall_forall in *. intros kc Hin.
           apply Hframe; [exact Hin| |apply Hc, Hin].
           intros E. apply Hget. rewrite <- E.
           apply list_elem_of_fmap_2. exact Hin.
        -- cbn [fst snd]. rewrite Hfid. split; [reflexivity|].
           apply Hfgood; [reflexivity|]. apply good_new_node, Hnot.
Qed.

Lemma insert_node_descend (root : node) (v : list string) (w : Q) (l : string) :
  fst (PrefixTree.insert_node root v w l) = descend v w l 0 (length v) root.
Proof. destruct v; reflexivity. Qed.

Lemma build_from_snoc (self : PrefixTree.t) (ops : list insertion)
    (c : insertion) :
  build_from self (ops ++ [c])
  = fst (PrefixTree.insert (build_from self ops)
           (ins_vector c) (ins_weight c) (ins_label c)).
Proof. unfold build_from. rewrite foldl_app. reflexivity. Qed.

Lemma build_snoc_tree (ops : list insertion) (c : insertion) :
  PrefixTree.tree (build (ops ++ [c]))
  = descend (ins_vector c) (ins_weight c) (ins_label c) 0
      (length (ins_vector c)) (PrefixTree.tree (build ops)).
Proof.
  unfold build. rewrite build_from_snoc, insert_tree.
  apply insert_node_descend.
Qed.

Lemma build_root_id (ops : list insertion) :
  id (PrefixTree.tree (build ops)) = [].
Proof.
  induction ops as [|c ops IH] using rev_ind; [reflexivity|].
  rewrite build_snoc_tree. exact IH.
Qed.

Lemma good_init : good [] (PrefixTree.tree PrefixTree.init).
Proof.
  constructor; cbn; try reflexivity; try constructor.
  - intros Hin. apply elem_of_nil in Hin. contradiction.
  - intros [_ [c [Hc _]]]. apply elem_of_nil in Hc. contradiction.
Qed.

(** Every tree built by [insert] calls from the empty tree is good for
    them. *)
Lemma build_good (ops : list insertion) : good ops (PrefixTree.tree (build ops)).
Proof.
  induction ops as [|c ops IH] using rev_ind; [exact good_init|].
  rewrite build_snoc_tree. destruct c as [v w l]. cbn [ins_vector ins_weight ins_label].
  apply descend_good; [lia| |exact IH].
  rewrite build_root_id. reflexivity.
Qed.

Lemma subnodes_self (x : node) : x ∈ subnodes x.
Proof. rewrite subnodes_unfold. constructor. Qed.

Lemma subnodes_child (x : node) (kc : list string * node) (y : node) :
  kc ∈ children x -> y ∈ subnodes (snd kc) -> y ∈ subnodes x.
Proof.
  intros Hin Hy. rewrite subnodes_unfold. constructor.
  apply list_elem_of_In, in_concat. exists (subnodes (snd kc)).
  split; [|apply list_elem_of_In; exact Hy].
  apply in_map_iff. exists kc. split; [reflexivity|apply list_elem_of_In; exact Hin].
Qed.

Lemma subnodes_inv (x y : node) :
  y ∈ subnodes x ->
  y = x \/ exists kc, kc ∈ children x /\ y ∈ subnodes (snd kc).
Proof.
  rewrite subnodes_unfold. intros H. apply elem_of_cons in H as [H|H];
    [left; exact H|right].
  apply list_elem_of_In, in_concat in H as [l [Hl Hy]].
  apply in_map_iff in Hl as [kc [<- Hkc]].
  exists kc. split; apply list_elem_of_In; assumption.
Qed.

Lemma good_subnodes (ops : list insertion) (x : node) :
  good ops x -> forall y, y ∈ subnodes x -> good ops y.
Proof.
  induction x as [i lb f p cs IH] using node_ind. intros Hg y Hy.
  apply subnodes_inv in Hy as [->|[kc [Hin Hy]]]; [exact Hg|].
  cbn [children] in Hin.
  apply good_inv in Hg as (_ & _ & _ & _ & Hc). cbn [children] in Hc.
  rewrite Forall_forall in IH, Hc.
  apply (IH kc Hin); [apply Hc, Hin|exact Hy].
Qed.

(** ** Calls with integer weights *)

Lemma of_ints_elem (iops : list int_insertion) (c : insertion) :
  c ∈ of_ints iops -> exists ic, ic ∈ iops /\ c = of_int ic.
Proof.
  unfold of_ints. intros H. apply list_elem_of_fmap in H as [ic [-> Hic]].
  exists ic. split; [exact Hic|reflexivity].
Qed.

Lemma of_ints_no_end (iops : list int_insertion) (v : list string) :
  (forall c, c ∈ iops -> int_vector c <> v) ->
  forall c, c ∈ of_ints iops -> ins_vector c <> v.
Proof.
  intros H c Hc. apply of_ints_elem in Hc as [ic [Hic ->]].
  cbn [of_int ins_vector]. apply H, Hic.
Qed.

Lemma of_ints_positive (iops : list int_insertion) :
  Forall (fun c => (0 < int_weight c)%Z) iops ->
  Forall (fun c => (0 < ins_weight c)%Q) (of_ints iops).
Proof.
  unfold of_ints. intros H. apply Forall_fmap.
  eapply Forall_impl; [exact H|]. intros c Hc. cbn [of_int ins_weight].
  cbn beta in Hc. rewrite Zlt_Qlt in Hc. exact Hc.
Qed.

Lemma of_ints_nonneg (iops : list int_insertion) :
  Forall (fun c => (0 <= int_weight c)%Z) iops ->
  Forall (fun c => (0 <= ins_weight c)%Q) (of_ints iops).
Proof.
  unfold of_ints. intros H. apply Forall_fmap.
  eapply Forall_impl; [exact H|]. intros c Hc. cbn [of_int ins_weight].
  cbn beta in Hc. rewrite Zle_Qle in Hc. exact Hc.
Qed.

(** ** Aggregation (C2) *)

(** C2 as stated fails at an inner node where a sequence ends: after
    [ops_a_ab], sequences that are not empty with weights that are not
    negative, the node of [('a',)] has one child of frequency 1 and has
    frequency 2. *)
Lemma aggregation_counterexample :
  Forall (fun c => ins_vector c <> [] /\ (0 <= ins_weight c)%Q) ops_a_ab /\
  node_a_of_a_ab ∈ subnodes (PrefixTree.tree (build ops_a_ab)) /\
  children node_a_of_a_ab <> [] /\
  ~ (freq node_a_of_a_ab == sum_freq (children node_a_of_a_ab))%Q.
Proof.
  split; [|split; [|split]].
  - repeat constructor; discriminate.
  - apply list_elem_of_In. vm_compute. right. left. reflexivity.
  - discriminate.
  - vm_compute. discriminate.
Qed.

(** In the model the frequency of a node is the sum over its children
    plus the weight of the calls that end at it. *)
Lemma aggregation_good (ops : list insertion) (x : node) :
  x ∈ subnodes (PrefixTree.tree (build ops)) ->
  (freq x == sum_freq (children x) + term_weight ops (id x))%Q.
Proof.
  intros Hx.
  pose proof (good_subnodes ops _ (build_good ops) x Hx) as Hg.
  apply good_inv in Hg as (_ & Ha & _). exact Ha.
Qed.

(** With sequences that are not empty, no call ends at the root: the
    root's frequency is the sum over its children. *)
Lemma aggregation_root (ops : list insertion) :
  Forall (fun c => ins_vector c <> []) ops ->
  (freq (PrefixTree.tree (build ops))
   == sum_freq (children (PrefixTree.tree (build ops))))%Q.
Proof.
  intros H.
  pose proof (good_subnodes ops _ (build_good ops) _ (subnodes_self _)) as Hg.
  apply good_inv in Hg as (_ & Ha & _).
  rewrite Ha, build_root_id, term_weight_none; [ring|].
  rewrite Forall_forall in H. exact H.
Qed.

(** ** The frequency of a prefix *)

(** The frequency of a node is the total weight of the calls whose
    sequence starts with the node's id. *)
Lemma frequency_is_prefix_weight (ops : list insertion) (x : node) :
  x ∈ subnodes (PrefixTree.tree (build ops)) ->
  (freq x == prefix_weight ops (id x))%Q.
Proof.
  intros Hx.
  pose proof (good_subnodes ops _ (build_good ops) x Hx) as Hg.
  apply good_inv in Hg as (Hf & _). exact Hf.
Qed.

Lemma prefix_weight_nil (ops : list insertion) :
  (prefix_weight ops [] == foldr (fun c a => ins_weight c + a) 0 ops)%Q.
Proof.
  induction ops as [|c ops IH]; [reflexivity|].
  cbn [prefix_weight foldr]. fold (prefix_weight ops []).
  destruct (decide _) as [_|H]; [rewrite IH; reflexivity|].
  exfalso. apply H. apply prefix_nil.
Qed.

(** X21: the frequency of the root is the sum of the weights of all the
    calls. *)
Lemma root_mass (ops : list insertion) :
  (freq (PrefixTree.tree (build ops))
   == foldr (fun c a => ins_weight c + a) 0 ops)%Q.
Proof.
  rewrite (frequency_is_prefix_weight ops _ (subnodes_self _)).
  rewrite build_root_id. apply prefix_weight_nil.
Qed.

(** ** Lookup in a built tree *)

Lemma get_node_loop_S (v : list string) (i rest : nat) (x : node) :
  PrefixTree.get_node_loop v i (S rest) x
  = match dict_get (take (S i) v) (children x) with
    | None => Raise KeyError
    | Some c => PrefixTree.get_node_loop v (S i) rest c
    end.
Proof. reflexivity. Qed.

(** The loop of [get_node] reads the sequence through the keys
    [vector[:i+1]] only. *)
Lemma get_node_loop_ext (v v' : list string) :
  forall rest i x,
    (forall m, i <= m < i + rest -> take (S m) v = take (S m) v') ->
    PrefixTree.get_node_loop v i rest x = PrefixTree.get_node_loop v' i rest x.
Proof.
  induction rest as [|r IH]; intros i x H; [reflexivity|].
  rewrite !get_node_loop_S, <- (H i) by lia.
  destruct (dict_get _ _) as [c|]; [|reflexivity].
  apply IH. intros m Hm. apply H. lia.
Qed.

Lemma get_node_take (self : PrefixTree.t) (v : list string) (n : nat) :
  n <= length v ->
  PrefixTree.get_node self (take n v)
  = PrefixTree.get_node_loop v 0 n (PrefixTree.tree self).
Proof.
  intros Hn. unfold PrefixTree.get_node.
  rewrite length_take, Nat.min_l by exact Hn.
  apply get_node_loop_ext. intros m Hm.
  rewrite take_take. f_equal. lia.
Qed.

(** In a good tree the loop of [get_node] either raises [KeyError], and
    then some prefix it had still to read was never inserted, or returns
    the node of the whole sequence, and then all were. *)
Lemma get_node_loop_good (ops : list insertion) (v : list string) :
  forall rest i x,
    i + rest = length v -> id x = take i v -> good ops x ->
    (PrefixTree.get_node_loop v i rest x = Raise KeyError /\
     exists k, i < k <= length v /\ ~ inserted ops (take k v))
    \/
    (exists y,
        PrefixTree.get_node_loop v i rest x = Ok y /\ id y = v /\
        good ops y /\
        forall k, i < k <= length v -> inserted ops (take k v)).
Proof.
  induction rest as [|r IH]; intros i x Hlen Hid Hg.
  - right. exists x. split; [reflexivity|].
    split; [rewrite Hid; apply firstn_all2; lia|].
    split; [exact Hg|]. intros k Hk. lia.
  - rewrite get_node_loop_S.
    assert (Hi : i < length v) by lia.
    destruct (lookup_lt_is_Some_2 v i Hi) as [s0 Hs0].
    pose proof (take_S_r v i s0 Hs0) as Hk0.
    pose proof (good_inv _ _ Hg) as (_ & _ & _ & Hk & Hc).
    destruct (dict_get (take (S i) v) (children x)) as [c|] eqn:Hget.
    + pose proof (dict_get_elem _ _ _ Hget) as Hin.
      rewrite Forall_forall in Hc. destruct (Hc _ Hin) as [Hidc Hgc].
      cbn [fst snd] in Hidc.
      assert (Hins : inserted ops (take (S i) v)).
      { apply (Hk (take (S i) v)). apply (list_elem_of_fmap_2 fst) in Hin. exact Hin. }
      destruct (IH (S i) c ltac:(lia) (eq_sym Hidc) Hgc)
        as [[Hr [k [Hk1 Hk2]]]|[y (Hy & Hidy & Hgy & Hall)]].
      * left. split; [exact Hr|]. exists k. split; [lia|exact Hk2].
      * right. exists y. split; [exact Hy|]. split; [exact Hidy|].
        split; [exact Hgy|]. intros k Hkr. destruct (decide (k = S i)) as [->|Hne];
          [exact Hins|apply Hall; lia].
    + left. split; [reflexivity|]. exists (S i). split; [lia|].
      intros Hins. apply dict_get_None in Hget. apply Hget, Hk.
      split; [|exact Hins]. exists s0. rewrite Hid. exact Hk0.
Qed.

(** [get_prefixes] raises where [get_node] raises; where it returns, the
    pair it appended at iteration [i + j] is the symbol at that index with
    the node the loop of [get_node] stands at after that iteration. *)
Lemma get_prefixes_loop_get_node (v : list string) :
  forall rest i x acc,
    i + rest <= length v ->
    (PrefixTree.get_node_loop v i rest x = Raise KeyError /\
     PrefixTree.get_prefixes_loop v i rest x acc = Raise KeyError)
    \/
    (exists ps,
        PrefixTree.get_prefixes_loop v i rest x acc = Ok (acc ++ ps) /\
        length ps = rest /\
        is_ok (PrefixTree.get_node_loop v i rest x) = true /\
        forall j s y,
          ps !! j = Some (s, y) ->
          v !! (i + j) = Some s /\
          PrefixTree.get_node_loop v i (S j) x = Ok y).
Proof.
  induction rest as [|r IH]; intros i x acc Hlen.
  - right. exists []. cbn. rewrite app_nil_r.
    split; [reflexivity|]. split; [reflexivity|]. split; [reflexivity|].
    intros j s y H. discriminate.
  - cbn [PrefixTree.get_prefixes_loop]. rewrite get_node_loop_S.
    destruct (dict_get (take (S i) v) (children x)) as [c|] eqn:Hget;
      [|left; split; reflexivity].
    assert (Hi : i < length v) by lia.
    destruct (lookup_lt_is_Some_2 v i Hi) as [s0 Hs0]. rewrite Hs0.
    destruct (IH (S i) c (acc ++ [(s0, c)]) ltac:(lia))
      as [[H1 H2]|[ps (Hps & Hl & Hok & Hspec)]].
    + left. split; assumption.
    + right. exists ((s0, c) :: ps). rewrite Hps, <- app_assoc.
      split; [reflexivity|]. split; [cbn; lia|]. split; [exact Hok|].
      intros [|j] s y Hj.
      * cbn in Hj. injection Hj as <- <-. rewrite Nat.add_0_r.
        split; [exact Hs0|]. rewrite get_node_loop_S, Hget. reflexivity.
      * cbn in Hj. destruct (Hspec j s y Hj) as [Hv Hn].
        replace (i + S j) with (S i + j) by lia. split; [exact Hv|].
        rewrite get_node_loop_S, Hget. exact Hn.
Qed.

(** The two outcomes of a lookup in a built tree. *)
Lemma get_node_build (ops : list insertion) (v : list string) :
  (PrefixTree.get_node (build ops) v = Raise KeyError /\
   exists k, 1 <= k <= length v /\ ~ inserted ops (take k v))
  \/
  (exists y,
      PrefixTree.get_node (build ops) v = Ok y /\ id y = v /\
      forall k, 1 <= k <= length v -> inserted ops (take k v)).
Proof.
  destruct (get_node_loop_good ops v (length v) 0
              (PrefixTree.tree (build ops)) eq_refl
              (build_root_id ops) (build_good ops))
    as [[Hr [k [Hk1 Hk2]]]|[y (Hy & Hidy & _ & Hall)]].
  - left. split; [exact Hr|]. exists k. split; [lia|exact Hk2].
  - right. exists y. split; [exact Hy|]. split; [exact Hidy|].
    intros k Hk. apply Hall. lia.
Qed.

Lemma get_prefixes_build (ops : list insertion) (v : list string) :
  (PrefixTree.get_node (build ops) v = Raise KeyError /\
   PrefixTree.get_prefixes (build ops) v = Raise KeyError)
  \/
  (exists ps,
      PrefixTree.get_prefixes (build ops) v = Ok ps /\
      length ps = length v /\
      is_ok (PrefixTree.get_node (build ops) v) = true /\
      forall j s y,
        ps !! j = Some (s, y) ->
        v !! j = Some s /\
        PrefixTree.get_node (build ops) (take (S j) v) = Ok y /\
        id y = take (S j) v).
Proof.
  destruct (get_prefixes_loop_get_node v (length v) 0
              (PrefixTree.tree (build ops)) [] (Nat.le_refl _))
    as [[H1 H2]|[ps (Hps & Hl & Hok & Hspec)]].
  - left. split; assumption.
  - right. exists ps. split; [exact Hps|]. split; [exact Hl|].
    split; [exact Hok|]. intros j s y H. split; [|split].
    + apply (Hspec j s y H).
    + rewrite get_node_take; [apply (Hspec j s y H)|].
      apply lookup_lt_Some in H. lia.
    + assert (Hj : S j <= length v) by (apply lookup_lt_Some in H; lia).
      destruct (Hspec j s y H) as [_ Hn].
      rewrite <- (get_node_take (build ops)) in Hn by exact Hj.
      destruct (get_node_build ops (take (S j) v))
        as [[Hr _]|[y' (Hy' & Hid' & _)]]; congruence.
Qed.

(** ** Normalization of the probabilities (C3) *)

Lemma with_probs_unfold (x : node) :
  with_probs x = set_children (probs_of (freq x) (children x)) x.
Proof. destruct x; reflexivity. Qed.

Lemma calc_loop_ok (fx : Q) (cs : list (list string * node)) :
  (cs <> [] -> ~ (fx == 0)%Q) ->
  Forall (fun kc =>
            PrefixTree.calculate_probs_node (snd kc)
            = (with_probs (snd kc), Ok tt)) cs ->
  calc_loop fx cs = (probs_of fx cs, Ok tt).
Proof.
  intros Hfx H. induction H as [|[k c] cs Hc _ IH]; [reflexivity|].
  assert (Hz : Qeq_bool fx 0 = false).
  { destruct (Qeq_bool fx 0) eqn:E; [|reflexivity].
    apply Qeq_bool_iff in E. exfalso. apply Hfx; [discriminate|exact E]. }
  cbn [calc_loop snd] in *. fold (calc_loop fx). rewrite Hz, Hc.
  rewrite IH; [reflexivity|]. intros _. apply Hfx. discriminate.
Qed.

(** When no node with children has frequency zero, [calculate_probs]
    raises nothing and writes [with_probs]. *)
Lemma calculate_probs_node_ok (x : node) :
  (forall y, y ∈ subnodes x -> children y <> [] -> ~ (freq y == 0)%Q) ->
  PrefixTree.calculate_probs_node x = (with_probs x, Ok tt).
Proof.
  induction x as [i l f p cs IH] using node_ind. intros H.
  rewrite calculate_probs_node_unfold, with_probs_unfold.
  cbn [freq children].
  rewrite calc_loop_ok; [reflexivity| |].
  - intros Hcs. apply (H (Node i l f p cs)); [apply subnodes_self|exact Hcs].
  - rewrite Forall_forall in *. intros kc Hin. apply IH; [exact Hin|].
    intros y Hy. apply H. eapply subnodes_child; [exact Hin|exact Hy].
Qed.

Lemma subnodes_set_prob (p : Q) (x : node) (y : node) :
  y ∈ subnodes (set_prob p x) -> y = set_prob p x \/ y ∈ subnodes x.
Proof.
  rewrite (subnodes_unfold (set_prob p x)), (subnodes_unfold x).
  cbn [children set_prob]. rewrite !elem_of_cons. tauto.
Qed.

(** A node of [with_probs x] is a node of [x] with the probabilities of
    its children written, and maybe its own. *)
Lemma subnodes_with_probs (x : node) :
  forall y', y' ∈ subnodes (with_probs x) ->
  exists y, y ∈ subnodes x /\ id y' = id y /\ freq y' = freq y /\
            children y' = probs_of (freq y) (children y).
Proof.
  induction x as [i l f p cs IH] using node_ind. intros y' Hy'.
  apply subnodes_inv in Hy' as [->|[kc' [Hin Hy']]].
  - exists (Node i l f p cs). split; [apply subnodes_self|].
    rewrite with_probs_unfold. repeat split.
  - rewrite with_probs_unfold in Hin. cbn [children set_children] in Hin.
    unfold probs_of in Hin. apply list_elem_of_fmap in Hin as [kc [-> Hkc]].
    cbn [snd] in Hy'. rewrite Forall_forall in IH.
    apply subnodes_set_prob in Hy' as [->|Hy'].
    + exists (snd kc). split; [eapply subnodes_child; [exact Hkc|apply subnodes_self]|].
      rewrite with_probs_unfold. repeat split.
    + destruct (IH kc Hkc y' Hy') as [y [Hy Hrest]].
      exists y. split; [eapply subnodes_child; [exact Hkc|exact Hy]|exact Hrest].
Qed.

Lemma sum_prob_probs_of (fx : Q) (cs : list (list string * node)) :
  exists q, sum_prob (probs_of fx cs) = Some q /\ (q == sum_freq cs / fx)%Q.
Proof.
  induction cs as [|kc cs [q [Hq Hs]]].
  - exists 0%Q. split; [reflexivity|]. change (sum_freq []) with 0%Q.
    unfold Qdiv. ring.
  - exists (freq (snd kc) / fx + q)%Q. split.
    + cbn [probs_of map sum_prob foldr snd prob set_prob].
      fold (probs_of fx cs). fold (sum_prob (probs_of fx cs)). rewrite Hq.
      reflexivity.
    + rewrite sum_freq_cons, Hs. unfold Qdiv. ring.
Qed.

Lemma prefix_weight_nonneg (ops : list insertion) (u : list string) :
  Forall (fun c => (0 < ins_weight c)%Q) ops -> (0 <= prefix_weight ops u)%Q.
Proof.
  induction 1 as [|c ops Hc _ IH]; [apply Qle_refl|].
  cbn [prefix_weight foldr]. fold (prefix_weight ops u).
  destruct (decide _); [|exact IH].
  apply Qlt_le_weak in Hc.
  replace 0%Q with (0 + 0)%Q by reflexivity. apply Qplus_le_compat; assumption.
Qed.

Lemma prefix_weight_pos (ops : list insertion) (u : list string) :
  Forall (fun c => (0 < ins_weight c)%Q) ops ->
  inserted ops u -> (0 < prefix_weight ops u)%Q.
Proof.
  intros H [c [Hc Hp]]. induction H as [|o ops Ho Hops IH];
    [apply elem_of_nil in Hc; contradiction|].
  cbn [prefix_weight foldr]. fold (prefix_weight ops u).
  pose proof (prefix_weight_nonneg ops u Hops) as Hnn.
  apply elem_of_cons in Hc as [<-|Hc].
  - destruct (decide _); [|contradiction].
    replace 0%Q with (0 + 0)%Q by reflexivity.
    apply Qplus_lt_le_compat; assumption.
  - specialize (IH Hc). destruct (decide _); [|exact IH].
    replace 0%Q with (0 + 0)%Q by reflexivity.
    apply Qplus_lt_le_compat; [exact Ho|exact Hnn].
Qed.

(** With positive weights a node with a child has a positive
    frequency. *)
Lemma good_parent_pos (ops : list insertion) (x : node) :
  Forall (fun c => (0 < ins_weight c)%Q) ops ->
  good ops x -> children x <> [] -> (0 < freq x)%Q.
Proof.
  intros Hpos Hg Hcs. apply good_inv in Hg as (Hf & _ & _ & Hk & _).
  rewrite Hf. apply prefix_weight_pos; [exact Hpos|].
  destruct (children x) as [|[k c] cs]; [congruence|].
  destruct (proj1 (Hk k)) as [[s ->] Hi]; [cbn; left|].
  eapply inserted_snoc_inv, Hi.
Qed.

(** C3 as stated fails at an inner node where a sequence ends: after
    [ops_a_ab], whose weights are positive, and [calculate_probs], the one
    child of the node of [('a',)] has probability 1/2. *)
Lemma normalization_counterexample :
  Forall (fun c => (0 < ins_weight c)%Q) ops_a_ab /\
  snd (PrefixTree.calculate_probs (build ops_a_ab)) = Ok tt /\
  node_a_of_a_ab_probs
    ∈ subnodes (PrefixTree.tree (fst (PrefixTree.calculate_probs (build ops_a_ab)))) /\
  children node_a_of_a_ab_probs <> [] /\
  sum_prob (children node_a_of_a_ab_probs) = Some ((1 # 2) + 0)%Q /\
  ~ ((1 # 2) + 0 == 1)%Q.
Proof.
  split; [repeat constructor|]. split; [reflexivity|].
  split; [apply list_elem_of_In; vm_compute; right; left; reflexivity|].
  split; [discriminate|]. split; [reflexivity|]. vm_compute. discriminate.
Qed.

(** A longer prefix has a smaller weight. *)
Lemma prefix_weight_mono (ops : list insertion) (p q : list string) :
  Forall (fun c => (0 <= ins_weight c)%Q) ops ->
  p `prefix_of` q -> (prefix_weight ops q <= prefix_weight ops p)%Q.
Proof.
  intros H Hpq. induction H as [|c ops Hc _ IH]; [apply Qle_refl|].
  cbn [prefix_weight foldr].
  fold (prefix_weight ops q). fold (prefix_weight ops p).
  destruct (decide (q `prefix_of` ins_vector c)) as [Hq|Hq].
  - destruct (decide (p `prefix_of` ins_vector c)) as [_|Hp].
    + apply Qplus_le_compat; [apply Qle_refl|exact IH].
    + exfalso. apply Hp. etransitivity; eassumption.
  - destruct (decide (p `prefix_of` ins_vector c)); [|exact IH].
    rewrite <- (Qplus_0_l (prefix_weight ops q)).
    apply Qplus_le_compat; assumption.
Qed.

(** In the model, with positive weights, [calculate_probs] raises nothing
    and the probabilities of the children sum to 1 where no call's sequence
    ends. *)
Lemma normalization_exact (ops : list insertion) :
  Forall (fun c => (0 < ins_weight c)%Q) ops ->
  snd (PrefixTree.calculate_probs (build ops)) = Ok tt /\
  forall x,
    x ∈ subnodes (PrefixTree.tree (fst (PrefixTree.calculate_probs (build ops)))) ->
    children x <> [] ->
    (forall c, c ∈ ops -> ins_vector c <> id x) ->
    exists q, sum_prob (children x) = Some q /\ (q == 1)%Q.
Proof.
  intros Hpos.
  assert (Hcalc : PrefixTree.calculate_probs_node (PrefixTree.tree (build ops))
                  = (with_probs (PrefixTree.tree (build ops)), Ok tt)).
  { apply calculate_probs_node_ok. intros y Hy Hcs Hz.
    pose proof (good_parent_pos ops y Hpos
                  (good_subnodes ops _ (build_good ops) y Hy) Hcs) as H.
    rewrite Hz in H. apply (Qlt_irrefl _ H). }
  unfold PrefixTree.calculate_probs. rewrite Hcalc.
  cbn [fst snd PrefixTree.tree]. split; [reflexivity|].
  intros x Hx Hcs Hno.
  destruct (subnodes_with_probs _ x Hx) as [y (Hy & Hid & Hfr & Hch)].
  pose proof (good_subnodes ops _ (build_good ops) y Hy) as Hg.
  assert (Hycs : children y <> []).
  { intros E. rewrite Hch, E in Hcs. apply Hcs. reflexivity. }
  pose proof (good_parent_pos ops y Hpos Hg Hycs) as Hfpos.
  apply good_inv in Hg as (_ & Ha & _).
  rewrite term_weight_none in Ha by (rewrite <- Hid; exact Hno).
  destruct (sum_prob_probs_of (freq y) (children y)) as [q [Hq Hs]].
  exists q. rewrite Hch. split; [exact Hq|].
  assert (Hne : ~ (freq y == 0)%Q).
  { intros E. rewrite E in Hfpos. apply (Qlt_irrefl _ Hfpos). }
  assert (Hsum : (sum_freq (children y) == freq y)%Q) by (rewrite Ha; ring).
  rewrite Hs, Hsum. field. exact Hne.
Qed.

(** The weight of all the calls is the sum of their int weights. *)
Lemma prefix_weight_int_total (iops : list int_insertion) :
  (prefix_weight (of_ints iops) [] == inject_Z (int_total iops))%Q.
Proof.
  induction iops as [|c iops IH]; [reflexivity|].
  cbn [of_ints map prefix_weight foldr int_total].
  fold (of_ints iops). fold (prefix_weight (of_ints iops) []).
  fold (int_total iops).
  destruct (decide _) as [_|H]; [|exfalso; apply H, prefix_nil].
  cbn [of_int ins_weight]. rewrite IH, inject_Z_plus. reflexivity.
Qed.

(** With weights that are not negative no frequency is above the sum of
    the weights. *)
Lemma frequency_at_most_total (iops : list int_insertion) (x : node) :
  Forall (fun c => (0 <= int_weight c)%Z) iops ->
  x ∈ subnodes (PrefixTree.tree (build (of_ints iops))) ->
  (freq x <= inject_Z (int_total iops))%Q.
Proof.
  intros Hnn Hx.
  pose proof (good_subnodes _ _ (build_good (of_ints iops)) x Hx) as Hg.
  apply good_inv in Hg as (Hf & _). rewrite Hf, <- prefix_weight_int_total.
  apply prefix_weight_mono; [apply of_ints_nonneg, Hnn|apply prefix_nil].
Qed.

(** C3, amended: in a tree built from the empty tree by [insert] calls
    whose weights are positive ints with a sum of at most [float_max], no
    frequency is above [float_max], [calculate_probs] raises nothing, and
    after it the probabilities of the children of a node, taken as the
    exact quotients of the frequencies, sum to 1 at every node that has a
    child and at which no call's sequence ends. *)
Theorem normalization_where_no_sequence_ends (iops : list int_insertion) :
  Forall (fun c => (0 < int_weight c)%Z) iops ->
  (int_total iops <= float_max)%Z ->
  (forall x,
      x ∈ subnodes (PrefixTree.tree (build (of_ints iops))) ->
      (freq x <= inject_Z float_max)%Q) /\
  snd (PrefixTree.calculate_probs (build (of_ints iops))) = Ok tt /\
  forall x,
    x ∈ subnodes
          (PrefixTree.tree
             (fst (PrefixTree.calculate_probs (build (of_ints iops))))) ->
    children x <> [] ->
    (forall c, c ∈ iops -> int_vector c <> id x) ->
    exists q, sum_prob (children x) = Some q /\ (q == 1)%Q.
Proof.
  intros Hpos Hmax.
  destruct (normalization_exact (of_ints iops) (of_ints_positive iops Hpos))
    as [Hok Hsum].
  split; [|split; [exact Hok|]].
  - intros x Hx. eapply Qle_trans.
    + apply frequency_at_most_total; [|exact Hx].
      eapply Forall_impl; [exact Hpos|]. intros c Hc. cbn beta in Hc. lia.
    + rewrite <- Zle_Qle. exact Hmax.
  - intros x Hx Hcs Hno. apply (Hsum x Hx Hcs).
    apply of_ints_no_end, Hno.
Qed.

(** The instance of C3 at the root of the tree of [iops_a_ab]. *)
Lemma normalization_where_no_sequence_ends_witness :
  Forall (fun c => (0 < int_weight c)%Z) iops_a_ab /\
  (int_total iops_a_ab <= float_max)%Z /\
  snd (PrefixTree.calculate_probs (build (of_ints iops_a_ab))) = Ok tt /\
  exists q,
    sum_prob
      (children
         (PrefixTree.tree
            (fst (PrefixTree.calculate_probs (build (of_ints iops_a_ab))))))
    = Some q /\ (q == 1)%Q.
Proof.
  assert (Hpos : Forall (fun c => (0 < int_weight c)%Z) iops_a_ab)
    by (repeat constructor).
  assert (Hmax : (int_total iops_a_ab <= float_max)%Z)
    by (vm_compute; discriminate).
  split; [exact Hpos|]. split; [exact Hmax|].
  destruct (normalization_where_no_sequence_ends iops_a_ab Hpos Hmax)
    as (_ & H1 & H2).
  split; [exact H1|]. apply H2.
  - apply subnodes_self.
  - vm_compute. discriminate.
  - intros c Hc. apply list_elem_of_In in Hc. vm_compute in Hc.
    destruct Hc as [<-|[<-|[]]]; vm_compute; discriminate.
Defined.


(** ** The uniqueness point (C1) *)

(** C1 on a word of more than ten positions: in [lexicon] the sequence
    of [understanding] is the only one left from position 9 on, the symbol
    [IH]; [get_uniqueness_point] scans the keys in the order of [str], in
    which ["10_NG"] comes second, and returns it with the index 1. *)
Theorem get_uniqueness_point_string_order :
  SegmentSurprisalTree.get_uniqueness_point lexicon "understanding"
  = Ok (1, "10_NG"%string) /\
  uniqueness_point_by_position lexicon "understanding"
  = Ok (9, "9_IH"%string) /\
  (exists d,
      SegmentSurprisalTree.get_word_continuations lexicon "understanding"
      = Ok d /\
      SegmentSurprisalTree.sort (map fst (map_to_list d))
      = ["0_AH"; "10_NG"; "11_#"; "1_N"; "2_D"; "3_ER"; "4_S"; "5_T";
         "6_AE"; "7_N"; "8_D"; "9_IH"]%string).
Proof.
  split; [vm_compute; reflexivity|]. split; [vm_compute; reflexivity|].
  eexists. split; vm_compute; reflexivity.
Qed.

(** ** The uniqueness point on sequences of at most ten positions *)

Lemma ascii_compare_trans (a b c : Ascii.ascii) :
  Ascii.compare a b <> Gt -> Ascii.compare b c <> Gt ->
  Ascii.compare a c <> Gt.
Proof.
  unfold Ascii.compare. rewrite !N.compare_gt_iff. lia.
Qed.

Lemma string_compare_trans (s1 : string) :
  forall s2 s3,
    String.compare s1 s2 <> Gt -> String.compare s2 s3 <> Gt ->
    String.compare s1 s3 <> Gt.
Proof.
  induction s1 as [|a s1 IH]; intros [|b s2] [|c s3]; cbn;
    try congruence.
  unfold Ascii.compare.
  destruct (N.compare_spec (Ascii.N_of_ascii a) (Ascii.N_of_ascii b)) as [E1|L1|G1];
    destruct (N.compare_spec (Ascii.N_of_ascii b) (Ascii.N_of_ascii c)) as [E2|L2|G2];
    try congruence; intros H1 H2.
  - rewrite E1, E2, N.compare_refl. apply (IH s2 s3); assumption.
  - rewrite E1. apply N.compare_lt_iff in L2. rewrite L2. discriminate.
  - rewrite <- E2. apply N.compare_lt_iff in L1. rewrite L1. discriminate.
  - assert (L : (Ascii.N_of_ascii a < Ascii.N_of_ascii c)%N) by lia.
    apply N.compare_lt_iff in L. rewrite L. discriminate.
Qed.

Lemma str_le_compare (s1 s2 : string) :
  SegmentSurprisalTree.str_le s1 s2 <-> String.compare s1 s2 <> Gt.
Proof.
  unfold SegmentSurprisalTree.str_le, String.leb.
  destruct (String.compare s1 s2); split; congruence.
Qed.

#[local] Instance str_le_trans : Transitive SegmentSurprisalTree.str_le.
Proof.
  intros s1 s2 s3. rewrite !str_le_compare. apply string_compare_trans.
Qed.

#[local] Instance str_le_total : Total SegmentSurprisalTree.str_le.
Proof. intros s1 s2. apply String.leb_total. Qed.

#[local] Instance str_le_antisym : AntiSymm (=) SegmentSurprisalTree.str_le.
Proof. intros s1 s2. apply String.leb_antisym. Qed.

(** A list of strings that is in order is what [sort] returns on any of
    its permutations. *)
Lemma sort_sorted (l k : list string) :
  StronglySorted SegmentSurprisalTree.str_le k -> l ≡ₚ k ->
  SegmentSurprisalTree.sort l = k.
Proof.
  intros Hk Hp. unfold SegmentSurprisalTree.sort.
  apply (StronglySorted_unique SegmentSurprisalTree.str_le).
  - apply StronglySorted_merge_sort; apply _.
  - exact Hk.
  - rewrite merge_sort_Permutation. exact Hp.
Qed.

(** With one digit, the keys of two positions compare as the positions. *)
Lemma key_lt (n m : nat) (x x' : string) :
  n < m -> m < 10 ->
  SegmentSurprisalTree.str_le (SegmentSurprisalTree.key n x)
                              (SegmentSurprisalTree.key m x') /\
  SegmentSurprisalTree.key n x <> SegmentSurprisalTree.key m x'.
Proof.
  intros Hnm Hm.
  destruct m as [|[|[|[|[|[|[|[|[|[|m]]]]]]]]]]; try lia;
    destruct n as [|[|[|[|[|[|[|[|[|n]]]]]]]]]; try lia;
    (split; [vm_compute; reflexivity|vm_compute; discriminate]).
Qed.

Lemma keys_from_elem (ps : list (string * node)) :
  forall n k,
    k ∈ keys_from n ps ->
    exists m x, k = SegmentSurprisalTree.key m x /\ n <= m < n + length ps.
Proof.
  induction ps as [|xy ps IH]; intros n k Hk; cbn [keys_from] in Hk.
  - apply elem_of_nil in Hk. contradiction.
  - apply elem_of_cons in Hk as [->|Hk].
    + exists n, (fst xy). split; [reflexivity|cbn; lia].
    + destruct (IH _ _ Hk) as [m [x [-> Hm]]].
      exists m, x. split; [reflexivity|cbn; lia].
Qed.

Lemma keys_from_sorted (ps : list (string * node)) :
  forall n,
    n + length ps <= 10 ->
    StronglySorted SegmentSurprisalTree.str_le (keys_from n ps) /\
    NoDup (keys_from n ps).
Proof.
  induction ps as [|xy ps IH]; intros n Hn; cbn [keys_from].
  - split; constructor.
  - cbn [length] in Hn. destruct (IH (S n) ltac:(lia)) as [Hs Hd].
    split.
    + constructor; [exact Hs|]. apply Forall_forall. intros k Hk.
      destruct (keys_from_elem _ _ _ Hk) as [m [x [-> Hm]]].
      apply key_lt; lia.
    + constructor; [|exact Hd]. intros Hk.
      destruct (keys_from_elem _ _ _ Hk) as [m [x [E Hm]]].
      revert E. apply key_lt; lia.
Qed.

(** What the loop of [get_word_continuations] leaves in the dict. *)
Lemma loop_body_cons (d : gmap string (list Q)) (n : nat)
    (xy : string * node) (ps : list (string * node)) :
  foldl SegmentSurprisalTree.loop_body (d, n) (xy :: ps)
  = foldl SegmentSurprisalTree.loop_body
      (<[SegmentSurprisalTree.key n (fst xy)
         := map snd (PrefixTree.get_continuations (snd xy))]> d, S n) ps.
Proof. reflexivity. Qed.

Lemma loop_keeps (ps : list (string * node)) :
  forall (d : gmap string (list Q)) n k,
    k ∉ keys_from n ps ->
    fst (foldl SegmentSurprisalTree.loop_body (d, n) ps) !! k = d !! k.
Proof.
  induction ps as [|xy ps IH]; intros d n k Hk; [reflexivity|].
  rewrite loop_body_cons. cbn [keys_from] in Hk.
  apply not_elem_of_cons in Hk as [Hne Hk].
  rewrite IH by exact Hk. apply lookup_insert_ne. congruence.
Qed.

Lemma loop_writes (ps : list (string * node)) :
  forall (d : gmap string (list Q)) n j x y,
    NoDup (keys_from n ps) ->
    ps !! j = Some (x, y) ->
    fst (foldl SegmentSurprisalTree.loop_body (d, n) ps)
      !! SegmentSurprisalTree.key (n + j) x
    = Some (map snd (PrefixTree.get_continuations y)).
Proof.
  induction ps as [|xy ps IH]; intros d n j x y Hd Hj; [discriminate|].
  rewrite loop_body_cons. cbn [keys_from] in Hd.
  apply NoDup_cons in Hd as [Hn Hd].
  destruct j as [|j]; cbn in Hj.
  - injection Hj as ->. rewrite Nat.add_0_r, loop_keeps by exact Hn.
    cbn [fst snd]. apply lookup_insert_eq.
  - replace (n + S j) with (S n + j) by lia. apply IH; assumption.
Qed.

Lemma loop_domain (ps : list (string * node)) :
  forall (d : gmap string (list Q)) n k,
    is_Some (fst (foldl SegmentSurprisalTree.loop_body (d, n) ps) !! k)
    <-> is_Some (d !! k) \/ k ∈ keys_from n ps.
Proof.
  induction ps as [|xy ps IH]; intros d n k.
  - cbn. rewrite elem_of_nil. tauto.
  - rewrite loop_body_cons, IH. cbn [keys_from].
    rewrite elem_of_cons, lookup_insert_is_Some. 
    destruct (decide (SegmentSurprisalTree.key n (fst xy) = k)); intuition congruence.
Qed.

Lemma scan_keys_from (d : gmap string (list Q)) (ps : list (string * node)) :
  forall n,
    (forall j x y,
        ps !! j = Some (x, y) ->
        d !! SegmentSurprisalTree.key (n + j) x
        = Some (map snd (PrefixTree.get_continuations y))) ->
    SegmentSurprisalTree.scan d n (keys_from n ps) = first_unique n ps.
Proof.
  induction ps as [|[x y] ps IH]; intros n H; [reflexivity|].
  cbn [keys_from SegmentSurprisalTree.scan first_unique fst].
  pose proof (H 0 x y eq_refl) as H0. rewrite Nat.add_0_r in H0.
  rewrite H0, length_map.
  destruct (decide _); [reflexivity|].
  apply IH. intros j x' y' Hj.
  replace (S n + j) with (n + S j) by lia. apply H. exact Hj.
Qed.

(** X20: up to ten positions, the order of [str] on the keys is the order
    of the positions, and [get_uniqueness_point] returns the first position
    with one continuation. *)
Lemma get_uniqueness_point_short (self : SegmentSurprisalTree.t)
    (word : string) (word_pron : list string) :
  SegmentSurprisalTree.pronunciations self !! word = Some word_pron ->
  length word_pron < 10 ->
  SegmentSurprisalTree.get_uniqueness_point self word
  = uniqueness_point_by_position self word.
Proof.
  intros Hw Hlen.
  unfold SegmentSurprisalTree.get_uniqueness_point,
    SegmentSurprisalTree.get_word_continuations,
    uniqueness_point_by_position.
  rewrite Hw.
  destruct (PrefixTree.get_prefixes _ _) as [ps|e] eqn:Hps; [|reflexivity].
  assert (Hn : 0 + length ps <= 10).
  { apply get_prefixes_symbols in Hps. apply (f_equal length) in Hps.
    rewrite length_map, length_app in Hps. cbn in Hps. lia. }
  destruct (keys_from_sorted ps 0 Hn) as [Hs Hd].
  set (d := fst (foldl SegmentSurprisalTree.loop_body (∅, 0) ps)).
  rewrite (sort_sorted _ (keys_from 0 ps) Hs).
  - apply scan_keys_from. intros j x y Hj. apply loop_writes; assumption.
  - apply NoDup_Permutation; [apply NoDup_fst_map_to_list|exact Hd|].
    intros k. transitivity (is_Some (d !! k)).
    + rewrite list_elem_of_fmap. split.
      * intros [[k' v] [-> Hkv]]. apply elem_of_map_to_list in Hkv.
        exists v. exact Hkv.
      * intros [v Hv]. exists (k, v). split; [reflexivity|].
        apply elem_of_map_to_list. exact Hv.
    + unfold d. rewrite loop_domain, lookup_empty. split.
      * intros [[v Hv]|H]; [discriminate|exact H].
      * intros H. right. exact H.
Qed.

(** * Further properties *)

(** ** An insertion, read back *)

Lemma dict_get_setdefault_update {V : Type} (k k0 : list string) (dflt : V)
    (f : V -> V) (d : list (list string * V)) :
  dict_get k (dict_setdefault_update k0 dflt f d)
  = if decide (k = k0)
    then Some (f (match dict_get k0 d with Some y => y | None => dflt end))
    else dict_get k d.
Proof.
  induction d as [|[k' v] d IH]; cbn [dict_setdefault_update dict_get].
  - destruct (decide (k = k0)); reflexivity.
  - destruct (decide (k0 = k')) as [->|Hne]; cbn [dict_get].
    + destruct (decide (k = k')); reflexivity.
    + rewrite IH. destruct (decide (k = k')) as [->|Hne'].
      * destruct (decide (k' = k0)); [congruence|reflexivity].
      * reflexivity.
Qed.

Lemma children_descend_S (v : list string) (w : Q) (l : string)
    (i r : nat) (x : node) :
  children (descend v w l i (S r) x)
  = dict_setdefault_update (take (S i) v)
      (PrefixTree.new_node (take (S i) v)) (touch v w l (S i) r)
      (children x).
Proof. rewrite descend_S. unfold touch. destruct r; reflexivity. Qed.

Lemma children_touch (v : list string) (w : Q) (l : string)
    (i rest : nat) (y : node) :
  children (touch v w l i rest y) = children (descend v w l i rest y).
Proof. destruct rest; reflexivity. Qed.

Lemma get_node_loop_children (u : list string) (n i : nat) (x x' : node) :
  children x = children x' -> 0 < n ->
  PrefixTree.get_node_loop u i n x = PrefixTree.get_node_loop u i n x'.
Proof.
  intros H Hn. destruct n as [|n]; [lia|].
  rewrite !get_node_loop_S, H. reflexivity.
Qed.

Lemma get_node_loop_new_node (u k : list string) (i n : nat) :
  PrefixTree.get_node_loop u i (S n) (PrefixTree.new_node k) = Raise KeyError.
Proof. reflexivity. Qed.

(** Along the sequence inserted, [get_node] finds the node [insert]
    touched. *)
Lemma get_node_loop_descend_on (u v : list string) (w : Q) (l : string) :
  forall n i rest x,
    S n <= rest ->
    (forall m, i <= m < i + S n -> take (S m) u = take (S m) v) ->
    PrefixTree.get_node_loop u i (S n) (descend v w l i rest x)
    = Ok (touch v w l (i + S n) (rest - S n) (reached u v i (S n) x)).
Proof.
  induction n as [|n IH]; intros i rest x Hrest Hkeys.
  - destruct rest as [|r]; [lia|].
    rewrite get_node_loop_S, children_descend_S.
    rewrite (Hkeys i) by lia. rewrite dict_get_setdefault_update.
    destruct (decide _) as [_|]; [|congruence].
    cbn [PrefixTree.get_node_loop]. unfold reached.
    rewrite get_node_loop_S, (Hkeys i) by lia.
    replace (i + 1) with (S i) by lia. replace (S r - 1) with r by lia.
    destruct (dict_get _ _); reflexivity.
  - destruct rest as [|r]; [lia|].
    rewrite get_node_loop_S, children_descend_S.
    rewrite (Hkeys i) by lia. rewrite dict_get_setdefault_update.
    destruct (decide _) as [_|]; [|congruence].
    destruct r as [|r]; [lia|]. cbn [touch].
    rewrite IH; [|lia|intros m Hm; apply Hkeys; lia].
    replace (S i + S n) with (i + S (S n)) by lia.
    replace (S r - S n) with (S (S r) - S (S n)) by lia.
    do 2 f_equal. unfold reached.
    rewrite (get_node_loop_S u i (S n) x), (Hkeys i) by lia.
    destruct (dict_get (take (S i) v) (children x)) as [y|] eqn:E.
    + replace (S i + S n) with (i + S (S n)) by lia. reflexivity.
    + rewrite get_node_loop_new_node.
      replace (S i + S n) with (i + S (S n)) by lia. reflexivity.
Qed.

(** Off the sequence inserted, [get_node] finds what it found before. *)
Lemma get_node_loop_descend_off (u v : list string) (w : Q) (l : string) :
  forall n i rest x,
    (exists m, i <= m < i + n /\ take (S m) u <> take (S m) v) ->
    PrefixTree.get_node_loop u i n (descend v w l i rest x)
    = PrefixTree.get_node_loop u i n x.
Proof.
  induction n as [|n IH]; intros i rest x [m [Hm Hne]]; [lia|].
  destruct rest as [|r]; [apply get_node_loop_children; [reflexivity|lia]|].
  rewrite !get_node_loop_S, children_descend_S, dict_get_setdefault_update.
  destruct (decide (take (S i) u = take (S i) v)) as [E|_]; [|reflexivity].
  assert (Hm' : exists m, S i <= m < S i + n /\ take (S m) u <> take (S m) v).
  { exists m. split; [|exact Hne].
    destruct (decide (m = i)) as [->|]; [contradiction|lia]. }
  assert (Hn : 0 < n) by (destruct Hm' as [? [? _]]; lia).
  rewrite E.
  destruct (dict_get (take (S i) v) (children x)) as [y|].
  - rewrite (get_node_loop_children u n (S i) _ (descend v w l (S i) r y))
      by (apply children_touch || exact Hn).
    apply IH, Hm'.
  - rewrite (get_node_loop_children u n (S i) _
               (descend v w l (S i) r (PrefixTree.new_node (take (S i) v))))
      by (apply children_touch || exact Hn).
    rewrite IH by exact Hm'. destruct n; [lia|reflexivity].
Qed.

Lemma prefix_keys (u v : list string) :
  u `prefix_of` v ->
  forall m, m < length u -> take (S m) u = take (S m) v.
Proof.
  intros [k ->] m Hm. rewrite take_app_le by lia. reflexivity.
Qed.

Lemma not_prefix_keys (u v : list string) :
  ~ u `prefix_of` v ->
  exists m, 0 <= m < 0 + length u /\ take (S m) u <> take (S m) v.
Proof.
  intros Hn.
  destruct (decide (Forall (fun m => take (S m) u = take (S m) v)
                           (seq 0 (length u)))) as [H|H].
  - exfalso. apply Hn. rewrite Forall_forall in H.
    destruct (length u) as [|n] eqn:En.
    + destruct u; [apply prefix_nil|discriminate].
    + specialize (H n). rewrite <- En in H at 2.
      rewrite firstn_all in H. rewrite H; [apply take_prefix|].
      apply elem_of_seq. lia.
  - apply not_Forall_Exists in H; [|intros m; apply _].
    apply Exists_exists in H as [m [Hm Hne]]. apply elem_of_seq in Hm.
    exists m. split; [lia|exact Hne].
Qed.

Lemma insert_tree_descend (self : PrefixTree.t) (v : list string) (w : Q)
    (l : string) :
  PrefixTree.tree (fst (PrefixTree.insert self v w l))
  = descend v w l 0 (length v) (PrefixTree.tree self).
Proof. rewrite insert_tree. apply insert_node_descend. Qed.

(** X1: after [insert(vector, freq, label)] with a sequence that is not
    empty, [get_node(vector)] returns a node, whatever the tree was; its
    labels are those of the node the tree had for the sequence (none if it
    had no such node) followed by [label], and its frequency is that
    node's (zero if there was none) plus [freq]. *)
Theorem insert_then_get_node (self : PrefixTree.t) (v : list string)
    (w : Q) (l : string) :
  v <> [] ->
  exists y,
    PrefixTree.get_node (fst (PrefixTree.insert self v w l)) v = Ok y /\
    labels y
    = match PrefixTree.get_node self v with
      | Ok x => labels x
      | Raise _ => []
      end ++ [l] /\
    freq y
    = (match PrefixTree.get_node self v with
       | Ok x => freq x
       | Raise _ => 0
       end + w)%Q.
Proof.
  intros Hv. unfold PrefixTree.get_node. rewrite insert_tree_descend.
  destruct (length v) as [|n] eqn:En; [destruct v; [congruence|discriminate]|].
  rewrite get_node_loop_descend_on; [|lia|reflexivity].
  rewrite Nat.sub_diag. eexists. split; [reflexivity|].
  unfold reached. cbn [touch Nat.add].
  destruct (PrefixTree.get_node_loop v 0 (S n) (PrefixTree.tree self));
    split; reflexivity.
Qed.

Lemma insert_then_get_node_witness :
  ["a"; "b"] <> [] /\
  exists y,
    PrefixTree.get_node
      (fst (PrefixTree.insert tree_ab ["a"; "b"] 2 "again")) ["a"; "b"] = Ok y /\
    labels y = ["ab"; "again"] /\ freq y = (3 + 2)%Q.
Proof.
  assert (H : ["a"; "b"] <> ([] : list string)) by discriminate.
  split; [exact H|].
  exact (insert_then_get_node tree_ab ["a"; "b"] 2 "again" H).
Defined.

(** X2: an insertion changes what [get_node] returns for the prefixes of
    the inserted sequence only: for every other sequence [get_node]
    returns the node, or raises the error, it did before. *)
Theorem insert_get_node_frame (self : PrefixTree.t) (u v : list string)
    (w : Q) (l : string) :
  ~ u `prefix_of` v ->
  PrefixTree.get_node (fst (PrefixTree.insert self v w l)) u
  = PrefixTree.get_node self u.
Proof.
  intros Hn. unfold PrefixTree.get_node. rewrite insert_tree_descend.
  apply get_node_loop_descend_off, not_prefix_keys, Hn.
Qed.

Lemma insert_get_node_frame_witness :
  ~ ["a"; "c"] `prefix_of` ["a"; "b"] /\
  PrefixTree.get_node (fst (PrefixTree.insert tree_ab_ac ["a"; "b"] 2 "x"))
    ["a"; "c"]
  = PrefixTree.get_node tree_ab_ac ["a"; "c"].
Proof.
  assert (H : ~ ["a"; "c"] `prefix_of` ["a"; "b"]).
  { intros [k Hk]. discriminate. }
  split; [exact H|].
  exact (insert_get_node_frame tree_ab_ac ["a"; "c"] ["a"; "b"] 2 "x" H).
Defined.

(** X3: an insertion of a sequence that is not empty raises the frequency
    of the node of every prefix of the sequence by the weight, the root's
    included, and creates the nodes that were missing with the weight as
    frequency; it changes the labels of the node of the whole sequence
    only. *)
Theorem insert_raises_prefixes (self : PrefixTree.t) (u v : list string)
    (w : Q) (l : string) :
  v <> [] -> u `prefix_of` v ->
  exists y,
    PrefixTree.get_node (fst (PrefixTree.insert self v w l)) u = Ok y /\
    freq y
    = (match PrefixTree.get_node self u with
       | Ok x => freq x
       | Raise _ => 0
       end + w)%Q /\
    labels y
    = match PrefixTree.get_node self u with
      | Ok x => labels x
      | Raise _ => []
      end ++ (if decide (u = v) then [l] else []) /\
    prob y
    = match PrefixTree.get_node self u with
      | Ok x => prob x
      | Raise _ => None
      end.
Proof.
  intros Hv Hp. unfold PrefixTree.get_node. rewrite insert_tree_descend.
  pose proof (prefix_length _ _ Hp) as Hlen.
  destruct (length u) as [|n] eqn:En.
  - destruct u; [|discriminate]. cbn [PrefixTree.get_node_loop].
    eexists. split; [reflexivity|].
    destruct (decide ([] = v)); [congruence|]. rewrite app_nil_r.
    repeat split.
  - rewrite get_node_loop_descend_on;
      [|lia|intros m Hm; apply prefix_keys; [exact Hp|lia]].
    eexists. split; [reflexivity|]. unfold reached. cbn [Nat.add].
    destruct (decide (u = v)) as [->|Hne].
    + rewrite En, Nat.sub_diag. cbn [touch].
      destruct (PrefixTree.get_node_loop v 0 (S n) (PrefixTree.tree self));
        repeat split.
    + assert (Hlt : S n < length v).
      { destruct (decide (S n = length v)) as [E|]; [|lia].
        exfalso. apply Hne. apply prefix_take_iff in Hp.
        rewrite En, E, firstn_all in Hp. congruence. }
      destruct (length v - S n) as [|r] eqn:Er; [lia|]. cbn [touch].
      destruct (PrefixTree.get_node_loop u 0 (S n) (PrefixTree.tree self));
        cbn [descend labels freq prob set_children set_freq PrefixTree.new_node];
        rewrite ?app_nil_r; repeat split.
Qed.

Lemma insert_raises_prefixes_witness :
  ["a"; "b"] <> [] /\ ["a"] `prefix_of` ["a"; "b"] /\
  exists y,
    PrefixTree.get_node (fst (PrefixTree.insert tree_ab ["a"; "b"] 2 "x")) ["a"]
    = Ok y /\
    freq y = (3 + 2)%Q.
Proof.
  assert (H1 : ["a"; "b"] <> ([] : list string)) by discriminate.
  assert (H2 : ["a"] `prefix_of` ["a"; "b"]) by (exists ["b"]; reflexivity).
  split; [exact H1|]. split; [exact H2|].
  destruct (insert_raises_prefixes tree_ab ["a"] ["a"; "b"] 2 "x" H1 H2)
    as [y (Hy & Hf & _)].
  exists y. split; [exact Hy|exact Hf].
Defined.

(** ** What [calculate_probs] leaves alone *)

Lemma forget_probs_unfold (x : node) :
  forget_probs x
  = Node (id x) (labels x) (freq x) None
      (map (fun kc => (fst kc, forget_probs (snd kc))) (children x)).
Proof. destruct x; reflexivity. Qed.

Lemma forget_probs_set_prob (p : Q) (x : node) :
  forget_probs (set_prob p x) = forget_probs x.
Proof. rewrite !forget_probs_unfold. reflexivity. Qed.

Lemma calc_loop_forget (fx : Q) (cs : list (list string * node)) :
  Forall (fun kc =>
            forget_probs (fst (PrefixTree.calculate_probs_node (snd kc)))
            = forget_probs (snd kc)) cs ->
  map (fun kc => (fst kc, forget_probs (snd kc))) (fst (calc_loop fx cs))
  = map (fun kc => (fst kc, forget_probs (snd kc))) cs.
Proof.
  induction 1 as [|[k c] cs Hc _ IH]; [reflexivity|].
  cbn [calc_loop snd] in *. fold (calc_loop fx) in *.
  destruct (Qeq_bool fx 0); [reflexivity|].
  destruct (PrefixTree.calculate_probs_node c) as [c' r]. cbn [fst] in Hc.
  destruct r as [[]|e].
  - destruct (calc_loop fx cs) as [cs'' r']. cbn [fst map snd] in *.
    rewrite forget_probs_set_prob, Hc, IH. reflexivity.
  - cbn [fst map snd]. rewrite forget_probs_set_prob, Hc. reflexivity.
Qed.

Lemma calculate_probs_node_forget (x : node) :
  forget_probs (fst (PrefixTree.calculate_probs_node x)) = forget_probs x.
Proof.
  induction x as [i l f p cs IH] using node_ind.
  rewrite calculate_probs_node_unfold. cbn [fst freq children].
  rewrite (forget_probs_unfold (set_children _ _)), forget_probs_unfold.
  cbn [id labels freq children set_children].
  rewrite (calc_loop_forget f cs IH). reflexivity.
Qed.

Lemma same_but_probs_fields (x y : node) :
  same_but_probs x y ->
  id x = id y /\ labels x = labels y /\ freq x = freq y /\
  map (fun kc => (fst kc, forget_probs (snd kc))) (children x)
  = map (fun kc => (fst kc, forget_probs (snd kc))) (children y).
Proof.
  unfold same_but_probs. rewrite !forget_probs_unfold.
  intros [= H1 H2 H3 H4]. repeat split; assumption.
Qed.

Lemma same_but_probs_dict_get (k : list string)
    (cs cs' : list (list string * node)) :
  map (fun kc => (fst kc, forget_probs (snd kc))) cs
  = map (fun kc => (fst kc, forget_probs (snd kc))) cs' ->
  match dict_get k cs, dict_get k cs' with
  | Some c, Some c' => same_but_probs c c'
  | None, None => True
  | _, _ => False
  end.
Proof.
  revert cs'. induction cs as [|[k1 c1] cs IH]; intros [|[k2 c2] cs'] H;
    try discriminate; [exact I|].
  cbn [map fst snd] in H. injection H as -> Hc Hcs. cbn [dict_get].
  destruct (decide (k = k2)); [exact Hc|apply IH, Hcs].
Qed.

Lemma get_continuations_same_but_probs (x : node) :
  forall y, same_but_probs x y ->
            PrefixTree.get_continuations x = PrefixTree.get_continuations y.
Proof.
  induction x as [i l f p cs IH] using node_ind. intros y H.
  apply same_but_probs_fields in H as (_ & Hl & Hf & Hc).
  rewrite !get_continuations_unfold. cbn [children labels freq] in *.
  destruct y as [i' l' f' p' cs']. cbn [children labels freq] in *.
  subst l' f'.
  assert (Hcc : map (fun kc => PrefixTree.get_continuations (snd kc)) cs
                = map (fun kc => PrefixTree.get_continuations (snd kc)) cs').
  { clear -IH Hc. revert cs' Hc.
    induction IH as [|[k c] cs Hx _ IHcs]; intros [|[k' c'] cs'] Hc;
      try discriminate; [reflexivity|].
    cbn [map fst snd] in *. injection Hc as _ Hcc Hcs.
    rewrite (Hx c' Hcc), (IHcs cs' Hcs). reflexivity. }
  destruct cs, cs'; try discriminate; [reflexivity|]. rewrite Hcc. reflexivity.
Qed.

(** The loop of [get_prefixes] with a list to append to is the loop with
    the empty list, appended. *)
Lemma get_prefixes_loop_acc (v : list string) :
  forall n i x acc,
    PrefixTree.get_prefixes_loop v i n x acc
    = match PrefixTree.get_prefixes_loop v i n x [] with
      | Ok ps => Ok (acc ++ ps)
      | Raise e => Raise e
      end.
Proof.
  induction n as [|n IH]; intros i x acc; cbn [PrefixTree.get_prefixes_loop].
  - rewrite app_nil_r. reflexivity.
  - destruct (dict_get _ _) as [c|]; [|reflexivity].
    destruct (v !! i) as [s|]; [|reflexivity].
    rewrite (IH (S i) c (acc ++ _)), (IH (S i) c ([] ++ _)).
    destruct (PrefixTree.get_prefixes_loop v (S i) n c []); [|reflexivity].
    rewrite <- app_assoc. reflexivity.
Qed.

Lemma get_prefixes_loop_same_but_probs (v : list string) :
  forall n i x y,
    same_but_probs x y ->
    match PrefixTree.get_prefixes_loop v i n x [],
          PrefixTree.get_prefixes_loop v i n y [] with
    | Ok ps, Ok ps' =>
        Forall2 (fun p p' => fst p = fst p' /\ same_but_probs (snd p) (snd p'))
                ps ps'
    | Raise e, Raise e' => e = e'
    | _, _ => False
    end.
Proof.
  induction n as [|n IH]; intros i x y H; cbn [PrefixTree.get_prefixes_loop].
  - constructor.
  - apply same_but_probs_fields in H as (_ & _ & _ & Hc).
    pose proof (same_but_probs_dict_get (take (S i) v) _ _ Hc) as Hd.
    destruct (dict_get _ (children x)) as [c|],
             (dict_get _ (children y)) as [c'|]; try contradiction;
      [|reflexivity].
    destruct (v !! i) as [s|]; [|reflexivity].
    rewrite (get_prefixes_loop_acc v n (S i) c),
            (get_prefixes_loop_acc v n (S i) c').
    specialize (IH (S i) c c' Hd).
    destruct (PrefixTree.get_prefixes_loop v (S i) n c []),
             (PrefixTree.get_prefixes_loop v (S i) n c' []);
      try contradiction; [|exact IH].
    cbn [app]. constructor; [split; [reflexivity|exact Hd]|exact IH].
Qed.

(** X4: [calculate_probs] writes ['prob'] fields and nothing else, also
    when it raises part-way: the tree differs from the one before in
    ['prob'] fields only, the cache is the same, and [get_continuations] and
    [prefix_frequencies] return what they returned before. *)
Theorem calculate_probs_writes_probs_only (self : PrefixTree.t) :
  same_but_probs (PrefixTree.tree (fst (PrefixTree.calculate_probs self)))
                 (PrefixTree.tree self) /\
  PrefixTree._cache (fst (PrefixTree.calculate_probs self))
  = PrefixTree._cache self /\
  PrefixTree.get_continuations
    (PrefixTree.tree (fst (PrefixTree.calculate_probs self)))
  = PrefixTree.get_continuations (PrefixTree.tree self) /\
  forall v,
    PrefixTree.prefix_frequencies (fst (PrefixTree.calculate_probs self)) v
    = PrefixTree.prefix_frequencies self v.
Proof.
  assert (H : same_but_probs
                (PrefixTree.tree (fst (PrefixTree.calculate_probs self)))
                (PrefixTree.tree self)).
  { unfold PrefixTree.calculate_probs.
    pose proof (calculate_probs_node_forget (PrefixTree.tree self)) as H.
    destruct (PrefixTree.calculate_probs_node _). exact H. }
  split; [exact H|]. split; [apply calculate_probs_cache|].
  split; [apply get_continuations_same_but_probs, H|].
  intros v. unfold PrefixTree.prefix_frequencies, PrefixTree.get_prefixes.
  pose proof (get_prefixes_loop_same_but_probs v (length v) 0 _ _ H) as Hp.
  destruct (PrefixTree.get_prefixes_loop v 0 (length v) _ []) as [ps|e],
           (PrefixTree.get_prefixes_loop v 0 (length v) _ []) as [ps'|e'];
    try contradiction; [|congruence].
  f_equal. induction Hp as [|p p' ps ps' [H1 H2] _ IH]; [reflexivity|].
  cbn [map]. rewrite IH, H1.
  apply same_but_probs_fields in H2 as (_ & _ & -> & _). reflexivity.
Qed.

(** ** Frequencies and probabilities along a sequence *)

Lemma get_node_loop_subnodes (v : list string) :
  forall n i x y,
    PrefixTree.get_node_loop v i n x = Ok y -> y ∈ subnodes x.
Proof.
  induction n as [|n IH]; intros i x y H.
  - injection H as <-. apply subnodes_self.
  - rewrite get_node_loop_S in H.
    destruct (dict_get _ _) as [c|] eqn:E; [|discriminate].
    eapply subnodes_child; [apply (dict_get_elem _ _ _ E)|].
    cbn [snd]. apply (IH _ _ _ H).
Qed.

(** The frequency [get_node] finds in a built tree. *)
Lemma get_node_build_freq (ops : list insertion) (u : list string) (z : node) :
  PrefixTree.get_node (build ops) u = Ok z ->
  (freq z == prefix_weight ops u)%Q /\
  (u <> [] -> inserted ops u).
Proof.
  intros H.
  destruct (get_node_build ops u) as [[Hr _]|[y (Hy & Hid & Hall)]];
    [congruence|].
  assert (y = z) as -> by congruence.
  split.
  - rewrite <- Hid. apply frequency_is_prefix_weight.
    apply (get_node_loop_subnodes u _ _ _ _ H).
  - intros Hne. specialize (Hall (length u)). rewrite firstn_all in Hall.
    apply Hall. destruct u; [congruence|cbn; lia].
Qed.

(** The frequencies along a sequence, in the model. *)
Lemma prefix_frequencies_weights (ops : list insertion) (v : list string)
    (l : list (string * Q)) :
  PrefixTree.prefix_frequencies (build ops) v = Ok l ->
  length l = length v /\
  forall j s f,
    l !! j = Some (s, f) ->
    v !! j = Some s /\ (f == prefix_weight ops (take (S j) v))%Q.
Proof.
  unfold PrefixTree.prefix_frequencies. intros H.
  destruct (get_prefixes_build ops v) as [[_ Hr]|[ps (Hps & Hl & _ & Hspec)]];
    [rewrite Hr in H; discriminate|].
  rewrite Hps in H. injection H as <-.
  split; [rewrite length_map; exact Hl|].
  intros j s f Hj. rewrite list_lookup_fmap in Hj.
  destruct (ps !! j) as [[s0 z]|] eqn:E; [|discriminate].
  cbn in Hj. injection Hj as -> <-.
  destruct (Hspec j s z E) as (Hs & Hn & _).
  split; [exact Hs|]. apply (get_node_build_freq ops _ z Hn).
Qed.

Lemma dict_get_probs_of (k : list string) (f : Q)
    (cs : list (list string * node)) :
  dict_get k (probs_of f cs)
  = match dict_get k cs with
    | Some c => Some (set_prob (freq c / f) (with_probs c))
    | None => None
    end.
Proof.
  induction cs as [|[k' c] cs IH]; [reflexivity|].
  cbn [probs_of map dict_get fst snd]. fold (probs_of f cs).
  destruct (decide (k = k')); [reflexivity|exact IH].
Qed.

Lemma children_with_probs (x : node) :
  children (with_probs x) = probs_of (freq x) (children x).
Proof. rewrite with_probs_unfold. reflexivity. Qed.

(** The path [get_prefixes] follows in the tree [calculate_probs] left. *)
Lemma get_prefixes_loop_with_probs (v : list string) :
  forall n i x x',
    children x' = probs_of (freq x) (children x) ->
    PrefixTree.get_prefixes_loop v i n x' []
    = match PrefixTree.get_prefixes_loop v i n x [] with
      | Ok ps => Ok (probs_path (freq x) ps)
      | Raise e => Raise e
      end.
Proof.
  induction n as [|n IH]; intros i x x' Hc; [reflexivity|].
  cbn [PrefixTree.get_prefixes_loop]. rewrite Hc, dict_get_probs_of.
  destruct (dict_get _ (children x)) as [c|]; [|reflexivity].
  destruct (v !! i) as [s|]; [|reflexivity].
  rewrite (get_prefixes_loop_acc v n (S i) _ ([] ++ _)).
  rewrite (get_prefixes_loop_acc v n (S i) c ([] ++ _)).
  rewrite (IH (S i) c (set_prob (freq c / freq x) (with_probs c)))
    by apply children_with_probs.
  destruct (PrefixTree.get_prefixes_loop v (S i) n c []); reflexivity.
Qed.

Lemma comprehension_probs_path (f : Q) (ps : list (string * node)) :
  PrefixTree.comprehension
    (fun xy : string * node =>
       match PrefixTree.get_prob (snd xy) with
       | Raise e => Raise e
       | Ok p => Ok (fst xy, p)
       end) (probs_path f ps)
  = Ok (ratios f ps).
Proof.
  revert f. induction ps as [|[s c] ps IH]; intros f; [reflexivity|].
  cbn [probs_path PrefixTree.comprehension fst snd ratios].
  rewrite IH. reflexivity.
Qed.

(** With positive weights, [calculate_probs] on a built tree raises
    nothing and writes [with_probs]. *)
Lemma calculate_probs_build (ops : list insertion) :
  Forall (fun c => (0 < ins_weight c)%Q) ops ->
  PrefixTree.calculate_probs (build ops)
  = (PrefixTree.Make (with_probs (PrefixTree.tree (build ops)))
                     (PrefixTree._cache (build ops)), Ok tt).
Proof.
  intros Hpos. unfold PrefixTree.calculate_probs.
  rewrite calculate_probs_node_ok; [reflexivity|].
  intros y Hy Hcs Hz.
  pose proof (good_parent_pos ops y Hpos
                (good_subnodes ops _ (build_good ops) y Hy) Hcs) as H.
  rewrite Hz in H. apply (Qlt_irrefl _ H).
Qed.

Lemma prefix_probabilities_with_probs (ops : list insertion)
    (v : list string) :
  Forall (fun c => (0 < ins_weight c)%Q) ops ->
  PrefixTree.prefix_probabilities (fst (PrefixTree.calculate_probs (build ops))) v
  = match PrefixTree.get_prefixes (build ops) v with
    | Ok ps => Ok (ratios (freq (PrefixTree.tree (build ops))) ps)
    | Raise e => Raise e
    end.
Proof.
  intros Hpos. rewrite (calculate_probs_build ops Hpos). cbn [fst].
  unfold PrefixTree.prefix_probabilities, PrefixTree.get_prefixes.
  cbn [PrefixTree.tree].
  rewrite (get_prefixes_loop_with_probs v (length v) 0
             (PrefixTree.tree (build ops)))
    by apply children_with_probs.
  destruct (PrefixTree.get_prefixes_loop v 0 (length v) _ []) as [ps|e];
    [|reflexivity].
  apply comprehension_probs_path.
Qed.

Lemma ratios_length (f : Q) (ps : list (string * node)) :
  length (ratios f ps) = length ps.
Proof.
  revert f. induction ps as [|sc ps IH]; intros f; [reflexivity|].
  cbn. rewrite IH. reflexivity.
Qed.

Lemma ratios_lookup (ps : list (string * node)) :
  forall f j s p,
    ratios f ps !! j = Some (s, p) ->
    exists z,
      ps !! j = Some (s, z) /\
      p = (freq z
           / match j with
             | O => f
             | S j' => match ps !! j' with
                       | Some sz => freq (snd sz)
                       | None => 0
                       end
             end)%Q.
Proof.
  induction ps as [|[s0 c] ps IH]; intros f j s p H; [discriminate|].
  destruct j as [|j]; cbn in H.
  - injection H as <- <-. exists c. split; reflexivity.
  - destruct (IH _ _ _ _ H) as [z [Hz Hp]]. exists z. split; [exact Hz|].
    rewrite Hp. destruct j; reflexivity.
Qed.

Lemma prefix_weight_inserted_pos (ops : list insertion) (v : list string)
    (k : nat) :
  Forall (fun c => (0 < ins_weight c)%Q) ops ->
  (forall k, 1 <= k <= length v -> inserted ops (take k v)) ->
  v <> [] -> k <= length v ->
  (0 < prefix_weight ops (take k v))%Q.
Proof.
  intros Hpos Hall Hv Hk. apply prefix_weight_pos; [exact Hpos|].
  destruct k as [|k]; [|apply Hall; lia].
  destruct (Hall 1) as [c [Hc Hp]]; [destruct v; [congruence|cbn; lia]|].
  exists c. split; [exact Hc|apply prefix_nil].
Qed.

(** The probabilities along a sequence, in closed form. *)
Lemma prefix_probabilities_closed_form (ops : list insertion) (v : list string)
    (l : list (string * Q)) :
  Forall (fun c => (0 < ins_weight c)%Q) ops ->
  PrefixTree.prefix_probabilities
    (fst (PrefixTree.calculate_probs (build ops))) v = Ok l ->
  length l = length v /\
  forall j s p,
    l !! j = Some (s, p) ->
    v !! j = Some s /\
    (p == prefix_weight ops (take (S j) v) / prefix_weight ops (take j v))%Q /\
    (0 < p)%Q /\ (p <= 1)%Q.
Proof.
  intros Hpos H. rewrite (prefix_probabilities_with_probs ops v Hpos) in H.
  destruct (get_prefixes_build ops v) as [[_ Hr]|[ps (Hps & Hl & _ & Hspec)]];
    [rewrite Hr in H; discriminate|].
  rewrite Hps in H. injection H as <-.
  split; [rewrite ratios_length; exact Hl|].
  intros j s p Hj. apply ratios_lookup in Hj as [z [Hz ->]].
  destruct (Hspec j s z Hz) as (Hs & Hn & _).
  split; [exact Hs|].
  assert (Hv : v <> []) by (intros ->; discriminate).
  assert (Hjl : S j <= length v) by (apply lookup_lt_Some in Hs; lia).
  assert (Hall : forall k, 1 <= k <= length v -> inserted ops (take k v)).
  { destruct (get_node_build ops v) as [[Hr _]|[y (_ & _ & Hall)]];
      [|exact Hall].
    destruct (get_prefixes_build ops v) as [[_ Hr']|[? (_ & _ & Hok & _)]];
      [congruence|]. rewrite Hr in Hok. discriminate. }
  pose proof (proj1 (get_node_build_freq ops _ z Hn)) as Hfz.
  assert (Hprev :
    (match j with
     | O => freq (PrefixTree.tree (build ops))
     | S j' => match ps !! j' with
               | Some sz => freq (snd sz)
               | None => 0
               end
     end == prefix_weight ops (take j v))%Q).
  { destruct j as [|j'].
    - rewrite (frequency_is_prefix_weight ops _ (subnodes_self _)).
      rewrite build_root_id. reflexivity.
    - destruct (ps !! j') as [[s' z']|] eqn:E.
      + destruct (Hspec j' s' z' E) as (_ & Hn' & _).
        apply (get_node_build_freq ops _ z' Hn').
      + apply lookup_ge_None in E. lia. }
  pose proof (prefix_weight_inserted_pos ops v (S j) Hpos Hall Hv Hjl) as Hnum.
  pose proof (prefix_weight_inserted_pos ops v j Hpos Hall Hv ltac:(lia)) as Hden.
  assert (Hle : (prefix_weight ops (take (S j) v)
                 <= prefix_weight ops (take j v))%Q).
  { apply prefix_weight_mono.
    - eapply Forall_impl; [exact Hpos|]. intros c Hc. apply Qlt_le_weak, Hc.
    - replace (take j v) with (take j (take (S j) v))
        by (rewrite take_take; f_equal; lia).
      apply take_prefix. }
  rewrite Hfz, Hprev. split; [reflexivity|]. split.
  - apply Qlt_shift_div_l; [exact Hden|]. rewrite Qmult_0_l. exact Hnum.
  - apply Qle_shift_div_r; [exact Hden|]. rewrite Qmult_1_l. exact Hle.
Qed.

(** X6: in a tree built by [insert] calls whose weights are positive ints
    with a sum of at most [float_max], after [calculate_probs],
    [prefix_probabilities] returns for each position the weight of the
    calls whose sequence starts with the symbols up to that position, over
    the weight of the calls whose sequence starts with the symbols before
    it, the quotient being taken exactly and the divisor being at most
    [float_max]; the value is above 0 and at most 1. *)
Theorem prefix_probabilities_built (iops : list int_insertion)
    (v : list string) (l : list (string * Q)) :
  Forall (fun c => (0 < int_weight c)%Z) iops ->
  (int_total iops <= float_max)%Z ->
  PrefixTree.prefix_probabilities
    (fst (PrefixTree.calculate_probs (build (of_ints iops)))) v = Ok l ->
  length l = length v /\
  forall j s p,
    l !! j = Some (s, p) ->
    v !! j = Some s /\
    (p == prefix_weight (of_ints iops) (take (S j) v)
          / prefix_weight (of_ints iops) (take j v))%Q /\
    (prefix_weight (of_ints iops) (take j v) <= inject_Z float_max)%Q /\
    (0 < p)%Q /\ (p <= 1)%Q.
Proof.
  intros Hpos Hmax H.
  destruct (prefix_probabilities_closed_form (of_ints iops) v l
              (of_ints_positive iops Hpos) H) as [Hl Hspec].
  split; [exact Hl|]. intros j s p Hj.
  destruct (Hspec j s p Hj) as (Hs & Hp & H0 & H1).
  split; [exact Hs|]. split; [exact Hp|]. split; [|split; assumption].
  eapply Qle_trans; [|rewrite <- Zle_Qle; exact Hmax].
  rewrite <- prefix_weight_int_total.
  apply prefix_weight_mono; [|apply prefix_nil].
  apply of_ints_nonneg. eapply Forall_impl; [exact Hpos|].
  intros c Hc. cbn beta in Hc. lia.
Qed.

Lemma prefix_probabilities_built_witness :
  Forall (fun c => (0 < int_weight c)%Z) iops_a_ab /\
  (int_total iops_a_ab <= float_max)%Z /\
  PrefixTree.prefix_probabilities
    (fst (PrefixTree.calculate_probs (build (of_ints iops_a_ab)))) ["a"; "b"]
  = Ok [("a"%string, 2 # 2); ("b"%string, 1 # 2)] /\
  length [("a"%string, 2 # 2); ("b"%string, 1 # 2)] = length ["a"; "b"].
Proof.
  assert (H1 : Forall (fun c => (0 < int_weight c)%Z) iops_a_ab)
    by (repeat constructor).
  assert (Hmax : (int_total iops_a_ab <= float_max)%Z)
    by (vm_compute; discriminate).
  assert (H2 : PrefixTree.prefix_probabilities
                 (fst (PrefixTree.calculate_probs (build (of_ints iops_a_ab))))
                 ["a"; "b"]
               = Ok [("a"%string, 2 # 2); ("b"%string, 1 # 2)])
    by (vm_compute; reflexivity).
  split; [exact H1|]. split; [exact Hmax|]. split; [exact H2|].
  exact (proj1 (prefix_probabilities_built iops_a_ab ["a"; "b"] _ H1 Hmax H2)).
Defined.

Lemma Qprod_app (a b : list Q) : (Qprod (a ++ b) == Qprod a * Qprod b)%Q.
Proof.
  induction a as [|x a IH]; cbn [app].
  - change (Qprod []) with 1%Q. ring.
  - change (Qprod (x :: a ++ b)) with (x * Qprod (a ++ b))%Q.
    change (Qprod (x :: a)) with (x * Qprod a)%Q. rewrite IH. ring.
Qed.

(** The product of the quotients along a sequence, in the model. *)
Lemma prefix_probabilities_telescope (ops : list insertion)
    (v : list string) (l : list (string * Q)) :
  Forall (fun c => (0 < ins_weight c)%Q) ops ->
  v <> [] ->
  PrefixTree.prefix_probabilities
    (fst (PrefixTree.calculate_probs (build ops))) v = Ok l ->
  (Qprod (map snd l) == prefix_weight ops v / prefix_weight ops [])%Q.
Proof.
  intros Hpos Hv H.
  destruct (prefix_probabilities_closed_form ops v l Hpos H) as [Hl Hspec].
  assert (Hall : forall k, 1 <= k <= length v -> inserted ops (take k v)).
  { rewrite (prefix_probabilities_with_probs ops v Hpos) in H.
    destruct (get_node_build ops v) as [[Hr _]|[y (_ & _ & Hall)]];
      [|exact Hall].
    destruct (get_prefixes_build ops v) as [[_ Hr']|[? (_ & _ & Hok & _)]];
      [rewrite Hr' in H; discriminate|]. rewrite Hr in Hok. discriminate. }
  assert (Hk : forall k, k <= length l ->
             (Qprod (map snd (take k l))
              == prefix_weight ops (take k v) / prefix_weight ops [])%Q).
  { induction k as [|k IH]; intros Hkl.
    - rewrite !take_0. cbn [map]. change (Qprod []) with 1%Q. field.
      pose proof (prefix_weight_inserted_pos ops v 0 Hpos Hall Hv ltac:(lia)) as H0.
      rewrite take_0 in H0. intros E. rewrite E in H0. apply (Qlt_irrefl _ H0).
    - destruct (lookup_lt_is_Some_2 l k ltac:(lia)) as [[s p] Hsp].
      rewrite (take_S_r l k _ Hsp), map_app, Qprod_app, IH by lia.
      cbn [map snd]. change (Qprod [p]) with (p * 1)%Q.
      destruct (Hspec k s p Hsp) as (_ & -> & _).
      pose proof (prefix_weight_inserted_pos ops v k Hpos Hall Hv ltac:(lia)) as Hd.
      pose proof (prefix_weight_inserted_pos ops v 0 Hpos Hall Hv ltac:(lia)) as H0.
      rewrite take_0 in H0. field.
      split; intros E;
        first [rewrite E in Hd; apply (Qlt_irrefl _ Hd)
              |rewrite E in H0; apply (Qlt_irrefl _ H0)]. }
  specialize (Hk (length l) (Nat.le_refl _)).
  rewrite firstn_all in Hk. rewrite Hl, firstn_all in Hk. exact Hk.
Qed.

(** X7: the chain rule.  In a tree built by [insert] calls whose
    weights are positive ints with a sum of at most [float_max], after
    [calculate_probs], the product of the probabilities along a sequence
    that is not empty, each taken as the exact quotient, is the weight of
    the calls whose sequence starts with it over the weight of all the
    calls. *)
Theorem prefix_probabilities_product (iops : list int_insertion)
    (v : list string) (l : list (string * Q)) :
  Forall (fun c => (0 < int_weight c)%Z) iops ->
  (int_total iops <= float_max)%Z ->
  v <> [] ->
  PrefixTree.prefix_probabilities
    (fst (PrefixTree.calculate_probs (build (of_ints iops)))) v = Ok l ->
  (Qprod (map snd l)
   == prefix_weight (of_ints iops) v / inject_Z (int_total iops))%Q.
Proof.
  intros Hpos _ Hv H.
  rewrite (prefix_probabilities_telescope (of_ints iops) v l
             (of_ints_positive iops Hpos) Hv H).
  rewrite prefix_weight_int_total. reflexivity.
Qed.

Lemma prefix_probabilities_product_witness :
  Forall (fun c => (0 < int_weight c)%Z) iops_a_ab /\
  (int_total iops_a_ab <= float_max)%Z /\
  ["a"; "b"] <> [] /\
  (Qprod (map snd [("a"%string, 2 # 2); ("b"%string, 1 # 2)])
   == prefix_weight (of_ints iops_a_ab) ["a"; "b"]
      / inject_Z (int_total iops_a_ab))%Q.
Proof.
  assert (H1 : Forall (fun c => (0 < int_weight c)%Z) iops_a_ab)
    by (repeat constructor).
  assert (Hmax : (int_total iops_a_ab <= float_max)%Z)
    by (vm_compute; discriminate).
  assert (H0 : ["a"; "b"] <> ([] : list string)) by discriminate.
  assert (H2 : PrefixTree.prefix_probabilities
                 (fst (PrefixTree.calculate_probs (build (of_ints iops_a_ab))))
                 ["a"; "b"]
               = Ok [("a"%string, 2 # 2); ("b"%string, 1 # 2)])
    by (vm_compute; reflexivity).
  split; [exact H1|]. split; [exact Hmax|]. split; [exact H0|].
  exact (prefix_probabilities_product iops_a_ab ["a"; "b"] _ H1 Hmax H0 H2).
Defined.

(** ** The nodes at a depth *)

Lemma iterate_by_depth_unfold (x : node) (depth : Z) (b : bool) :
  PrefixTree.iterate_by_depth x depth b
  = if bool_decide (depth = 0%Z)
       && (negb b || match children x with [] => true | _ :: _ => false end)
    then [x]
    else
      concat
        (map (fun kc => PrefixTree.iterate_by_depth (snd kc) (depth - 1)%Z b)
             (children x)).
Proof. destruct x; reflexivity. Qed.

Lemma iterate_by_depth_negative (b : bool) (x : node) :
  forall depth, (depth < 0)%Z -> PrefixTree.iterate_by_depth x depth b = [].
Proof.
  induction x as [i l f p cs IH] using node_ind. intros depth Hd.
  rewrite iterate_by_depth_unfold. cbn [children].
  rewrite bool_decide_eq_false_2 by lia. cbn [andb].
  induction IH as [|kc cs Hkc _ IHcs]; [reflexivity|].
  cbn [map concat]. rewrite Hkc by lia. exact IHcs.
Qed.

Lemma elem_of_concat_map {A B : Type} (f : A -> list B) (l : list A) (y : B) :
  y ∈ concat (map f l) <-> exists a, a ∈ l /\ y ∈ f a.
Proof.
  rewrite list_elem_of_In, in_concat. split.
  - intros [k [Hk Hy]]. apply in_map_iff in Hk as [a [<- Ha]].
    exists a. split; apply list_elem_of_In; assumption.
  - intros [a [Ha Hy]]. exists (f a).
    split; [apply in_map, list_elem_of_In, Ha|apply list_elem_of_In, Hy].
Qed.

Lemma good_child (ops : list insertion) (x : node) (kc : list string * node) :
  good ops x -> kc ∈ children x ->
  good ops (snd kc) /\ exists s, id (snd kc) = id x ++ [s].
Proof.
  intros Hg Hin. apply good_inv in Hg as (_ & _ & _ & Hk & Hc).
  rewrite Forall_forall in Hc. destruct (Hc kc Hin) as [Hid Hgc].
  split; [exact Hgc|]. rewrite <- Hid.
  apply (list_elem_of_fmap_2 fst) in Hin. apply Hk in Hin as [Hs _]. exact Hs.
Qed.

Lemma good_subnodes_length (ops : list insertion) (x : node) :
  good ops x ->
  forall y, y ∈ subnodes x -> length (id x) <= length (id y).
Proof.
  induction x as [i l f p cs IH] using node_ind. intros Hg y Hy.
  apply subnodes_inv in Hy as [->|[kc [Hin Hy]]]; [lia|].
  destruct (good_child ops _ kc Hg Hin) as [Hgc [s Hs]].
  rewrite Forall_forall in IH. specialize (IH kc Hin Hgc y Hy).
  rewrite Hs, length_app in IH. cbn in IH. cbn [id] in *. lia.
Qed.

Lemma iterate_by_depth_good (ops : list insertion) (b : bool) (x : node) :
  good ops x ->
  forall (d : nat) y,
    y ∈ PrefixTree.iterate_by_depth x (Z.of_nat d) b
    <-> y ∈ subnodes x /\ length (id y) = length (id x) + d /\
        (b = true -> children y = []).
Proof.
  induction x as [i l f p cs IH] using node_ind. intros Hg d y.
  rewrite iterate_by_depth_unfold. rewrite Forall_forall in IH.
  destruct (bool_decide (Z.of_nat d = 0%Z)
            && (negb b || match children (Node i l f p cs) with
                          | [] => true
                          | _ :: _ => false
                          end)) eqn:Hc.
  - apply andb_true_iff in Hc as [Hd Hb]. apply bool_decide_eq_true in Hd.
    assert (d = 0) as -> by lia. rewrite list_elem_of_singleton. split.
    + intros ->. split; [apply subnodes_self|]. split; [lia|].
      intros ->. cbn [children negb orb] in *.
      destruct cs; [reflexivity|discriminate].
    + intros (Hy & Hl & _).
      apply subnodes_inv in Hy as [->|[kc [Hin Hy]]]; [reflexivity|].
      destruct (good_child ops _ kc Hg Hin) as [Hgc [s Hs]].
      pose proof (good_subnodes_length ops _ Hgc y Hy) as Hle.
      rewrite Hs, length_app in Hle. cbn in Hle. cbn [id] in *. lia.
  - rewrite elem_of_concat_map. split.
    + intros [kc [Hin Hy]].
      destruct (good_child ops _ kc Hg Hin) as [Hgc [s Hs]].
      destruct d as [|d].
      * rewrite iterate_by_depth_negative in Hy by lia.
        apply elem_of_nil in Hy. contradiction.
      * replace (Z.of_nat (S d) - 1)%Z with (Z.of_nat d) in Hy by lia.
        apply (IH kc Hin Hgc) in Hy as (Hy & Hl & Hb).
        split; [eapply subnodes_child; eassumption|]. split; [|exact Hb].
        rewrite Hl, Hs, length_app. cbn [id length]. lia.
    + intros (Hy & Hl & Hb).
      apply subnodes_inv in Hy as [->|[kc [Hin Hy]]].
      * exfalso. assert (d = 0) as -> by lia.
        apply andb_false_iff in Hc as [Hc|Hc].
        -- apply bool_decide_eq_false in Hc. apply Hc. reflexivity.
        -- apply orb_false_iff in Hc as [Hc1 Hc2].
           destruct b; [|discriminate]. rewrite Hb in Hc2 by reflexivity.
           discriminate.
      * exists kc. split; [exact Hin|].
        destruct (good_child ops _ kc Hg Hin) as [Hgc [s Hs]].
        pose proof (good_subnodes_length ops _ Hgc y Hy) as Hle.
        rewrite Hs, length_app in Hle. cbn in Hle. cbn [id] in *.
        destruct d as [|d]; [lia|].
        replace (Z.of_nat (S d) - 1)%Z with (Z.of_nat d) by lia.
        apply (IH kc Hin Hgc). split; [exact Hy|]. split; [|exact Hb].
        rewrite Hs, length_app. cbn [id length] in *. lia.
Qed.

(** X8: in a tree built by [insert] calls, [iterate_by_depth] from the
    root with a depth [d] that is not negative yields exactly the nodes
    whose id has [d] symbols, with [only_terminal] those of them that have
    no children; with a negative depth it yields nothing, from any node of
    any tree. *)
Theorem iterate_by_depth_built (ops : list insertion) (d : nat) (b : bool)
    (y : node) :
  (y ∈ PrefixTree.iterate_by_depth (PrefixTree.tree (build ops)) (Z.of_nat d) b
   <-> y ∈ subnodes (PrefixTree.tree (build ops)) /\ length (id y) = d /\
       (b = true -> children y = [])) /\
  (forall x depth,
      (depth < 0)%Z -> PrefixTree.iterate_by_depth x depth b = []).
Proof.
  split; [|intros x depth; apply iterate_by_depth_negative].
  rewrite (iterate_by_depth_good ops b _ (build_good ops)).
  rewrite build_root_id. reflexivity.
Qed.

Lemma iterate_by_depth_built_witness :
  (-1 < 0)%Z /\
  PrefixTree.iterate_by_depth (PrefixTree.tree (build ops_a_ab)) (-1) true = [].
Proof.
  split; [reflexivity|].
  apply (proj2 (iterate_by_depth_built ops_a_ab 0 true node_a_of_a_ab)).
  reflexivity.
Defined.

(** ** Continuations along a sequence *)

Lemma get_continuations_nonempty (x : node) :
  1 <= length (PrefixTree.get_continuations x).
Proof.
  induction x as [i l f p cs IH] using node_ind.
  rewrite get_continuations_unfold. cbn [children].
  destruct cs as [|kc cs]; [cbn; lia|].
  apply Forall_cons in IH as [Hkc _]. cbn [map concat].
  rewrite length_app. lia.
Qed.

Lemma get_continuations_child (x : node) (kc : list string * node) :
  kc ∈ children x ->
  length (PrefixTree.get_continuations (snd kc))
  <= length (PrefixTree.get_continuations x).
Proof.
  intros Hin. rewrite (get_continuations_unfold x).
  destruct (children x) as [|kc0 cs] eqn:E;
    [apply elem_of_nil in Hin; contradiction|].
  clear E. revert Hin. generalize (kc0 :: cs). intros l Hin.
  induction l as [|a l IH]; [apply elem_of_nil in Hin; contradiction|].
  cbn [map concat]. rewrite length_app.
  apply elem_of_cons in Hin as [->|Hin]; [lia|]. specialize (IH Hin). lia.
Qed.

Lemma get_node_loop_snoc (v : list string) :
  forall n i x,
    PrefixTree.get_node_loop v i (S n) x
    = match PrefixTree.get_node_loop v i n x with
      | Ok y =>
          match dict_get (take (S (i + n)) v) (children y) with
          | Some c => Ok c
          | None => Raise KeyError
          end
      | Raise e => Raise e
      end.
Proof.
  induction n as [|n IH]; intros i x.
  - cbn [PrefixTree.get_node_loop]. rewrite Nat.add_0_r.
    destruct (dict_get _ _); reflexivity.
  - rewrite get_node_loop_S, (get_node_loop_S v i n x).
    destruct (dict_get (take (S i) v) (children x)) as [c|]; [|reflexivity].
    rewrite IH. replace (S i + n) with (i + S n) by lia. reflexivity.
Qed.

(** X9: along the nodes [get_prefixes] returns, in any tree, the number
    of continuations is at least one and never rises: from a position with
    one continuation on, every position has one. *)
Theorem continuations_along_prefixes (self : PrefixTree.t) (v : list string)
    (ps : list (string * node)) :
  PrefixTree.get_prefixes self v = Ok ps ->
  (forall j s y s' y',
      ps !! j = Some (s, y) -> ps !! (S j) = Some (s', y') ->
      1 <= length (PrefixTree.get_continuations y')
      <= length (PrefixTree.get_continuations y)) /\
  (forall j j' s y s' y',
      ps !! j = Some (s, y) -> ps !! j' = Some (s', y') -> j <= j' ->
      length (PrefixTree.get_continuations y) = 1 ->
      length (PrefixTree.get_continuations y') = 1).
Proof.
  intros H.
  destruct (get_prefixes_loop_get_node v (length v) 0 (PrefixTree.tree self) []
              (Nat.le_refl _)) as [[_ Hr]|[ps' (Hps & _ & _ & Hspec)]];
    [unfold PrefixTree.get_prefixes in H; congruence|].
  unfold PrefixTree.get_prefixes in H. rewrite Hps in H. cbn [app] in H.
  injection H as ->.
  assert (Hstep : forall j s y s' y',
             ps !! j = Some (s, y) -> ps !! (S j) = Some (s', y') ->
             1 <= length (PrefixTree.get_continuations y')
             <= length (PrefixTree.get_continuations y)).
  { intros j s y s' y' Hj Hj'.
    split; [apply get_continuations_nonempty|].
    destruct (Hspec _ _ _ Hj) as [_ Hn]. destruct (Hspec _ _ _ Hj') as [_ Hn'].
    rewrite get_node_loop_snoc, Hn in Hn'.
    destruct (dict_get _ (children y)) as [c|] eqn:E; [|discriminate].
    injection Hn' as ->.
    apply (get_continuations_child y (_, y') (dict_get_elem _ _ _ E)). }
  split; [exact Hstep|].
  intros j j' s y s' y' Hj Hj' Hle H1.
  revert s' y' Hj'. induction Hle as [|j' Hle IH]; intros s' y' Hj'.
  - rewrite Hj in Hj'. injection Hj' as _ <-. exact H1.
  - destruct (lookup_lt_is_Some_2 ps j') as [[s0 y0] H0];
      [apply lookup_lt_Some in Hj'; lia|].
    specialize (IH _ _ H0). pose proof (Hstep _ _ _ _ _ H0 Hj'). lia.
Qed.

Lemma continuations_along_prefixes_witness :
  PrefixTree.get_prefixes tree_ab_ac ["a"; "b"]
  = Ok [("a"%string, node_a_after);
        ("b"%string, Node ["a"; "b"] ["ab"] 3 None [])] /\
  forall j s y s' y',
    [("a"%string, node_a_after);
     ("b"%string, Node ["a"; "b"] ["ab"] 3 None [])] !! j = Some (s, y) ->
    [("a"%string, node_a_after);
     ("b"%string, Node ["a"; "b"] ["ab"] 3 None [])] !! (S j) = Some (s', y') ->
    1 <= length (PrefixTree.get_continuations y')
    <= length (PrefixTree.get_continuations y).
Proof.
  assert (H : PrefixTree.get_prefixes tree_ab_ac ["a"; "b"]
              = Ok [("a"%string, node_a_after);
                    ("b"%string, Node ["a"; "b"] ["ab"] 3 None [])]).
  { unfold PrefixTree.get_prefixes, tree_ab_ac. cbn [run foldl step].
    rewrite insert_tree. vm_compute. reflexivity. }
  split; [exact H|].
  exact (proj1 (continuations_along_prefixes tree_ab_ac ["a"; "b"] _ H)).
Defined.

(** ** The mass of the continuations *)

Lemma Qsum_app (a b : list Q) : (Qsum (a ++ b) == Qsum a + Qsum b)%Q.
Proof.
  induction a as [|x a IH]; cbn [app].
  - change (Qsum []) with 0%Q. ring.
  - change (Qsum (x :: a ++ b)) with (x + Qsum (a ++ b))%Q.
    change (Qsum (x :: a)) with (x + Qsum a)%Q. rewrite IH. ring.
Qed.

Lemma prefix_free_no_end (ops : list insertion) (x : node) :
  prefix_free ops -> good ops x -> children x <> [] ->
  forall c, c ∈ ops -> ins_vector c <> id x.
Proof.
  intros Hpf Hg Hcs c Hc E.
  destruct (children x) as [|kc cs] eqn:Ech; [congruence|].
  assert (Hin : kc ∈ children x) by (rewrite Ech; left).
  destruct (good_child ops x kc Hg Hin) as [_ [s Hs]].
  apply good_inv in Hg as (_ & _ & _ & Hk & Hfa).
  rewrite Forall_forall in Hfa. destruct (Hfa kc Hin) as [Hid _].
  apply (list_elem_of_fmap_2 fst) in Hin.
  apply Hk in Hin as [_ [c' [Hc' Hp]]].
  rewrite Hid, Hs in Hp.
  assert (Hpre : ins_vector c `prefix_of` ins_vector c').
  { rewrite E. eapply prefix_snoc_inv, Hp. }
  pose proof (Hpf c c' Hc Hc' Hpre) as Heq.
  rewrite <- Heq, E in Hp. apply prefix_length in Hp.
  rewrite length_app in Hp. cbn in Hp. lia.
Qed.

Lemma continuations_mass_good (ops : list insertion) (x : node) :
  prefix_free ops -> good ops x ->
  (freq x == Qsum (map snd (PrefixTree.get_continuations x)))%Q.
Proof.
  intros Hpf. induction x as [i l f p cs IH] using node_ind. intros Hg.
  rewrite get_continuations_unfold. cbn [children labels freq].
  destruct cs as [|kc cs]; [cbn; ring|].
  pose proof (prefix_free_no_end ops _ Hpf Hg ltac:(discriminate)) as Hno.
  pose proof (good_inv _ _ Hg) as (_ & Ha & _ & _ & Hc).
  cbn [freq children id] in *.
  rewrite (term_weight_none _ _ Hno), Qplus_0_r in Ha. rewrite Ha.
  clear Ha Hno Hg. revert IH Hc. generalize (kc :: cs). clear kc cs.
  intros cs IH Hc. induction cs as [|kc cs IHcs]; [reflexivity|].
  apply Forall_cons in IH as [Hkc IH]. apply Forall_cons in Hc as [[_ Hg] Hc].
  cbn [map concat]. rewrite sum_freq_cons, map_app, Qsum_app.
  rewrite (Hkc Hg), (IHcs IH Hc). reflexivity.
Qed.

(** Calls with int weights of which no sequence is a proper prefix of
    another one. *)
Lemma of_ints_prefix_free (iops : list int_insertion) :
  (forall c c',
      c ∈ iops -> c' ∈ iops ->
      int_vector c `prefix_of` int_vector c' ->
      int_vector c = int_vector c') ->
  prefix_free (of_ints iops).
Proof.
  intros H c c' Hc Hc' Hp.
  apply of_ints_elem in Hc as [ic [Hic ->]].
  apply of_ints_elem in Hc' as [ic' [Hic' ->]].
  cbn [of_int ins_vector] in *. apply (H ic ic' Hic Hic' Hp).
Qed.

Lemma iops_marked_prefix_free (c c' : int_insertion) :
  c ∈ iops_marked -> c' ∈ iops_marked ->
  int_vector c `prefix_of` int_vector c' ->
  int_vector c = int_vector c'.
Proof.
  intros Hc Hc' Hp.
  apply list_elem_of_In in Hc, Hc'. cbn in Hc, Hc'.
  destruct Hc as [<-|[<-|[]]]; destruct Hc' as [<-|[<-|[]]];
    try reflexivity; destruct Hp as [k Hk]; discriminate.
Qed.

(** ** The entropies along a sequence *)

Lemma get_node_stats_tree (self : PrefixTree.t) (y : node) :
  PrefixTree.tree (fst (PrefixTree.get_node_stats self y))
  = PrefixTree.tree self.
Proof.
  unfold PrefixTree.get_node_stats.
  destruct (PrefixTree._cache self !! id y); reflexivity.
Qed.

Lemma entropies_loop_cons (self : PrefixTree.t) (xy : string * node)
    (ps : list (string * node)) :
  PrefixTree.entropies_loop self (xy :: ps)
  = (fst (PrefixTree.entropies_loop
            (fst (PrefixTree.get_node_stats self (snd xy))) ps),
     (fst xy,
      PrefixTree.stats_entropy (snd (PrefixTree.get_node_stats self (snd xy))))
       :: snd (PrefixTree.entropies_loop
                 (fst (PrefixTree.get_node_stats self (snd xy))) ps)).
Proof.
  cbn [PrefixTree.entropies_loop].
  destruct (PrefixTree.get_node_stats self (snd xy)) as [self1 s].
  cbn [fst snd]. destruct (PrefixTree.entropies_loop self1 ps). reflexivity.
Qed.

(** What the comprehension of [prefix_entropies] leaves: the tree as it
    was, the cache with what it had and, for each node, the entry whose
    entropy was returned. *)
Lemma entropies_loop_spec (ps : list (string * node)) :
  forall self,
    PrefixTree.tree (fst (PrefixTree.entropies_loop self ps))
    = PrefixTree.tree self /\
    (forall k s,
        PrefixTree._cache self !! k = Some s ->
        PrefixTree._cache (fst (PrefixTree.entropies_loop self ps)) !! k
        = Some s) /\
    Forall2
      (fun xy xe =>
         fst xe = fst xy /\
         exists s,
           PrefixTree._cache (fst (PrefixTree.entropies_loop self ps))
             !! id (snd xy) = Some s /\
           snd xe = PrefixTree.stats_entropy s)
      ps (snd (PrefixTree.entropies_loop self ps)).
Proof.
  induction ps as [|xy ps IH]; intros self.
  - split; [reflexivity|]. split; [intros k s H; exact H|constructor].
  - rewrite entropies_loop_cons. cbn [fst snd].
    destruct (IH (fst (PrefixTree.get_node_stats self (snd xy))))
      as (Ht & Hk & HF).
    split; [rewrite Ht; apply get_node_stats_tree|]. split.
    + intros k s H. apply Hk.
      apply (step_cache_kept self (CallGetNodeStats (snd xy))), H.
    + constructor; [|exact HF]. split; [reflexivity|].
      exists (snd (PrefixTree.get_node_stats self (snd xy))).
      split; [|reflexivity]. apply Hk, get_node_stats_cached.
Qed.

Lemma entropies_loop_hit (self : PrefixTree.t) (ps : list (string * node))
    (l : list (string * R)) :
  Forall2
    (fun xy xe =>
       fst xe = fst xy /\
       exists s,
         PrefixTree._cache self !! id (snd xy) = Some s /\
         snd xe = PrefixTree.stats_entropy s)
    ps l ->
  PrefixTree.entropies_loop self ps = (self, l).
Proof.
  induction 1 as [|xy [x e] ps l [H1 [s [Hs He]]] _ IH]; [reflexivity|].
  rewrite entropies_loop_cons, (get_node_stats_hit self _ s Hs).
  cbn [fst snd] in *. rewrite IH. cbn [fst snd]. subst. reflexivity.
Qed.

Lemma entropies_loop_symbols (ps : list (string * node)) :
  forall self, map fst (snd (PrefixTree.entropies_loop self ps)) = map fst ps.
Proof.
  induction ps as [|xy ps IH]; intros self; [reflexivity|].
  rewrite entropies_loop_cons. cbn [snd map fst]. rewrite IH. reflexivity.
Qed.

Lemma prefix_entropies_unfold (self : PrefixTree.t) (v : list string) :
  PrefixTree.prefix_entropies self v
  = match PrefixTree.get_prefixes self v with
    | Raise e => (self, Raise e)
    | Ok ps =>
        (fst (PrefixTree.entropies_loop self ps),
         Ok (snd (PrefixTree.entropies_loop self ps)))
    end.
Proof.
  unfold PrefixTree.prefix_entropies.
  destruct (PrefixTree.get_prefixes self v) as [ps|e]; [|reflexivity].
  destruct (PrefixTree.entropies_loop self ps). reflexivity.
Qed.

(** X11: [prefix_entropies] does not touch the tree and only adds to the
    cache; called again on the object it left, it returns the same and
    leaves the object as it is; when it returns a list, the list has the
    symbols of the sequence in order, and when it raises, the object is
    untouched. *)
Theorem prefix_entropies_memoized (self : PrefixTree.t) (v : list string) :
  PrefixTree.tree (fst (PrefixTree.prefix_entropies self v))
  = PrefixTree.tree self /\
  (forall k s,
      PrefixTree._cache self !! k = Some s ->
      PrefixTree._cache (fst (PrefixTree.prefix_entropies self v)) !! k
      = Some s) /\
  PrefixTree.prefix_entropies (fst (PrefixTree.prefix_entropies self v)) v
  = PrefixTree.prefix_entropies self v /\
  (forall l,
      snd (PrefixTree.prefix_entropies self v) = Ok l -> map fst l = v) /\
  (forall e,
      snd (PrefixTree.prefix_entropies self v) = Raise e ->
      fst (PrefixTree.prefix_entropies self v) = self).
Proof.
  rewrite prefix_entropies_unfold.
  destruct (PrefixTree.get_prefixes self v) as [ps|e] eqn:Hps; cbn [fst snd].
  - destruct (entropies_loop_spec ps self) as (Ht & Hk & HF).
    split; [exact Ht|]. split; [exact Hk|]. split; [|split].
    + rewrite prefix_entropies_unfold.
      assert (Hps' : PrefixTree.get_prefixes
                       (fst (PrefixTree.entropies_loop self ps)) v = Ok ps).
      { unfold PrefixTree.get_prefixes in *. rewrite Ht. exact Hps. }
      rewrite Hps', (entropies_loop_hit _ ps _ HF). reflexivity.
    + intros l [= <-]. rewrite entropies_loop_symbols.
      apply (get_prefixes_symbols self v ps Hps).
    + intros e He. discriminate.
  - split; [reflexivity|]. split; [intros k s H; exact H|].
    split; [|split].
    + rewrite prefix_entropies_unfold, Hps. reflexivity.
    + intros l Hl. discriminate.
    + reflexivity.
Qed.

(** ** The bounds of the entropy *)





















(** ** The methods of [SegmentSurprisalTree] *)

Lemma get_prefixes_nil (self : PrefixTree.t) :
  PrefixTree.get_prefixes self [] = Ok [].
Proof. reflexivity. Qed.

(** X13: with [with_end=False] the sequence queried is the empty one, not
    the pronunciation without the end marker: for every word of the
    lexicon, [surprisals], [probabilities], [frequencies],
    [node_frequencies] and [entropies] return the empty list and leave the
    object as it is. *)
Theorem without_end_is_empty (self : SegmentSurprisalTree.t) (word : string)
    (pron : list string) :
  SegmentSurprisalTree.pronunciations self !! word = Some pron ->
  SegmentSurprisalTree.surprisals self word false = Ok [] /\
  SegmentSurprisalTree.probabilities self word false = Ok [] /\
  SegmentSurprisalTree.frequencies self word false = Ok [] /\
  SegmentSurprisalTree.node_frequencies self word false = Ok [] /\
  SegmentSurprisalTree.entropies self word false = (self, Ok []).
Proof.
  intros H.
  unfold SegmentSurprisalTree.surprisals, SegmentSurprisalTree.probabilities,
    SegmentSurprisalTree.frequencies, SegmentSurprisalTree.node_frequencies,
    SegmentSurprisalTree.entropies.
  rewrite H. cbn [SegmentSurprisalTree.word_vector].
  repeat split. destruct self as [[tr ca] pr]. reflexivity.
Qed.

Lemma without_end_is_empty_witness :
  SegmentSurprisalTree.pronunciations lexicon !! "understand"%string
  = Some pron_understand /\
  SegmentSurprisalTree.frequencies lexicon "understand" false = Ok [].
Proof.
  assert (H : SegmentSurprisalTree.pronunciations lexicon !! "understand"%string
              = Some pron_understand) by (vm_compute; reflexivity).
  split; [exact H|].
  exact (proj1 (proj2 (proj2 (without_end_is_empty lexicon _ _ H)))).
Defined.

Lemma comprehension_symbols {B : Type}
    (g : string * node -> result (string * B)) :
  (forall a b, g a = Ok b -> fst b = fst a) ->
  forall ps l, PrefixTree.comprehension g ps = Ok l -> map fst l = map fst ps.
Proof.
  intros Hg. induction ps as [|a ps IH]; intros l H; cbn in H.
  - injection H as <-. reflexivity.
  - destruct (g a) as [b|e] eqn:E; [|discriminate].
    destruct (PrefixTree.comprehension g ps) as [bs|e]; [|discriminate].
    injection H as <-. cbn [map]. rewrite (Hg a b E), (IH bs eq_refl).
    reflexivity.
Qed.

(** X14: with [with_end=True], what [frequencies], [probabilities] and
    [surprisals] return for a word has one pair for each phoneme of the
    word and one for the end marker, in that order. *)
Theorem with_end_symbols (self : SegmentSurprisalTree.t) (word : string)
    (pron : list string) :
  SegmentSurprisalTree.pronunciations self !! word = Some pron ->
  (forall l, SegmentSurprisalTree.frequencies self word true = Ok l ->
             map fst l = pron ++ ["#"%string]) /\
  (forall l, SegmentSurprisalTree.probabilities self word true = Ok l ->
             map fst l = pron ++ ["#"%string]) /\
  (forall l, SegmentSurprisalTree.surprisals self word true = Ok l ->
             map fst l = pron ++ ["#"%string]).
Proof.
  intros H.
  unfold SegmentSurprisalTree.surprisals, SegmentSurprisalTree.probabilities,
    SegmentSurprisalTree.frequencies.
  rewrite H. cbn [SegmentSurprisalTree.word_vector].
  set (v := pron ++ ["#"%string]).
  unfold PrefixTree.prefix_frequencies, PrefixTree.prefix_probabilities,
    PrefixTree.prefix_surprisals.
  destruct (PrefixTree.get_prefixes (SegmentSurprisalTree.tree self) v)
    as [ps|e] eqn:Hps; [|split; [|split]; intros l Hl; discriminate].
  pose proof (get_prefixes_symbols _ _ _ Hps) as Hsym.
  split; [|split]; intros l Hl.
  - injection Hl as <-. rewrite map_map. exact Hsym.
  - rewrite <- Hsym. eapply comprehension_symbols; [|exact Hl].
    intros a b Hab. cbn beta in Hab.
    destruct (PrefixTree.get_prob (snd a)); [|discriminate].
    injection Hab as <-. reflexivity.
  - rewrite <- Hsym. eapply comprehension_symbols; [|exact Hl].
    intros a b Hab. cbn beta in Hab.
    destruct (PrefixTree.get_prob (snd a)); [|discriminate].
    injection Hab as <-. reflexivity.
Qed.

Lemma with_end_symbols_witness :
  SegmentSurprisalTree.pronunciations lexicon !! "understood"%string
  = Some pron_understood /\
  forall l,
    SegmentSurprisalTree.frequencies lexicon "understood" true = Ok l ->
    map fst l = pron_understood ++ ["#"%string].
Proof.
  assert (H : SegmentSurprisalTree.pronunciations lexicon !! "understood"%string
              = Some pron_understood) by (vm_compute; reflexivity).
  split; [exact H|].
  exact (proj1 (with_end_symbols lexicon _ _ H)).
Defined.

(** ** The dict of [get_word_continuations] *)

Lemma pretty_N_char_no_underscore (x : N) :
  pretty_N_char x <> Ascii.ascii_of_nat 95.
Proof. unfold pretty_N_char. repeat case_match; discriminate. Qed.

Lemma pretty_N_go_no_underscore (x : N) :
  forall s, no_underscore s -> no_underscore (pretty_N_go x s).
Proof.
  induction (N.lt_wf_0 x) as [x _ IH]. intros s Hs.
  destruct (decide (0 < x)%N) as [Hx|Hx].
  - rewrite pretty_N_go_step by exact Hx. apply IH.
    + apply N.div_lt; [exact Hx|reflexivity].
    + split; [apply pretty_N_char_no_underscore|exact Hs].
  - assert (x = 0%N) as -> by lia. rewrite pretty_N_go_0. exact Hs.
Qed.

Lemma pretty_nat_no_underscore (n : nat) : no_underscore (pretty n).
Proof.
  unfold pretty, pretty_nat, pretty, pretty_N.
  destruct (decide _); [split; [discriminate|exact I]|].
  apply pretty_N_go_no_underscore. exact I.
Qed.

Lemma underscore_split (a : string) :
  forall b r r',
    no_underscore a -> no_underscore b ->
    a +:+ String (Ascii.ascii_of_nat 95) r = b +:+ String (Ascii.ascii_of_nat 95) r' ->
    a = b /\ r = r'.
Proof.
  induction a as [|c a IH]; intros [|c' b] r r' Ha Hb H; cbn in H.
  - injection H as ->. split; reflexivity.
  - injection H as <- _. destruct Hb as [Hb _]. congruence.
  - injection H as -> _. destruct Ha as [Ha _]. congruence.
  - injection H as -> H. destruct Ha as [_ Ha], Hb as [_ Hb].
    destruct (IH b r r' Ha Hb H) as [-> ->]. split; reflexivity.
Qed.

(** A key tells its position and its symbol. *)
Lemma key_inj (n m : nat) (x x' : string) :
  SegmentSurprisalTree.key n x = SegmentSurprisalTree.key m x' ->
  n = m /\ x = x'.
Proof.
  unfold SegmentSurprisalTree.key. intros H.
  apply underscore_split in H as [Hp ->];
    [|apply pretty_nat_no_underscore..].
  split; [|reflexivity]. apply (inj pretty), Hp.
Qed.

Lemma keys_from_NoDup (ps : list (string * node)) :
  forall n, NoDup (keys_from n ps).
Proof.
  induction ps as [|xy ps IH]; intros n; cbn [keys_from]; constructor.
  - intros Hk. destruct (keys_from_elem _ _ _ Hk) as [m [x [E Hm]]].
    apply key_inj in E as [-> _]. lia.
  - apply IH.
Qed.

Lemma keys_from_lookup (ps : list (string * node)) :
  forall n k,
    k ∈ keys_from n ps
    <-> exists j s y,
        ps !! j = Some (s, y) /\ k = SegmentSurprisalTree.key (n + j) s.
Proof.
  induction ps as [|[s0 y0] ps IH]; intros n k; cbn [keys_from fst].
  - split; [intros H; apply elem_of_nil in H; contradiction|].
    intros (j & s & y & H & _). discriminate.
  - rewrite elem_of_cons, IH. split.
    + intros [->|(j & s & y & Hj & ->)].
      * exists 0, s0, y0. rewrite Nat.add_0_r. split; reflexivity.
      * exists (S j), s, y. split; [exact Hj|]. f_equal. lia.
    + intros ([|j] & s & y & Hj & ->); cbn in Hj.
      * injection Hj as -> ->. left. rewrite Nat.add_0_r. reflexivity.
      * right. exists j, s, y. split; [exact Hj|]. f_equal. lia.
Qed.

Lemma keys_from_length (ps : list (string * node)) :
  forall n, length (keys_from n ps) = length ps.
Proof.
  induction ps as [|xy ps IH]; intros n; [reflexivity|].
  cbn. rewrite IH. reflexivity.
Qed.

(** The keys of the dict the loop leaves, started on the empty dict. *)
Lemma loop_keys (ps : list (string * node)) :
  map fst (map_to_list
             (fst (foldl SegmentSurprisalTree.loop_body (∅, 0) ps)))
  ≡ₚ keys_from 0 ps.
Proof.
  apply NoDup_Permutation;
    [apply NoDup_fst_map_to_list|apply keys_from_NoDup|].
  intros k.
  transitivity (is_Some (fst (foldl SegmentSurprisalTree.loop_body (∅, 0) ps)
                           !! k)).
  - rewrite list_elem_of_fmap. split.
    + intros [[k' v] [-> Hkv]]. apply elem_of_map_to_list in Hkv.
      exists v. exact Hkv.
    + intros [v Hv]. exists (k, v). split; [reflexivity|].
      apply elem_of_map_to_list. exact Hv.
  - rewrite loop_domain, lookup_empty. split.
    + intros [[v Hv]|H]; [discriminate|exact H].
    + intros H. right. exact H.
Qed.

(** The dict [get_word_continuations] returns, and its errors. *)
Lemma get_word_continuations_dict (self : SegmentSurprisalTree.t)
    (word : string) :
  match SegmentSurprisalTree.pronunciations self !! word with
  | None =>
      SegmentSurprisalTree.get_word_continuations self word
      = Raise NotImplementedError
  | Some pron =>
      match PrefixTree.get_prefixes (SegmentSurprisalTree.tree self)
              (pron ++ ["#"%string]) with
      | Raise e => SegmentSurprisalTree.get_word_continuations self word = Raise e
      | Ok ps =>
          exists d,
            SegmentSurprisalTree.get_word_continuations self word = Ok d /\
            size d = length pron + 1 /\
            (forall j s y,
                ps !! j = Some (s, y) ->
                d !! SegmentSurprisalTree.key j s
                = Some (map snd (PrefixTree.get_continuations y))) /\
            (forall k,
                is_Some (d !! k)
                <-> exists j s y,
                    ps !! j = Some (s, y) /\
                    k = SegmentSurprisalTree.key j s)
      end
  end.
Proof.
  unfold SegmentSurprisalTree.get_word_continuations.
  destruct (SegmentSurprisalTree.pronunciations self !! word) as [pron|];
    [|reflexivity].
  destruct (PrefixTree.get_prefixes _ _) as [ps|e] eqn:Hps; [|reflexivity].
  eexists. split; [reflexivity|]. split; [|split].
  - rewrite <- length_map_to_list, <- (length_map fst), loop_keys.
    rewrite keys_from_length.
    apply get_prefixes_symbols in Hps. apply (f_equal length) in Hps.
    rewrite length_map, length_app in Hps. exact Hps.
  - intros j s y Hj.
    apply (loop_writes ps ∅ 0 j s y (keys_from_NoDup ps 0) Hj).
  - intros k. rewrite loop_domain, lookup_empty, keys_from_lookup. split.
    + intros [[v Hv]|H]; [discriminate|exact H].
    + intros H. right. exact H.
Qed.

(** X15: [get_word_continuations] raises [NotImplementedError] for a word
    the lexicon does not have and [KeyError] when the terminated sequence
    of the word is not in the tree; otherwise the dict it returns has one
    entry for each position of the terminated sequence, whatever its
    length: under the key of the position index and the symbol, the
    frequencies of the continuations of the node of that position. *)
Theorem get_word_continuations_entries (self : SegmentSurprisalTree.t)
    (word : string) :
  match SegmentSurprisalTree.pronunciations self !! word with
  | None =>
      SegmentSurprisalTree.get_word_continuations self word
      = Raise NotImplementedError
  | Some pron =>
      match PrefixTree.get_prefixes (SegmentSurprisalTree.tree self)
              (pron ++ ["#"%string]) with
      | Raise e => SegmentSurprisalTree.get_word_continuations self word = Raise e
      | Ok ps =>
          exists d,
            SegmentSurprisalTree.get_word_continuations self word = Ok d /\
            size d = length pron + 1 /\
            (forall j s y,
                ps !! j = Some (s, y) ->
                d !! SegmentSurprisalTree.key j s
                = Some (map snd (PrefixTree.get_continuations y))) /\
            (forall k,
                is_Some (d !! k)
                <-> exists j s y,
                    ps !! j = Some (s, y) /\
                    k = SegmentSurprisalTree.key j s)
      end
  end.
Proof. exact (get_word_continuations_dict self word). Qed.

(** ** The outcome of [get_uniqueness_point] *)

Lemma scan_outcome (d : gmap string (list Q)) :
  forall L n,
    (forall k, k ∈ L -> is_Some (d !! k)) ->
    (exists m k c,
        SegmentSurprisalTree.scan d n L = Ok (m, k) /\ k ∈ L /\
        d !! k = Some c /\ length c = 1 /\ n <= m < n + length L)
    \/
    (SegmentSurprisalTree.scan d n L = Raise ValueError /\
     forall k c, k ∈ L -> d !! k = Some c -> length c <> 1).
Proof.
  induction L as [|k L IH]; intros n Hdom.
  - right. split; [reflexivity|].
    intros k c Hk. apply elem_of_nil in Hk. contradiction.
  - cbn [SegmentSurprisalTree.scan].
    destruct (Hdom k ltac:(left)) as [c Hc]. rewrite Hc.
    destruct (decide (length c = 1)) as [H1|H1].
    + left. exists n, k, c. split; [reflexivity|]. split; [left|].
      split; [exact Hc|]. split; [exact H1|cbn; lia].
    + destruct (IH (S n) (fun k' Hk' => Hdom k' ltac:(right; exact Hk')))
        as [(m & k' & c' & Hs & Hk' & Hc' & Hl & Hm)|[Hs Hall]].
      * left. exists m, k', c'. split; [exact Hs|]. split; [right; exact Hk'|].
        split; [exact Hc'|]. split; [exact Hl|cbn; lia].
      * right. split; [exact Hs|]. intros k' c' Hk' Hc'.
        apply elem_of_cons in Hk' as [->|Hk']; [congruence|].
        apply (Hall k' c' Hk' Hc').
Qed.

(** The two outcomes of [get_uniqueness_point]. *)
Lemma get_uniqueness_point_cases (self : SegmentSurprisalTree.t)
    (word : string) (pron : list string) (ps : list (string * node)) :
  SegmentSurprisalTree.pronunciations self !! word = Some pron ->
  PrefixTree.get_prefixes (SegmentSurprisalTree.tree self)
    (pron ++ ["#"%string]) = Ok ps ->
  ((exists n j s y,
       SegmentSurprisalTree.get_uniqueness_point self word
       = Ok (n, SegmentSurprisalTree.key j s) /\
       ps !! j = Some (s, y) /\
       length (PrefixTree.get_continuations y) = 1 /\
       n < length ps)
   \/
   (SegmentSurprisalTree.get_uniqueness_point self word = Raise ValueError /\
    forall j s y,
      ps !! j = Some (s, y) ->
      length (PrefixTree.get_continuations y) <> 1)) /\
  (forall s y,
      last ps = Some (s, y) -> children y = [] ->
      is_ok (SegmentSurprisalTree.get_uniqueness_point self word) = true).
Proof.
  intros Hw Hps.
  pose proof (get_word_continuations_dict self word) as He.
  rewrite Hw, Hps in He. destruct He as (d & Hd & _ & Hlook & Hdom).
  unfold SegmentSurprisalTree.get_uniqueness_point. rewrite Hd.
  set (L := SegmentSurprisalTree.sort (map fst (map_to_list d))).
  assert (HL : forall k, k ∈ L <-> is_Some (d !! k)).
  { intros k. unfold L, SegmentSurprisalTree.sort.
    rewrite merge_sort_Permutation, list_elem_of_fmap. split.
    - intros [[k' v] [-> Hkv]]. apply elem_of_map_to_list in Hkv.
      exists v. exact Hkv.
    - intros [v Hv]. exists (k, v). split; [reflexivity|].
      apply elem_of_map_to_list. exact Hv. }
  assert (HLlen : length L = length ps).
  { unfold L, SegmentSurprisalTree.sort.
    rewrite merge_sort_Permutation, length_map, length_map_to_list.
    pose proof (get_word_continuations_dict self word) as He.
    rewrite Hw, Hps, Hd in He. destruct He as (d' & [= <-] & Hsz & _).
    rewrite Hsz. apply get_prefixes_symbols in Hps.
    apply (f_equal length) in Hps. rewrite length_map, length_app in Hps.
    cbn in Hps. lia. }
  assert (Hout :
    (exists n j s y,
        SegmentSurprisalTree.scan d 0 L = Ok (n, SegmentSurprisalTree.key j s) /\
        ps !! j = Some (s, y) /\
        length (PrefixTree.get_continuations y) = 1 /\ n < length ps)
    \/
    (SegmentSurprisalTree.scan d 0 L = Raise ValueError /\
     forall j s y,
       ps !! j = Some (s, y) ->
       length (PrefixTree.get_continuations y) <> 1)).
  { destruct (scan_outcome d L 0 (fun k Hk => proj1 (HL k) Hk))
      as [(m & k & c & Hs & Hk & Hc & Hl & Hm)|[Hs Hall]].
    - left. apply HL, Hdom in Hk as (j & s & y & Hj & ->).
      exists m, j, s, y. split; [exact Hs|]. split; [exact Hj|].
      rewrite (Hlook j s y Hj) in Hc. injection Hc as <-.
      rewrite length_map in Hl. split; [exact Hl|lia].
    - right. split; [exact Hs|]. intros j s y Hj H1.
      apply (Hall (SegmentSurprisalTree.key j s) _
               (proj2 (HL _) (ex_intro _ _ (Hlook j s y Hj)))
               (Hlook j s y Hj)).
      rewrite length_map. exact H1. }
  split; [exact Hout|].
  intros s y Hlast Hleaf.
  destruct Hout as [(n & j & s' & y' & -> & _)|[_ Hall]]; [reflexivity|].
  exfalso. rewrite last_lookup in Hlast.
  apply (Hall _ s y Hlast).
  rewrite get_continuations_unfold, Hleaf. reflexivity.
Qed.

(** X16: for a word of the lexicon whose terminated sequence is in the
    tree, of any length, [get_uniqueness_point] either returns an index
    below the number of positions with the key of a position whose node has
    exactly one continuation, or raises [ValueError], and then no position
    has exactly one continuation; it returns when the node of the whole
    terminated sequence has no children. *)
Theorem get_uniqueness_point_outcome (self : SegmentSurprisalTree.t)
    (word : string) (pron : list string) (ps : list (string * node)) :
  SegmentSurprisalTree.pronunciations self !! word = Some pron ->
  PrefixTree.get_prefixes (SegmentSurprisalTree.tree self)
    (pron ++ ["#"%string]) = Ok ps ->
  ((exists n j s y,
       SegmentSurprisalTree.get_uniqueness_point self word
       = Ok (n, SegmentSurprisalTree.key j s) /\
       ps !! j = Some (s, y) /\
       length (PrefixTree.get_continuations y) = 1 /\
       n < length ps)
   \/
   (SegmentSurprisalTree.get_uniqueness_point self word = Raise ValueError /\
    forall j s y,
      ps !! j = Some (s, y) ->
      length (PrefixTree.get_continuations y) <> 1)) /\
  (forall s y,
      last ps = Some (s, y) -> children y = [] ->
      is_ok (SegmentSurprisalTree.get_uniqueness_point self word) = true).
Proof. exact (get_uniqueness_point_cases self word pron ps). Qed.

Lemma get_uniqueness_point_outcome_witness :
  SegmentSurprisalTree.pronunciations lexicon !! "understanding"%string
  = Some pron_understanding /\
  is_ok (PrefixTree.get_prefixes (SegmentSurprisalTree.tree lexicon)
           (pron_understanding ++ ["#"%string])) = true /\
  is_ok (SegmentSurprisalTree.get_uniqueness_point lexicon "understanding")
  = true.
Proof.
  assert (H : SegmentSurprisalTree.pronunciations lexicon !! "understanding"%string
              = Some pron_understanding) by (vm_compute; reflexivity).
  split; [exact H|].
  destruct (PrefixTree.get_prefixes (SegmentSurprisalTree.tree lexicon)
              (pron_understanding ++ ["#"%string])) as [ps|e] eqn:Hps;
    [|vm_compute in Hps; discriminate].
  split; [reflexivity|].
  destruct (proj1 (get_uniqueness_point_outcome lexicon _ _ ps H Hps))
    as [(n & j & s & y & -> & _)|[_ Hall]]; [reflexivity|].
  exfalso. assert (Hl : exists s y, last ps = Some (s, y) /\ children y = []).
  { vm_compute in Hps. injection Hps as <-. eexists _, _.
    split; reflexivity. }
  destruct Hl as (s & y & Hlast & Hleaf). rewrite last_lookup in Hlast.
  apply (Hall _ s y Hlast). rewrite get_continuations_unfold, Hleaf.
  reflexivity.
Defined.

(** ** The transcription *)

Lemma literal_get_value {K V : Type} `{EqDecision K} (k : K)
    (d : list (K * V)) (v : V) :
  ELP2CMU.literal_get k d = Some v -> v ∈ map snd d.
Proof.
  induction d as [|[k' v'] d IH]; cbn [ELP2CMU.literal_get]; [discriminate|].
  destruct (ELP2CMU.literal_get k d) as [v0|].
  - intros [= <-]. right. apply IH. reflexivity.
  - destruct (decide (k = k')); [|discriminate]. intros [= <-]. left.
Qed.

Lemma phoneme_of_cons (c : Ascii.ascii) (s : string) (p : string) :
  phoneme_of s p -> phoneme_of (String c s) p.
Proof.
  intros [H|[H|[H|(c0 & Hc & Hs & Hp)]]]; [left|right; left|right; right; left|];
    try exact H.
  right. right. right. exists c0. split; [right; exact Hc|].
  split; assumption.
Qed.

Lemma one_character_out (c : Ascii.ascii) (s : string) (res : list string) :
  ELP2CMU.skipped c = false ->
  exists out,
    ELP2CMU.one_character c res = res ++ out /\ length out <= 1 /\
    Forall (phoneme_of (String c s)) out.
Proof.
  intros Hs. unfold ELP2CMU.one_character.
  destruct (ELP2CMU.literal_get _ ELP2CMU.single) as [p|] eqn:E.
  - exists [p]. split; [reflexivity|]. split; [cbn; lia|].
    constructor; [|constructor]. right. left.
    apply (literal_get_value _ _ _ E).
  - destruct (_ && _).
    + exists []. rewrite app_nil_r. split; [reflexivity|].
      split; [cbn; lia|constructor].
    + eexists [_]. split; [reflexivity|]. split; [cbn; lia|].
      constructor; [|constructor]. right. right. right.
      exists c. split; [left|]. split; [exact Hs|reflexivity].
Qed.

Lemma translate_loop_cons (c : Ascii.ascii) (s1 : string) (res : list string) :
  ELP2CMU.translate_loop (String c s1) res
  = if ELP2CMU.skipped c then ELP2CMU.translate_loop s1 res
    else
      match s1 with
      | String c2 s2 =>
          match ELP2CMU.literal_get (String c (String c2 EmptyString))
                  ELP2CMU.double with
          | Some p => ELP2CMU.translate_loop s2 (res ++ [p])
          | None =>
              if bool_decide (c2 = Ascii.ascii_of_nat 61)
              then ELP2CMU.translate_loop s2
                     (res ++ ["AH"%string;
                              String (ELP2CMU.upper c) EmptyString])
              else ELP2CMU.translate_loop s1 (ELP2CMU.one_character c res)
          end
      | EmptyString => ELP2CMU.translate_loop s1 (ELP2CMU.one_character c res)
      end.
Proof. reflexivity. Qed.

(** What the loop appends: it keeps [res], appends at most one phoneme for
    each character it reads, and every phoneme it appends is one of
    [phoneme_of]. *)
Lemma translate_loop_out (s : string) :
  (forall res,
      exists out,
        ELP2CMU.translate_loop s res = res ++ out /\
        length out <= String.length s /\ Forall (phoneme_of s) out) /\
  (forall c res,
      exists out,
        ELP2CMU.translate_loop (String c s) res = res ++ out /\
        length out <= S (String.length s) /\
        Forall (phoneme_of (String c s)) out).
Proof.
  induction s as [|c' s [IH1 IH2]].
  - split.
    + intros res. exists []. rewrite app_nil_r. split; [reflexivity|].
      split; [cbn; lia|constructor].
    + intros c res. rewrite translate_loop_cons.
      cbn [ELP2CMU.translate_loop].
      destruct (ELP2CMU.skipped c) eqn:Hs.
      * exists []. rewrite app_nil_r. split; [reflexivity|].
        split; [cbn; lia|constructor].
      * destruct (one_character_out c EmptyString res Hs) as (out & -> & Hl & HF).
        exists out. split; [reflexivity|]. split; [cbn; lia|exact HF].
  - split; [exact (IH2 c')|].
    intros c res. rewrite translate_loop_cons.
    destruct (ELP2CMU.skipped c) eqn:Hs.
    + destruct (IH2 c' res) as (out & -> & Hl & HF).
      exists out. split; [reflexivity|]. split; [cbn in *; lia|].
      eapply Forall_impl; [exact HF|]. intros p. apply phoneme_of_cons.
    + destruct (ELP2CMU.literal_get (String c (String c' EmptyString))
                  ELP2CMU.double) as [p|] eqn:E.
      * destruct (IH1 (res ++ [p])) as (out & -> & Hl & HF).
        exists (p :: out). rewrite <- app_assoc. split; [reflexivity|].
        split; [cbn in *; lia|]. constructor.
        -- left. apply (literal_get_value _ _ _ E).
        -- eapply Forall_impl; [exact HF|]. intros q Hq.
           apply phoneme_of_cons, phoneme_of_cons, Hq.
      * destruct (bool_decide _).
        -- destruct (IH1 (res ++ ["AH"%string;
                                   String (ELP2CMU.upper c) EmptyString]))
             as (out & -> & Hl & HF).
           eexists (_ :: _ :: out). rewrite <- app_assoc.
           split; [reflexivity|]. split; [cbn in *; lia|].
           constructor; [right; right; left; reflexivity|].
           constructor.
           ++ right. right. right. exists c. split; [left|].
              split; [exact Hs|reflexivity].
           ++ eapply Forall_impl; [exact HF|]. intros q Hq.
              apply phoneme_of_cons, phoneme_of_cons, Hq.
        -- destruct (one_character_out c (String c' s) res Hs)
             as (out1 & -> & Hl1 & HF1).
           destruct (IH2 c' (res ++ out1)) as (out & -> & Hl & HF).
           exists (out1 ++ out). rewrite <- app_assoc.
           split; [reflexivity|]. split; [rewrite length_app; cbn in *; lia|].
           apply Forall_app. split; [exact HF1|].
           eapply Forall_impl; [exact HF|]. intros q. apply phoneme_of_cons.
Qed.

Lemma upper_not_lower (c : Ascii.ascii) : ~ lower_case (ELP2CMU.upper c).
Proof.
  unfold ELP2CMU.upper, lower_case.
  destruct (bool_decide _) eqn:E.
  - apply bool_decide_eq_true in E.
    rewrite Ascii.nat_ascii_embedding by lia. lia.
  - apply bool_decide_eq_false in E. exact E.
Qed.

Lemma upper_marker (c : Ascii.ascii) : ELP2CMU.upper c = marker -> c = marker.
Proof.
  unfold ELP2CMU.upper. destruct (bool_decide _) eqn:E; [|tauto].
  apply bool_decide_eq_true in E. intros H.
  apply (f_equal Ascii.nat_of_ascii) in H.
  rewrite Ascii.nat_ascii_embedding in H by lia.
  unfold marker in H. rewrite Ascii.nat_ascii_embedding in H by lia. lia.
Qed.

(** X17: [translate] returns at most one phoneme for each character of
    its argument; no phoneme it returns has a lower-case letter; and it
    returns the end marker ['#'] only when its argument has the character
    [#]. *)
Theorem translate_phonemes (s : string) :
  length (ELP2CMU.translate s) <= String.length s /\
  (forall p c, p ∈ ELP2CMU.translate s -> c ∈ chars p -> ~ lower_case c) /\
  ("#"%string ∈ ELP2CMU.translate s -> marker ∈ chars s).
Proof.
  unfold ELP2CMU.translate.
  destruct (proj1 (translate_loop_out s) []) as (out & -> & Hl & HF).
  cbn [app]. rewrite Forall_forall in HF.
  split; [exact Hl|]. split.
  - intros p c Hp Hc.
    destruct (HF p Hp) as [H|[H|[->|(c0 & _ & _ & ->)]]].
    + revert c Hc. apply list_elem_of_In in H. cbn in H.
      repeat (destruct H as [<-|H];
              [intros c Hc; apply list_elem_of_In in Hc; cbn in Hc;
               repeat (destruct Hc as [<-|Hc]; [vm_compute; lia|]);
               contradiction|]).
      contradiction.
    + revert c Hc. apply list_elem_of_In in H. cbn in H.
      repeat (destruct H as [<-|H];
              [intros c Hc; apply list_elem_of_In in Hc; cbn in Hc;
               repeat (destruct Hc as [<-|Hc]; [vm_compute; lia|]);
               contradiction|]).
      contradiction.
    + apply list_elem_of_In in Hc. cbn in Hc.
      repeat (destruct Hc as [<-|Hc]; [vm_compute; lia|]). contradiction.
    + apply list_elem_of_In in Hc. cbn in Hc.
      destruct Hc as [<-|[]]. apply upper_not_lower.
  - intros Hp.
    destruct (HF _ Hp) as [H|[H|[H|(c0 & Hc0 & _ & H)]]].
    + apply list_elem_of_In in H. cbn in H.
      repeat (destruct H as [H|H]; [discriminate|]). contradiction.
    + apply list_elem_of_In in H. cbn in H.
      repeat (destruct H as [H|H]; [discriminate|]). contradiction.
    + discriminate.
    + injection H as H. symmetry in H. apply upper_marker in H.
      rewrite <- H. exact Hc0.
Qed.

(** ** Reading the lexicon *)

Lemma build_from_cons (self : PrefixTree.t) (c : insertion)
    (ops : list insertion) :
  build_from self (c :: ops)
  = build_from
      (fst (PrefixTree.insert self (ins_vector c) (ins_weight c) (ins_label c)))
      ops.
Proof. reflexivity. Qed.

Lemma inserted_rows_cons (x : SegmentSurprisalTree.row)
    (words : list SegmentSurprisalTree.row) :
  inserted_rows (x :: words)
  = if decide (SegmentSurprisalTree.SUBTLWF x ∉ ["0"; "NULL"]%string)
    then x :: inserted_rows words else inserted_rows words.
Proof. unfold inserted_rows. rewrite filter_cons. reflexivity. Qed.

(** The loop of [read_elp], when every frequency to read is a number. *)
Lemma read_elp_loop_parses (float : string -> result Q)
    (words : list SegmentSurprisalTree.row) :
  forall self pr,
    (forall x,
        x ∈ words ->
        SegmentSurprisalTree.SUBTLWF x ∉ ["0"; "NULL"]%string ->
        exists w, float (SegmentSurprisalTree.SUBTLWF x) = Ok w) ->
    SegmentSurprisalTree.read_elp_loop float (self, pr) words
    = ((build_from self (ops_of float words), prons_of words pr), Ok tt).
Proof.
  induction words as [|x words IH]; intros self pr H; [reflexivity|].
  cbn [SegmentSurprisalTree.read_elp_loop].
  unfold SegmentSurprisalTree.read_elp_row, ops_of.
  rewrite inserted_rows_cons. cbn [fst snd].
  destruct (decide (SegmentSurprisalTree.SUBTLWF x ∉ ["0"; "NULL"]%string))
    as [Hs|Hs].
  - rewrite bool_decide_eq_true_2 by exact Hs.
    destruct (H x ltac:(left) Hs) as [w Hw]. rewrite Hw.
    rewrite IH by (intros y Hy; apply H; right; exact Hy).
    cbn [map]. rewrite build_from_cons. unfold row_insertion at 2 3 4.
    cbn [ins_vector ins_weight ins_label]. rewrite Hw. reflexivity.
  - rewrite bool_decide_eq_false_2 by exact Hs.
    rewrite IH by (intros y Hy; apply H; right; exact Hy). reflexivity.
Qed.

Lemma prons_of_snoc (words : list SegmentSurprisalTree.row)
    (x : SegmentSurprisalTree.row) (pr : gmap string (list string)) :
  prons_of (words ++ [x]) pr
  = <[SegmentSurprisalTree.Word x
      := ELP2CMU.translate (SegmentSurprisalTree.Pron x)]> (prons_of words pr).
Proof. unfold prons_of. rewrite foldl_app. reflexivity. Qed.

Lemma prons_of_other (words : list SegmentSurprisalTree.row) (w : string)
    (pr : gmap string (list string)) :
  (forall y, y ∈ words -> SegmentSurprisalTree.Word y <> w) ->
  prons_of words pr !! w = pr !! w.
Proof.
  induction words as [|x words IH] using rev_ind; intros H; [reflexivity|].
  rewrite prons_of_snoc, lookup_insert_ne.
  - apply IH. intros y Hy. apply H, elem_of_app. left. exact Hy.
  - apply H, elem_of_app. right. left.
Qed.

Lemma prons_of_last (pre post : list SegmentSurprisalTree.row)
    (x : SegmentSurprisalTree.row) (pr : gmap string (list string)) :
  (forall y, y ∈ post ->
             SegmentSurprisalTree.Word y <> SegmentSurprisalTree.Word x) ->
  prons_of (pre ++ x :: post) pr !! SegmentSurprisalTree.Word x
  = Some (ELP2CMU.translate (SegmentSurprisalTree.Pron x)).
Proof.
  intros H. unfold prons_of. rewrite foldl_app. cbn [foldl].
  fold (prons_of pre pr).
  change (prons_of post
            (<[SegmentSurprisalTree.Word x
               := ELP2CMU.translate (SegmentSurprisalTree.Pron x)]>
               (prons_of pre pr))
            !! SegmentSurprisalTree.Word x
          = Some (ELP2CMU.translate (SegmentSurprisalTree.Pron x))).
  rewrite prons_of_other by exact H. apply lookup_insert_eq.
Qed.

Lemma ops_of_positive (float : string -> result Q)
    (words : list SegmentSurprisalTree.row) :
  parses_positive float words ->
  Forall (fun c => (0 < ins_weight c)%Q) (ops_of float words).
Proof.
  intros H. unfold ops_of. rewrite Forall_map, Forall_forall.
  intros x Hx. unfold inserted_rows in Hx.
  apply list_elem_of_filter in Hx as [Hs Hx].
  destruct (H x Hx Hs) as [w [Hw Hpos]].
  unfold row_insertion. cbn [ins_weight]. rewrite Hw. exact Hpos.
Qed.

(** What [read_elp] returns on rows whose frequencies parse to positive
    numbers. *)
Lemma read_elp_parses (float : string -> result Q)
    (words : list SegmentSurprisalTree.row) :
  parses_positive float words ->
  SegmentSurprisalTree.read_elp float words
  = (SegmentSurprisalTree.Make
       (fst (PrefixTree.calculate_probs (build (ops_of float words))))
       (prons_of words ∅),
     Ok tt).
Proof.
  intros H. unfold SegmentSurprisalTree.read_elp.
  rewrite read_elp_loop_parses.
  - cbn [fst snd]. fold (build (ops_of float words)).
    rewrite (calculate_probs_build _ (ops_of_positive float words H)).
    reflexivity.
  - intros x Hx Hs. destruct (H x Hx Hs) as [w [Hw _]]. exists w. exact Hw.
Qed.

(** X18: on rows whose frequency fields, the texts [0] and [NULL] apart,
    are texts of positive numbers, [read_elp] raises nothing; the tree it
    leaves is the tree built by inserting, for each row whose field is
    neither [0] nor [NULL], in order, the translated pronunciation followed
    by the end marker with the frequency and the word, and passed through
    [calculate_probs]; the dict has every word of the rows, those not
    inserted as well, with the translated pronunciation of the last row of
    the word, and no other word. *)
Theorem read_elp_lexicon (float : string -> result Q)
    (words : list SegmentSurprisalTree.row) :
  parses_positive float words ->
  snd (SegmentSurprisalTree.read_elp float words) = Ok tt /\
  SegmentSurprisalTree.tree (fst (SegmentSurprisalTree.read_elp float words))
  = fst (PrefixTree.calculate_probs (build (ops_of float words))) /\
  (forall pre x post,
      words = pre ++ x :: post ->
      (forall y, y ∈ post ->
                 SegmentSurprisalTree.Word y <> SegmentSurprisalTree.Word x) ->
      SegmentSurprisalTree.pronunciations
        (fst (SegmentSurprisalTree.read_elp float words))
        !! SegmentSurprisalTree.Word x
      = Some (ELP2CMU.translate (SegmentSurprisalTree.Pron x))) /\
  (forall w,
      (forall y, y ∈ words -> SegmentSurprisalTree.Word y <> w) ->
      SegmentSurprisalTree.pronunciations
        (fst (SegmentSurprisalTree.read_elp float words)) !! w = None).
Proof.
  intros H. rewrite (read_elp_parses float words H).
  cbn [fst snd SegmentSurprisalTree.tree SegmentSurprisalTree.pronunciations].
  split; [reflexivity|]. split; [reflexivity|]. split.
  - intros pre x post -> Hpost. apply prons_of_last, Hpost.
  - intros w Hw. rewrite prons_of_other by exact Hw. apply lookup_empty.
Qed.

Lemma rows_example_parses : parses_positive float_example rows_example.
Proof.
  intros x Hx Hs. apply list_elem_of_In in Hx. cbn in Hx.
  destruct Hx as [<-|[<-|[<-|[]]]].
  - exists (41 # 2). split; reflexivity.
  - exists 3%Q. split; reflexivity.
  - exfalso. apply Hs. left.
Qed.

Lemma read_elp_lexicon_witness :
  parses_positive float_example rows_example /\
  snd (SegmentSurprisalTree.read_elp float_example rows_example) = Ok tt.
Proof.
  split; [exact rows_example_parses|].
  exact (proj1 (read_elp_lexicon float_example rows_example
                  rows_example_parses)).
Defined.

(** ** From the rows to the uniqueness point *)

Lemma translate_marker (s : string) :
  "#"%string ∈ ELP2CMU.translate s -> marker ∈ chars s.
Proof.
  unfold ELP2CMU.translate.
  destruct (proj1 (translate_loop_out s) []) as (out & -> & _ & HF).
  cbn [app]. rewrite Forall_forall in HF. intros Hp.
  destruct (HF _ Hp) as [H|[H|[H|(c0 & Hc0 & _ & H)]]].
  - apply list_elem_of_In in H. cbn in H.
    repeat (destruct H as [H|H]; [discriminate|]). contradiction.
  - apply list_elem_of_In in H. cbn in H.
    repeat (destruct H as [H|H]; [discriminate|]). contradiction.
  - discriminate.
  - injection H as H. symmetry in H. apply upper_marker in H.
    rewrite <- H. exact Hc0.
Qed.

(** A node whose id ends with a marker that no sequence has inside has no
    children. *)
Lemma marked_node_is_leaf (ops : list insertion) (y : node)
    (t : list string) :
  (forall c, c ∈ ops ->
             exists t', ins_vector c = t' ++ ["#"%string] /\
                        "#"%string ∉ t') ->
  good ops y -> id y = t ++ ["#"%string] -> children y = [].
Proof.
  intros Hops Hg Hid.
  destruct (children y) as [|kc cs] eqn:E; [reflexivity|exfalso].
  assert (Hin : kc ∈ children y) by (rewrite E; left).
  destruct (good_child ops y kc Hg Hin) as [_ [s Hs]].
  apply good_inv in Hg as (_ & _ & _ & Hk & Hfa).
  rewrite Forall_forall in Hfa. destruct (Hfa kc Hin) as [Hkid _].
  apply (list_elem_of_fmap_2 fst) in Hin.
  apply Hk in Hin as [_ [c' [Hc' Hp]]].
  rewrite Hkid, Hs, Hid in Hp.
  destruct (Hops c' Hc') as [t' [Ht' Hno]]. rewrite Ht' in Hp.
  destruct Hp as [rest Hp].
  assert (Hlook : (t' ++ ["#"%string]) !! length t = Some "#"%string).
  { rewrite Hp, <- !app_assoc. rewrite lookup_app_r by lia.
    rewrite Nat.sub_diag. reflexivity. }
  destruct (decide (length t < length t')) as [Hlt|Hge].
  - rewrite lookup_app_l in Hlook by exact Hlt.
    apply Hno. apply list_elem_of_lookup. exists (length t). exact Hlook.
  - apply (f_equal length) in Hp. rewrite !length_app in Hp. cbn in Hp. lia.
Qed.

Lemma last_probs_path (ps : list (string * node)) :
  forall f s y,
    last ps = Some (s, y) ->
    exists p, last (probs_path f ps) = Some (s, set_prob p (with_probs y)).
Proof.
  induction ps as [|[s0 y0] ps IH]; intros f s y H; [discriminate|].
  destruct ps as [|sy ps].
  - cbn in H. injection H as -> ->. eexists. reflexivity.
  - change (last ((s0, y0) :: sy :: ps)) with (last (sy :: ps)) in H.
    destruct (IH (freq y0) s y H) as [p Hp]. exists p.
    cbn [probs_path fst snd] in *. exact Hp.
Qed.

Lemma ratios_symbols (ps : list (string * node)) :
  forall f, map fst (ratios f ps) = map fst ps.
Proof.
  induction ps as [|sy ps IH]; intros f; [reflexivity|].
  cbn [ratios map fst]. rewrite IH. reflexivity.
Qed.

(** In a tree built with positive weights from sequences ended by a
    marker none has inside, after [calculate_probs]: a sequence that was
    inserted is found, the node it ends at has no children, and every
    node along it has its probability. *)
Lemma inserted_marked_sequence (ops : list insertion) (c : insertion)
    (t : list string) :
  Forall (fun c => (0 < ins_weight c)%Q) ops ->
  (forall c, c ∈ ops ->
             exists t', ins_vector c = t' ++ ["#"%string] /\
                        "#"%string ∉ t') ->
  c ∈ ops -> ins_vector c = t ++ ["#"%string] ->
  (exists ps s y,
      PrefixTree.get_prefixes (fst (PrefixTree.calculate_probs (build ops)))
        (t ++ ["#"%string]) = Ok ps /\
      last ps = Some (s, y) /\ children y = []) /\
  (exists l,
      PrefixTree.prefix_probabilities
        (fst (PrefixTree.calculate_probs (build ops))) (t ++ ["#"%string])
      = Ok l /\
      map fst l = t ++ ["#"%string]).
Proof.
  intros Hpos Hops Hc Hv. set (v := t ++ ["#"%string]) in *.
  assert (Hall : forall k, 1 <= k <= length v -> inserted ops (take k v)).
  { intros k _. exists c. split; [exact Hc|]. rewrite Hv. apply take_prefix. }
  destruct (get_prefixes_build ops v)
    as [[Hr _]|[ps (Hps & Hl & _ & Hspec)]].
  { exfalso. destruct (get_node_build ops v)
      as [[_ [k [Hk Hno]]]|[y (Hy & _)]]; [|congruence].
    apply Hno, Hall, Hk. }
  assert (Hlen : length v = S (length t))
    by (unfold v; rewrite length_app; cbn; lia).
  assert (Hlast : exists s y, last ps = Some (s, y)).
  { destruct (lookup_lt_is_Some_2 ps (length t)) as [[s y] Hsy]; [lia|].
    exists s, y. rewrite last_lookup, Hl, Hlen. exact Hsy. }
  destruct Hlast as (s & y & Hlast).
  assert (Hleaf : children y = []).
  { pose proof Hlast as Hj. rewrite last_lookup, Hl, Hlen in Hj. cbn in Hj.
    destruct (Hspec _ _ _ Hj) as (_ & Hn & Hid).
    rewrite <- Hlen, firstn_all in Hn, Hid.
    apply (marked_node_is_leaf ops y t Hops); [|exact Hid].
    apply (good_subnodes ops _ (build_good ops)).
    apply (get_node_loop_subnodes v _ _ _ _ Hn). }
  assert (Hps' :
    PrefixTree.get_prefixes (fst (PrefixTree.calculate_probs (build ops))) v
    = Ok (probs_path (freq (PrefixTree.tree (build ops))) ps)).
  { rewrite (calculate_probs_build ops Hpos). cbn [fst].
    unfold PrefixTree.get_prefixes in *. cbn [PrefixTree.tree].
    rewrite (get_prefixes_loop_with_probs v (length v) 0
               (PrefixTree.tree (build ops)))
      by apply children_with_probs.
    rewrite Hps. reflexivity. }
  split.
  - destruct (last_probs_path ps (freq (PrefixTree.tree (build ops))) s y Hlast)
      as [p Hp].
    eexists _, s, _. split; [exact Hps'|]. split; [exact Hp|].
    cbn [children set_prob]. rewrite children_with_probs, Hleaf. reflexivity.
  - pose proof (prefix_probabilities_with_probs ops v Hpos) as Hpp.
    rewrite Hps in Hpp. eexists. split; [exact Hpp|].
    rewrite ratios_symbols. apply (get_prefixes_symbols _ _ _ Hps).
Qed.

Lemma ops_of_marked (float : string -> result Q)
    (words : list SegmentSurprisalTree.row) :
  (forall x, x ∈ words -> marker ∉ chars (SegmentSurprisalTree.Pron x)) ->
  forall c,
    c ∈ ops_of float words ->
    exists t', ins_vector c = t' ++ ["#"%string] /\ "#"%string ∉ t'.
Proof.
  intros Hm c Hc. unfold ops_of in Hc.
  apply list_elem_of_fmap in Hc as [x [-> Hx]].
  unfold inserted_rows in Hx. apply list_elem_of_filter in Hx as [_ Hx].
  exists (ELP2CMU.translate (SegmentSurprisalTree.Pron x)).
  split; [reflexivity|]. intros H. apply (Hm x Hx), translate_marker, H.
Qed.

(** X19: from the rows to the uniqueness point.  When the frequency fields
    of the rows, the texts [0] and [NULL] apart, are texts of positive
    numbers and no pronunciation has the character [#], then, for every
    word whose last row has a frequency field that is neither [0] nor
    [NULL], in the lexicon [read_elp] leaves, [get_uniqueness_point] returns
    a result, and [probabilities] returns a list with one entry for each
    phoneme of the word and one for the end marker, in that order. *)
Theorem read_elp_uniqueness_point (float : string -> result Q)
    (words pre post : list SegmentSurprisalTree.row)
    (x : SegmentSurprisalTree.row) :
  parses_positive float words ->
  (forall y, y ∈ words -> marker ∉ chars (SegmentSurprisalTree.Pron y)) ->
  words = pre ++ x :: post ->
  (forall y, y ∈ post ->
             SegmentSurprisalTree.Word y <> SegmentSurprisalTree.Word x) ->
  SegmentSurprisalTree.SUBTLWF x ∉ ["0"; "NULL"]%string ->
  is_ok (SegmentSurprisalTree.get_uniqueness_point
           (fst (SegmentSurprisalTree.read_elp float words))
           (SegmentSurprisalTree.Word x)) = true /\
  exists l,
    SegmentSurprisalTree.probabilities
      (fst (SegmentSurprisalTree.read_elp float words))
      (SegmentSurprisalTree.Word x) true = Ok l /\
    map fst l
    = ELP2CMU.translate (SegmentSurprisalTree.Pron x) ++ ["#"%string].
Proof.
  intros Hparse Hm Hw Hpost Hs.
  rewrite (read_elp_parses float words Hparse). cbn [fst].
  set (lex := SegmentSurprisalTree.Make _ _).
  assert (Hpr : SegmentSurprisalTree.pronunciations lex
                  !! SegmentSurprisalTree.Word x
                = Some (ELP2CMU.translate (SegmentSurprisalTree.Pron x))).
  { unfold lex. cbn [SegmentSurprisalTree.pronunciations]. rewrite Hw.
    apply prons_of_last, Hpost. }
  assert (Hc : row_insertion float x ∈ ops_of float words).
  { unfold ops_of. apply list_elem_of_fmap_2. unfold inserted_rows.
    apply list_elem_of_filter. split; [exact Hs|].
    rewrite Hw. apply elem_of_app. right. left. }
  destruct (inserted_marked_sequence (ops_of float words)
              (row_insertion float x)
              (ELP2CMU.translate (SegmentSurprisalTree.Pron x))
              (ops_of_positive float words Hparse)
              (ops_of_marked float words Hm) Hc eq_refl)
    as [(ps & s & y & Hps & Hlast & Hleaf) (l & Hl & Hsym)].
  split.
  - apply (proj2 (get_uniqueness_point_cases lex _ _ ps Hpr Hps) s y Hlast Hleaf).
  - exists l. unfold SegmentSurprisalTree.probabilities. rewrite Hpr.
    cbn [SegmentSurprisalTree.word_vector]. split; [exact Hl|exact Hsym].
Qed.

Lemma read_elp_uniqueness_point_witness :
  parses_positive float_example rows_example /\
  is_ok (SegmentSurprisalTree.get_uniqueness_point
           (fst (SegmentSurprisalTree.read_elp float_example rows_example))
           "cab") = true.
Proof.
  split; [exact rows_example_parses|].
  refine (proj1 (read_elp_uniqueness_point float_example rows_example
                   [SegmentSurprisalTree.Row "cat" "k{t" "20.5"]
                   [SegmentSurprisalTree.Row "cad" "k{d" "0"]
                   (SegmentSurprisalTree.Row "cab" "k{b" "3")
                   rows_example_parses _ eq_refl _ _)).
  - intros y Hy Hin. apply list_elem_of_In in Hy. cbn in Hy.
    destruct Hy as [<-|[<-|[<-|[]]]]; apply list_elem_of_In in Hin;
      cbn in Hin; repeat (destruct Hin as [Hin|Hin]; [discriminate|]);
      contradiction.
  - intros y Hy. apply list_elem_of_In in Hy. cbn in Hy.
    destruct Hy as [<-|[]]. discriminate.
  - intros Hin. apply list_elem_of_In in Hin. cbn in Hin.
    repeat (destruct Hin as [Hin|Hin]; [discriminate|]). contradiction.
Defined.

(** The instance of X20 for [understood], of eight phonemes. *)
Lemma get_uniqueness_point_short_witness :
  SegmentSurprisalTree.pronunciations lexicon !! "understood"%string
  = Some pron_understood /\
  length pron_understood < 10 /\
  SegmentSurprisalTree.get_uniqueness_point lexicon "understood"
  = uniqueness_point_by_position lexicon "understood".
Proof.
  assert (H1 : SegmentSurprisalTree.pronunciations lexicon !! "understood"%string
               = Some pron_understood) by (vm_compute; reflexivity).
  assert (H2 : length pron_understood < 10) by (cbn; lia).
  split; [exact H1|]. split; [exact H2|].
  exact (get_uniqueness_point_short lexicon "understood" pron_understood H1 H2).
Defined.

(** ** The statistics of a node (C5) *)






(** ** Lookup after any calls (C8) *)

Lemma dict_setdefault_update_map {V W : Type} (g : V -> W) (k : list string)
    (dflt : V) (f : V -> V) (f' : W -> W) (d : list (list string * V)) :
  (forall x, g (f x) = f' (g x)) ->
  map (fun kc => (fst kc, g (snd kc))) (dict_setdefault_update k dflt f d)
  = dict_setdefault_update k (g dflt) f'
      (map (fun kc => (fst kc, g (snd kc))) d).
Proof.
  intros H. induction d as [|[k' v] d IH]; cbn [dict_setdefault_update map fst snd].
  - rewrite H. reflexivity.
  - destruct (decide (k = k')); cbn [map fst snd]; [rewrite H|rewrite IH];
      reflexivity.
Qed.

(** [insert] does not look at the ['prob'] fields: it does the same to a
    tree and to the tree without them. *)
Lemma insert_loop_forget (v : list string) (w : Q) (l : string) :
  forall rest i pointer,
    map (fun kc => (fst kc, forget_probs (snd kc)))
        (PrefixTree.insert_loop v w l i rest pointer)
    = PrefixTree.insert_loop v w l i rest
        (map (fun kc => (fst kc, forget_probs (snd kc))) pointer).
Proof.
  induction rest as [|r IH]; intros i pointer; [reflexivity|].
  cbn [PrefixTree.insert_loop].
  rewrite (dict_setdefault_update_map forget_probs _ _ _
             (fun x =>
                let x1 := set_freq (freq x + w) x in
                let x2 :=
                  set_children
                    (PrefixTree.insert_loop v w l (S i) r (children x1)) x1 in
                match r with
                | O => append_label l x2
                | S _ => x2
                end)).
  - reflexivity.
  - intros x. cbn zeta. rewrite (forget_probs_unfold x).
    cbn [set_freq set_children children id labels freq prob].
    destruct r; rewrite forget_probs_unfold;
      cbn [append_label set_children children id labels freq prob];
      rewrite IH; reflexivity.
Qed.

Lemma insert_node_forget (x : node) (v : list string) (w : Q) (l : string) :
  forget_probs (fst (PrefixTree.insert_node x v w l))
  = fst (PrefixTree.insert_node (forget_probs x) v w l).
Proof.
  unfold PrefixTree.insert_node. rewrite (forget_probs_unfold x).
  destruct v as [|s v]; cbn [fst]; rewrite forget_probs_unfold;
    cbn [set_freq set_children children id labels freq prob];
    [reflexivity|].
  rewrite insert_loop_forget. reflexivity.
Qed.

(** The tree after any calls is, the ['prob'] fields apart, the tree its
    insertions build. *)
Lemma run_same_but_probs (cs : list call) :
  forall self self',
    same_but_probs (PrefixTree.tree self) (PrefixTree.tree self') ->
    same_but_probs (PrefixTree.tree (run self cs))
                   (PrefixTree.tree (build_from self' (insertions cs))).
Proof.
  unfold same_but_probs.
  induction cs as [|c cs IH]; intros self self' H; [exact H|].
  destruct c as [v w l| |x]; cbn [run foldl step insertions build_from].
  - apply IH. rewrite !insert_tree, !insert_node_forget, H. reflexivity.
  - apply IH. unfold PrefixTree.calculate_probs.
    pose proof (calculate_probs_node_forget (PrefixTree.tree self)) as Hc.
    destruct (PrefixTree.calculate_probs_node _). cbn [fst PrefixTree.tree] in *.
    rewrite Hc. exact H.
  - apply IH. unfold PrefixTree.get_node_stats.
    destruct (PrefixTree._cache self !! id x); exact H.
Qed.

Lemma get_node_loop_same_but_probs (v : list string) :
  forall n i x y,
    same_but_probs x y ->
    match PrefixTree.get_node_loop v i n x, PrefixTree.get_node_loop v i n y with
    | Ok a, Ok b => same_but_probs a b
    | Raise e, Raise e' => e = e'
    | _, _ => False
    end.
Proof.
  induction n as [|n IH]; intros i x y H; [exact H|].
  rewrite !get_node_loop_S.
  apply same_but_probs_fields in H as (_ & _ & _ & Hc).
  pose proof (same_but_probs_dict_get (take (S i) v) _ _ Hc) as Hd.
  destruct (dict_get _ (children x)) as [c|],
           (dict_get _ (children y)) as [c'|]; try contradiction;
    [apply IH, Hd|reflexivity].
Qed.

(** The two outcomes of [get_node] after any calls. *)
Lemma get_node_run (cs : list call) (v : list string) :
  (PrefixTree.get_node (run PrefixTree.init cs) v = Raise KeyError /\
   exists k, 1 <= k <= length v /\ ~ inserted (insertions cs) (take k v))
  \/
  (exists y,
      PrefixTree.get_node (run PrefixTree.init cs) v = Ok y /\ id y = v /\
      forall k, 1 <= k <= length v -> inserted (insertions cs) (take k v)).
Proof.
  pose proof (run_same_but_probs cs PrefixTree.init PrefixTree.init eq_refl)
    as Hsb. fold (build (insertions cs)) in Hsb.
  pose proof (get_node_loop_same_but_probs v (length v) 0 _ _ Hsb) as Hn.
  fold (PrefixTree.get_node (run PrefixTree.init cs) v) in Hn.
  fold (PrefixTree.get_node (build (insertions cs)) v) in Hn.
  destruct (get_node_build (insertions cs) v)
    as [[Hr Hk]|[y' (Hy' & Hid & Hall)]].
  - left. rewrite Hr in Hn.
    destruct (PrefixTree.get_node (run PrefixTree.init cs) v) as [y|e];
      [contradiction|]. subst e. split; [reflexivity|exact Hk].
  - right. rewrite Hy' in Hn.
    destruct (PrefixTree.get_node (run PrefixTree.init cs) v) as [y|e];
      [|contradiction].
    exists y. split; [reflexivity|]. split; [|exact Hall].
    apply same_but_probs_fields in Hn as (Hi & _). rewrite Hi. exact Hid.
Qed.

Lemma get_prefixes_run (cs : list call) (v : list string) :
  (PrefixTree.get_node (run PrefixTree.init cs) v = Raise KeyError /\
   PrefixTree.get_prefixes (run PrefixTree.init cs) v = Raise KeyError)
  \/
  (exists ps,
      PrefixTree.get_prefixes (run PrefixTree.init cs) v = Ok ps /\
      length ps = length v /\
      is_ok (PrefixTree.get_node (run PrefixTree.init cs) v) = true /\
      forall j s y,
        ps !! j = Some (s, y) ->
        v !! j = Some s /\
        PrefixTree.get_node (run PrefixTree.init cs) (take (S j) v) = Ok y /\
        id y = take (S j) v).
Proof.
  destruct (get_prefixes_loop_get_node v (length v) 0
              (PrefixTree.tree (run PrefixTree.init cs)) [] (Nat.le_refl _))
    as [[H1 H2]|[ps (Hps & Hl & Hok & Hspec)]].
  - left. split; assumption.
  - right. exists ps. split; [exact Hps|]. split; [exact Hl|].
    split; [exact Hok|]. intros j s y H.
    assert (Hj : S j <= length v) by (apply lookup_lt_Some in H; lia).
    destruct (Hspec j s y H) as [Hs Hn].
    rewrite <- (get_node_take (run PrefixTree.init cs)) in Hn by exact Hj.
    split; [exact Hs|]. split; [exact Hn|].
    destruct (get_node_run cs (take (S j) v))
      as [[Hr _]|[y' (Hy' & Hid' & _)]]; congruence.
Qed.

(** C8: after any calls of [insert], [calculate_probs] and
    [get_node_stats] on a new tree, [get_node] and [get_prefixes] raise
    [KeyError] exactly when some prefix of the queried sequence, of length
    1 or more, was never inserted, and raise nothing else; when every
    prefix was inserted, [get_node] returns the node whose id is the
    sequence and [get_prefixes] returns, for the prefix lengths 1 to the
    length of the sequence in that order, the last symbol of the prefix
    with the node of the prefix. *)
Theorem lookup_fails_iff_prefix_missing (cs : list call) (v : list string) :
  let self := run PrefixTree.init cs in
  let ops := insertions cs in
  (PrefixTree.get_node self v = Raise KeyError
   <-> exists k, 1 <= k <= length v /\ ~ inserted ops (take k v)) /\
  (PrefixTree.get_prefixes self v = Raise KeyError
   <-> exists k, 1 <= k <= length v /\ ~ inserted ops (take k v)) /\
  (is_ok (PrefixTree.get_node self v) = false
   -> PrefixTree.get_node self v = Raise KeyError) /\
  (is_ok (PrefixTree.get_prefixes self v) = false
   -> PrefixTree.get_prefixes self v = Raise KeyError) /\
  ((forall k, 1 <= k <= length v -> inserted ops (take k v)) ->
   exists y ps,
     PrefixTree.get_node self v = Ok y /\ id y = v /\
     PrefixTree.get_prefixes self v = Ok ps /\
     length ps = length v /\
     forall j s z,
       ps !! j = Some (s, z) ->
       v !! j = Some s /\
       PrefixTree.get_node self (take (S j) v) = Ok z /\
       id z = take (S j) v).
Proof.
  intros self ops. unfold self, ops.
  pose proof (get_node_run cs v) as Hn.
  pose proof (get_prefixes_run cs v) as Hp.
  split; [split|split; [split|split; [|split]]].
  - intros H. destruct Hn as [[_ Hk]|[y (Hy & _)]]; [exact Hk|congruence].
  - intros [k [Hk1 Hk2]].
    destruct Hn as [[Hr _]|[y (_ & _ & Hall)]]; [exact Hr|].
    exfalso. apply Hk2, Hall, Hk1.
  - intros H. destruct Hn as [[_ Hk]|[y (Hy & _ & Hall)]]; [exact Hk|].
    destruct Hp as [[Hr _]|[ps (Hps & _)]]; congruence.
  - intros [k [Hk1 Hk2]].
    destruct Hp as [[_ Hr]|[ps (_ & _ & Hok & _)]]; [exact Hr|].
    destruct Hn as [[Hr _]|[y (_ & _ & Hall)]].
    + rewrite Hr in Hok. discriminate.
    + exfalso. apply Hk2, Hall, Hk1.
  - intros H. destruct Hn as [[Hr _]|[y (Hy & _)]]; [exact Hr|].
    rewrite Hy in H. discriminate.
  - intros H. destruct Hp as [[_ Hr]|[ps (Hps & _)]]; [exact Hr|].
    rewrite Hps in H. discriminate.
  - intros Hall.
    destruct Hn as [[_ [k [Hk1 Hk2]]]|[y (Hy & Hid & _)]];
      [exfalso; apply Hk2, Hall, Hk1|].
    destruct Hp as [[Hr _]|[ps (Hps & Hl & _ & Hspec)]]; [congruence|].
    exists y, ps. split; [exact Hy|]. split; [exact Hid|].
    split; [exact Hps|]. split; [exact Hl|]. exact Hspec.
Qed.

(** The instance of C8 for [('K','AE','T')] in the second tree of the
    docstring, after its [calculate_probs]. *)
Lemma lookup_fails_iff_prefix_missing_witness :
  run PrefixTree.init calls_kill_cat = tree_kill_cat /\
  (forall k, 1 <= k <= length ["K"; "AE"; "T"] ->
             inserted (insertions calls_kill_cat) (take k ["K"; "AE"; "T"])) /\
  exists y ps,
    PrefixTree.get_node (run PrefixTree.init calls_kill_cat) ["K"; "AE"; "T"]
    = Ok y /\
    id y = ["K"; "AE"; "T"] /\
    PrefixTree.get_prefixes (run PrefixTree.init calls_kill_cat)
      ["K"; "AE"; "T"] = Ok ps /\
    length ps = length ["K"; "AE"; "T"] /\
    forall j s z,
      ps !! j = Some (s, z) ->
      ["K"; "AE"; "T"] !! j = Some s /\
      PrefixTree.get_node (run PrefixTree.init calls_kill_cat)
        (take (S j) ["K"; "AE"; "T"]) = Ok z /\
      id z = take (S j) ["K"; "AE"; "T"].
Proof.
  assert (H : forall k, 1 <= k <= length ["K"; "AE"; "T"] ->
                        inserted (insertions calls_kill_cat)
                                 (take k ["K"; "AE"; "T"])).
  { intros k _. exists (Insertion ["K"; "AE"; "T"] 6 "cat").
    split; [right; left|apply take_prefix]. }
  split; [reflexivity|]. split; [exact H|].
  exact (proj2 (proj2 (proj2 (proj2
           (lookup_fails_iff_prefix_missing calls_kill_cat ["K"; "AE"; "T"]))))
           H).
Defined.

(** ** The frequencies after any calls (C2) *)

Lemma subnodes_forget_probs (t : node) :
  subnodes (forget_probs t) = map forget_probs (subnodes t).
Proof.
  induction t as [i l f p cs IH] using node_ind.
  rewrite (subnodes_unfold (forget_probs _)), (subnodes_unfold (Node _ _ _ _ _)).
  assert (Hc : children (forget_probs (Node i l f p cs))
               = map (fun kc => (fst kc, forget_probs (snd kc))) cs)
    by (rewrite forget_probs_unfold; reflexivity).
  rewrite Hc. clear Hc. cbn [map children]. f_equal. rewrite map_map.
  cbn [snd].
  induction IH as [|kc cs' Hkc _ IHcs]; [reflexivity|].
  cbn [map concat]. rewrite map_app, Hkc, IHcs. reflexivity.
Qed.

(** A node of the tree after any calls is, the ['prob'] fields apart, a
    node of the tree the insertions build. *)
Lemma run_subnode (cs : list call) (x : node) :
  x ∈ subnodes (PrefixTree.tree (run PrefixTree.init cs)) ->
  exists y,
    y ∈ subnodes (PrefixTree.tree (build (insertions cs))) /\
    same_but_probs x y.
Proof.
  intros Hx.
  pose proof (run_same_but_probs cs PrefixTree.init PrefixTree.init eq_refl)
    as Hsb. fold (build (insertions cs)) in Hsb. unfold same_but_probs in Hsb.
  apply (list_elem_of_fmap_2 forget_probs) in Hx.
  rewrite <- subnodes_forget_probs, Hsb, subnodes_forget_probs in Hx.
  apply list_elem_of_fmap in Hx as [y [Hxy Hy]].
  exists y. split; [exact Hy|exact Hxy].
Qed.

Lemma sum_freq_same_but_probs (x y : node) :
  same_but_probs x y -> sum_freq (children x) = sum_freq (children y).
Proof.
  intros H. apply same_but_probs_fields in H as (_ & _ & _ & Hc).
  revert Hc. generalize (children y). generalize (children x).
  induction l as [|kc cs IH]; intros [|kc' cs'] Hc; try discriminate;
    [reflexivity|].
  cbn [map] in Hc. injection Hc as _ Hkc Hcs.
  rewrite !sum_freq_cons, (IH cs' Hcs).
  assert (Hf : freq (snd kc) = freq (snd kc')).
  { apply (same_but_probs_fields _ _ Hkc). }
  rewrite Hf. reflexivity.
Qed.

(** C2, amended: in the tree after any calls of [insert],
    [calculate_probs] and [get_node_stats] on a new tree, the weights of
    the [insert] calls being ints, the frequency of every node, the root
    included, is the sum of the frequencies of its children plus the total
    weight of the calls whose sequence is the node's id; so it is the sum
    over the children at every node where no call's sequence ends. *)
Theorem aggregation_with_terminations (iops : list int_insertion)
    (cs : list call) (x : node) :
  insertions cs = of_ints iops ->
  x ∈ subnodes (PrefixTree.tree (run PrefixTree.init cs)) ->
  (freq x == sum_freq (children x) + term_weight (of_ints iops) (id x))%Q /\
  ((forall c, c ∈ iops -> int_vector c <> id x) ->
   (freq x == sum_freq (children x))%Q).
Proof.
  intros Hcs Hx. destruct (run_subnode cs x Hx) as [y [Hy Hxy]].
  rewrite Hcs in Hy.
  pose proof (aggregation_good (of_ints iops) y Hy) as Ha.
  rewrite <- (sum_freq_same_but_probs x y Hxy) in Ha.
  apply same_but_probs_fields in Hxy as (Hi & _ & Hf & _).
  rewrite <- Hi, <- Hf in Ha.
  split; [exact Ha|]. intros Hno. rewrite Ha.
  rewrite (term_weight_none _ _ (of_ints_no_end iops (id x) Hno)). ring.
Qed.

(** The instance of C2 at the node of [('a',)] in the tree of [iops_a_ab]:
    2 is 1, for the child, plus 1, for the call that ends there. *)
Lemma aggregation_with_terminations_witness :
  insertions calls_a_ab = of_ints iops_a_ab /\
  node_a_of_a_ab ∈ subnodes (PrefixTree.tree (run PrefixTree.init calls_a_ab)) /\
  (freq node_a_of_a_ab
   == sum_freq (children node_a_of_a_ab)
      + term_weight (of_ints iops_a_ab) (id node_a_of_a_ab))%Q.
Proof.
  assert (H : node_a_of_a_ab
              ∈ subnodes (PrefixTree.tree (run PrefixTree.init calls_a_ab))).
  { apply list_elem_of_In. vm_compute. right. left. reflexivity. }
  split; [reflexivity|]. split; [exact H|].
  exact (proj1 (aggregation_with_terminations iops_a_ab calls_a_ab
                  node_a_of_a_ab eq_refl H)).
Defined.

(** What [prefix_frequencies] returns does not depend on the ['prob']
    fields. *)
Lemma prefix_frequencies_same_but_probs (self self' : PrefixTree.t)
    (v : list string) :
  same_but_probs (PrefixTree.tree self) (PrefixTree.tree self') ->
  PrefixTree.prefix_frequencies self v = PrefixTree.prefix_frequencies self' v.
Proof.
  intros H. unfold PrefixTree.prefix_frequencies, PrefixTree.get_prefixes.
  pose proof (get_prefixes_loop_same_but_probs v (length v) 0 _ _ H) as Hp.
  destruct (PrefixTree.get_prefixes_loop v 0 (length v) _ []) as [ps|e],
           (PrefixTree.get_prefixes_loop v 0 (length v) _ []) as [ps'|e'];
    try contradiction; [|congruence].
  f_equal. induction Hp as [|p p' ps ps' [H1 H2] _ IH]; [reflexivity|].
  cbn [map]. rewrite IH, H1.
  apply same_but_probs_fields in H2 as (_ & _ & -> & _). reflexivity.
Qed.

(** X5: in the tree after any calls of [insert], [calculate_probs] and
    [get_node_stats] on a new tree, the weights of the [insert] calls being
    ints, [prefix_frequencies] returns for each position the symbol there
    with the total weight of the calls whose sequence starts with the
    symbols up to it; when no weight is negative, the frequencies never
    rise along the sequence. *)
Theorem prefix_frequencies_built (iops : list int_insertion)
    (cs : list call) (v : list string) (l : list (string * Q)) :
  insertions cs = of_ints iops ->
  PrefixTree.prefix_frequencies (run PrefixTree.init cs) v = Ok l ->
  length l = length v /\
  (forall j s f,
      l !! j = Some (s, f) ->
      v !! j = Some s /\
      (f == prefix_weight (of_ints iops) (take (S j) v))%Q) /\
  (Forall (fun c => (0 <= int_weight c)%Z) iops ->
   forall j s f s' f',
     l !! j = Some (s, f) -> l !! (S j) = Some (s', f') -> (f' <= f)%Q).
Proof.
  intros Hcs H.
  rewrite (prefix_frequencies_same_but_probs _ (build (insertions cs)) v
             (run_same_but_probs cs PrefixTree.init PrefixTree.init eq_refl))
    in H.
  rewrite Hcs in H.
  destruct (prefix_frequencies_weights (of_ints iops) v l H) as [Hl Hlook].
  split; [exact Hl|]. split; [exact Hlook|].
  intros Hnn j s f s' f' Hj Hj'.
  destruct (Hlook _ _ _ Hj) as [_ ->]. destruct (Hlook _ _ _ Hj') as [_ ->].
  apply prefix_weight_mono; [apply of_ints_nonneg, Hnn|].
  replace (take (S j) v) with (take (S j) (take (S (S j)) v))
    by (rewrite take_take; f_equal; lia).
  apply take_prefix.
Qed.

(** The instance of X5 on the first tree of the docstring. *)
Lemma prefix_frequencies_built_witness :
  insertions calls_124_125 = of_ints iops_124_125 /\
  PrefixTree.prefix_frequencies (run PrefixTree.init calls_124_125)
    ["1"; "2"; "4"]
  = Ok [("1"%string, 6%Q); ("2"%string, 6%Q); ("4"%string, 3%Q)] /\
  length [("1"%string, 6%Q); ("2"%string, 6%Q); ("4"%string, 3%Q)]
  = length ["1"; "2"; "4"].
Proof.
  assert (H : PrefixTree.prefix_frequencies (run PrefixTree.init calls_124_125)
                ["1"; "2"; "4"]
              = Ok [("1"%string, 6%Q); ("2"%string, 6%Q); ("4"%string, 3%Q)])
    by (vm_compute; reflexivity).
  split; [reflexivity|]. split; [exact H|].
  exact (proj1 (prefix_frequencies_built iops_124_125 calls_124_125
                  ["1"; "2"; "4"] _ eq_refl H)).
Defined.

(** X10: in the tree after any calls of [insert], [calculate_probs] and
    [get_node_stats] on a new tree, the weights of the [insert] calls being
    ints and no sequence of theirs a proper prefix of another one (as when
    each ends with a marker found nowhere else), the frequency of every
    node is the sum of the frequencies of its continuations. *)
Theorem continuations_mass (iops : list int_insertion) (cs : list call)
    (x : node) :
  insertions cs = of_ints iops ->
  (forall c c',
      c ∈ iops -> c' ∈ iops ->
      int_vector c `prefix_of` int_vector c' ->
      int_vector c = int_vector c') ->
  x ∈ subnodes (PrefixTree.tree (run PrefixTree.init cs)) ->
  (freq x == Qsum (map snd (PrefixTree.get_continuations x)))%Q.
Proof.
  intros Hcs Hpf Hx. destruct (run_subnode cs x Hx) as [y [Hy Hxy]].
  rewrite Hcs in Hy.
  rewrite (get_continuations_same_but_probs x y Hxy).
  apply same_but_probs_fields in Hxy as (_ & _ & -> & _).
  apply (continuations_mass_good (of_ints iops) y (of_ints_prefix_free _ Hpf)).
  apply (good_subnodes _ _ (build_good (of_ints iops)) y Hy).
Qed.

(** The instance of X10 at the root of the tree of [calls_marked]. *)
Lemma continuations_mass_witness :
  insertions calls_marked = of_ints iops_marked /\
  (forall c c',
      c ∈ iops_marked -> c' ∈ iops_marked ->
      int_vector c `prefix_of` int_vector c' ->
      int_vector c = int_vector c') /\
  (freq (PrefixTree.tree (run PrefixTree.init calls_marked))
   == Qsum (map snd (PrefixTree.get_continuations
                       (PrefixTree.tree (run PrefixTree.init calls_marked)))))%Q.
Proof.
  split; [reflexivity|]. split; [exact iops_marked_prefix_free|].
  exact (continuations_mass iops_marked calls_marked _ eq_refl
           iops_marked_prefix_free (subnodes_self _)).
Defined.
